(** * cutkmz: geo-tile bounding boxes and the raster layout walk

    A shallow embedding of the geometry core of [cmd/kmz.go]
    ([normEasting], [eastDelta], [delta], [finishTileBox], [NewMapTile],
    [getBox], [imageWxH] and the tile loop of [process]) together with the
    earlier copy of [imageWxH] that the repository still carries.

    The Go code computes on [float64].  The functions are written once,
    over an interface [Float64] of the operations the code uses, and read
    at two instances: [b64], IEEE 754 binary64 as the kernel's primitive
    floats implement it (what the program runs on), and [exactQ], the
    rationals with no rounding (the arithmetic the doubles approximate). *)

From Stdlib Require Import ZArith QArith Qround Bool List Lia Lqa Ascii String.
From Stdlib Require Import DecimalString DecimalPos.
From Stdlib Require Import Floats.
Import ListNotations.

Set Warnings "-inexact-float".

Local Open Scope Z_scope.

(** ** Outcomes: a returned value or a Go panic *)

Inductive outcome (A : Type) : Type :=
| Ret (a : A)
| Panic (msg : string).
Arguments Ret {A} a.
Arguments Panic {A} msg.

Definition bind {A B} (m : outcome A) (k : A -> outcome B) : outcome B :=
  match m with
  | Ret a => k a
  | Panic msg => Panic msg
  end.

Notation "x <- m ;; k" := (bind m (fun x => k))
  (at level 61, m at next level, right associativity).

Definition panics {A} (m : outcome A) : bool :=
  match m with Ret _ => false | Panic _ => true end.

(** ** Go's [int] on a 64-bit target *)

Definition wrap64 (z : Z) : Z := (z + 2^63) mod 2^64 - 2^63.

(** ** The [float64] operations the code uses *)

Class Float64 (F : Type) : Type := {
  fadd : F -> F -> F;
  fsub : F -> F -> F;
  fmul : F -> F -> F;
  fdiv : F -> F -> F;
  flt : F -> F -> bool;          (* Go's [a < b]; [a > b] is [flt b a] *)
  fle : F -> F -> bool;          (* Go's [a <= b] *)
  fmod : F -> F -> F;            (* math.Mod *)
  ofInt : Z -> F;                (* float64(i), and integer constants *)
  ParseFloat : string -> option F (* strconv.ParseFloat(s, 64); None: err != nil *)
}.

Declare Scope f64_scope.
Delimit Scope f64_scope with f64.
Infix "+" := fadd : f64_scope.
Infix "-" := fsub : f64_scope.
Infix "*" := fmul : f64_scope.
Infix "/" := fdiv : f64_scope.
Infix "<?" := flt : f64_scope.
Infix "<=?" := fle : f64_scope.
Notation "a >? b" := (flt b a) (at level 70, no associativity) : f64_scope.

(** ** Decimal literals, as [strconv] scans them *)

Module Scan.

Definition isDigit (c : ascii) : bool :=
  ((48 <=? nat_of_ascii c) && (nat_of_ascii c <=? 57))%nat.

Definition digitVal (c : ascii) : Z := Z.of_nat (nat_of_ascii c) - 48.

(** The longest run of digits at the head of [s]: its value after [acc],
    the number of digits read, and what follows. *)
Fixpoint digits (s : string) (acc : Z) (n : nat) : Z * nat * string :=
  match s with
  | String c s' =>
      if isDigit c then digits s' (10 * acc + digitVal c) (S n) else (acc, n, s)
  | EmptyString => (acc, n, s)
  end.

Definition sign (s : string) : bool * string :=
  match s with
  | String "+" s' => (false, s')
  | String "-" s' => (true, s')
  | _ => (false, s)
  end.

Definition lower (c : ascii) : ascii :=
  let n := nat_of_ascii c in
  if ((65 <=? n) && (n <=? 90))%nat then ascii_of_nat (n + 32) else c.

Fixpoint lowerString (s : string) : string :=
  match s with
  | String c s' => String (lower c) (lowerString s')
  | EmptyString => EmptyString
  end.

(** The exponent part: nothing, or [e]/[E], an optional sign and at
    least one digit. *)
Definition exponent (s : string) : option (Z * string) :=
  match s with
  | String c s' =>
      if Ascii.eqb (lower c) "e" then
        let '(neg, s1) := sign s' in
        let '(e, n, s2) := digits s1 0 0%nat in
        match n with
        | O => None
        | _ => Some (if neg then - e else e, s2)
        end
      else Some (0, s)
  | EmptyString => Some (0, s)
  end.

(** A decimal floating-point literal, whole string: sign, mantissa as
    an integer, and power of ten. *)
Definition decimal (s : string) : option (bool * Z * Z) :=
  let '(neg, s0) := sign s in
  let '(ip, n1, s1) := digits s0 0 0%nat in
  let '(m, n2, s2) :=
    match s1 with
    | String "." s1' => digits s1' ip 0%nat
    | _ => (ip, 0%nat, s1)
    end in
  match (n1 + n2)%nat with
  | O => None
  | _ =>
      match exponent s2 with
      | Some (e, EmptyString) => Some (neg, m, e - Z.of_nat n2)
      | _ => None
      end
  end.

(** The special values [strconv.ParseFloat] names. *)
Inductive special := SpInf (neg : bool) | SpNaN.

Definition specialOf (s : string) : option special :=
  let l := lowerString s in
  if String.eqb l "nan" then Some SpNaN
  else if String.eqb l "inf" || String.eqb l "infinity"
          || String.eqb l "+inf" || String.eqb l "+infinity" then Some (SpInf false)
  else if String.eqb l "-inf" || String.eqb l "-infinity" then Some (SpInf true)
  else None.

(** strconv.Atoi: the value and whether [err != nil].  A syntax error
    gives 0; a value out of [int]'s range gives the nearest bound. *)
Definition Atoi (s : string) : Z * bool :=
  let '(neg, s0) := sign s in
  let '(v, n, rest) := digits s0 0 0%nat in
  match n, rest with
  | S _, EmptyString =>
      let v' := if neg then - v else v in
      if v' <? - 2^63 then (- 2^63, true)
      else if 2^63 - 1 <? v' then (2^63 - 1, true)
      else (v', false)
  | _, _ => (0, true)
  end.

End Scan.

(** ** The binary64 instance *)

Module B64.

(** float64(i): the nearest double, ties to even. *)
Definition ofInt (z : Z) : float :=
  SF2Prim (binary_normalize prec emax z 0 false).

(** math.Mod(x, y): the remainder of x / y truncated, with the sign of
    x; NaN when y is 0 or x is infinite or either is NaN; x when y is
    infinite.  The remainder of two doubles is a double, so the result
    is computed on the integers [mx * 2^ex] and [my * 2^ey] and is
    exact. *)
Definition Mod (x y : float) : float :=
  match Prim2SF x, Prim2SF y with
  | S754_nan, _ | _, S754_nan => nan
  | S754_infinity _, _ => nan
  | _, S754_zero _ => nan
  | _, S754_infinity _ => x
  | S754_zero _, _ => x
  | S754_finite sx mx ex, S754_finite _ my ey =>
      let e0 := Z.min ex ey in
      let X := Z.pos mx * 2 ^ (ex - e0) in
      let Y := Z.pos my * 2 ^ (ey - e0) in
      let R := X mod Y in
      SF2Prim (binary_normalize prec emax (if sx then - R else R) e0 sx)
  end.

(** The double nearest to [p / q * (-1)^neg] for [p >= 0], [q > 0],
    ties to even; [None] when it overflows (strconv's ErrRange). *)
Definition roundRatio (neg : bool) (p q : Z) : option float :=
  if p =? 0 then Some (if neg then neg_zero else zero) else
  let d := Z.log2 p - Z.log2 q in
  let scale (e : Z) := if e <? 0 then (p * 2 ^ (- e), q) else (p, q * 2 ^ e) in
  let e0 := d - 52 in
  let '(n0, d0) := scale e0 in
  let e1 := if n0 / d0 <? 2 ^ 52 then e0 - 1 else e0 in
  let e := Z.max e1 (-1074) in
  let '(n, dn) := scale e in
  let m := n / dn in
  let r := n mod dn in
  let m' := if 2 * r <? dn then m
            else if dn <? 2 * r then m + 1
            else if Z.even m then m else m + 1 in
  let f := Z.ldexp (of_uint63 (Uint63.of_Z m')) e in
  if is_infinity f then None else Some (if neg then (- f)%float else f).

Definition ParseFloat (s : string) : option float :=
  match Scan.specialOf s with
  | Some Scan.SpNaN => Some nan
  | Some (Scan.SpInf neg) => Some (if neg then neg_infinity else infinity)
  | None =>
      match Scan.decimal s with
      | Some (neg, m, e) =>
          if e <? 0 then roundRatio neg m (10 ^ (- e)) else roundRatio neg (m * 10 ^ e) 1
      | None => None
      end
  end.

(** Every finite double is a whole multiple of the smallest positive
    one, [2^-1074].  The multiple a finite float stands for,
    [m * 2^(e + 1074)] with its sign; [None] for NaN and the
    infinities. *)
Definition SFz (x : spec_float) : option Z :=
  match x with
  | S754_zero _ => Some 0
  | S754_finite s m e => Some (cond_Zopp s (Z.pos m * 2 ^ (e + 1074)))
  | _ => None
  end.

Definition scaled (x : float) : option Z := SFz (Prim2SF x).

Definition denom : positive := 2 ^ 1074.

(** The number a finite double stands for. *)
Definition value (x : float) : option Q :=
  option_map (fun z => z # denom) (scaled x).

End B64.

(** ** Rounding to binary64, on the scaled integers *)

Module Rounding.

(** What SpecFloat's right shift leaves after [n + 1] steps from an
    exact [m]: the quotient, the bit that fell off last and whether
    any bit fell off before it. *)
Definition shifted (m : Z) (n : nat) : shr_record :=
  {| shr_m := m / 2 ^ Z.of_nat (S n);
     shr_r := 2 ^ Z.of_nat n <=? m mod 2 ^ Z.of_nat (S n);
     shr_s := negb (m mod 2 ^ Z.of_nat n =? 0) |}.

(** Round to nearest, ties to even, of [m / 2^n]. *)
Definition rne (m n : Z) : Z :=
  if n <=? 0 then m else
  let q := m / 2 ^ n in
  let r := m mod 2 ^ n in
  let half := 2 ^ (n - 1) in
  if r <? half then q
  else if half <? r then q + 1
  else if Z.even q then q else q + 1.

(** The exponent, counted from -1074, at which a positive [z] is
    written with 53 bits, and [z] rounded to it. *)
Definition lsb (z : Z) : Z := Z.max (Z.log2 z - 52) 0.

Definition rnd (z : Z) : Z := rne z (lsb z) * 2 ^ lsb z.

(** [z] rounded to the format, either sign. *)
Definition rndZ (z : Z) : Z := Z.sgn z * rnd (Z.abs z).

(** 180 and 360 degrees in units of [2^-1074]. *)
Definition K180 : Z := 180 * 2 ^ 1074.
Definition K360 : Z := 360 * 2 ^ 1074.

(** 90 degrees in units of [2^-1074]. *)
Definition K90 : Z := 90 * 2 ^ 1074.

(** A float that is 0 or finite, of sign [s] and below [2^b] in size. *)
Definition sized (s : bool) (b : Z) (x : spec_float) : Prop :=
  x = S754_zero s \/
  exists m e, x = S754_finite s m e /\ Z.pos (digits2_pos m) + e <= b.

End Rounding.

#[export] Instance b64 : Float64 float := {
  fadd := PrimFloat.add;
  fsub := PrimFloat.sub;
  fmul := PrimFloat.mul;
  fdiv := PrimFloat.div;
  flt := PrimFloat.ltb;
  fle := PrimFloat.leb;
  fmod := B64.Mod;
  ofInt := B64.ofInt;
  ParseFloat := B64.ParseFloat
}.

(** ** The exact instance: rationals, no rounding *)

Module Exact.

(** The quotient truncated toward zero. *)
Definition trunc (q : Q) : Z := Z.quot (Qnum q) (Z.pos (Qden q)).

(** math.Mod without rounding: x - y * trunc (x / y).  Division by 0
    is 0 in Q, so [Mod x 0] is [x]; the code only divides by 360. *)
Definition Mod (x y : Q) : Q := x - y * inject_Z (trunc (x / y)).

Definition ltb (a b : Q) : bool := negb (Qle_bool b a).

Definition ParseFloat (s : string) : option Q :=
  match Scan.decimal s with
  | Some (neg, m, e) =>
      let v := if e <? 0 then (inject_Z m / inject_Z (10 ^ (- e)))%Q
               else inject_Z (m * 10 ^ e) in
      Some (if neg then (- v)%Q else v)
  | None => None
  end.

End Exact.

#[export] Instance exactQ : Float64 Q := {
  fadd := Qplus;
  fsub := Qminus;
  fmul := Qmult;
  fdiv := Qdiv;
  flt := Exact.ltb;
  fle := Qle_bool;
  fmod := Exact.Mod;
  ofInt := inject_Z;
  ParseFloat := Exact.ParseFloat
}.

(** ** Library functions of [strings] and [path/filepath] *)

(** strings.Split(s, sep) and strings.SplitN(s, sep, n) for a one-byte
    separator, which is what both call sites pass ("_", "." and " "). *)
Fixpoint Split (s : string) (sep : ascii) : list string :=
  match s with
  | EmptyString => [EmptyString]
  | String c s' =>
      if Ascii.eqb c sep then EmptyString :: Split s' sep
      else match Split s' sep with
           | x :: xs => String c x :: xs
           | [] => [String c EmptyString]
           end
  end.

(** At most [n] pieces, the last one the unsplit remainder; no piece
    for [n = 0]. *)
Fixpoint SplitN (s : string) (sep : ascii) (n : nat) {struct s} : list string :=
  match n with
  | O => []
  | S O => [s]
  | S (S _ as n') =>
      match s with
      | EmptyString => [EmptyString]
      | String c s' =>
          if Ascii.eqb c sep then EmptyString :: SplitN s' sep n'
          else match SplitN s' sep n with
               | x :: xs => String c x :: xs
               | [] => [String c EmptyString]
               end
      end
  end.

(** strings.Join(a, sep). *)
Fixpoint Join (a : list string) (sep : string) : string :=
  match a with
  | [] => EmptyString
  | [x] => x
  | x :: xs => (x ++ sep ++ Join xs sep)%string
  end.

Module filepath.

Definition isSep (c : ascii) : bool := Ascii.eqb c "/".

(** The string without its trailing separators. *)
Fixpoint stripTrailing (s : string) : string :=
  match s with
  | EmptyString => EmptyString
  | String c s' =>
      match stripTrailing s' with
      | EmptyString => if isSep c then EmptyString else String c EmptyString
      | t => String c t
      end
  end.

(** What follows the last separator. *)
Fixpoint lastElem (s : string) : string :=
  match s with
  | EmptyString => EmptyString
  | String c s' =>
      if existsb isSep (list_ascii_of_string s) then lastElem s' else s
  end.

(** filepath.Base on a Unix target: the last element of the path,
    trailing separators removed first; "." for the empty path and "/"
    for a path of separators only. *)
Definition Base (path : string) : string :=
  match path with
  | EmptyString => "."%string
  | _ =>
      match lastElem (stripTrailing path) with
      | EmptyString => "/"%string
      | b => b
      end
  end.

End filepath.

(** ** [cmd/kmz.go]: the geometry *)

(** Index in a box for its decimal degrees ([north int = iota], ...). *)
Inductive dir := north | south | east | west.

Definition slot (d : dir) : nat :=
  match d with north => 0 | south => 1 | east => 2 | west => 3 end%nat.

(** What the outside world answers: whether a file exists (os.Stat) and
    what [identify -format "%w %h" f] prints, [None] when it fails. *)
Record world := {
  stat : string -> bool;
  identify : string -> option string
}.

(** A value, or an error returned to the caller. *)
Inductive result (A : Type) : Type :=
| Ok (a : A)
| Error (err : string).
Arguments Ok {A} a.
Arguments Error {A} err.

Section Geometry.

Context {F : Type} `{Float64 F}.

Local Open Scope f64_scope.

(** [[4]float64], indexed by [dir]. *)
Record box4 := Box { bN : F; bS : F; bE : F; bW : F }.

Definition at4 (b : box4) (d : dir) : F :=
  match d with north => bN b | south => bS b | east => bE b | west => bW b end.

Definition set4 (b : box4) (d : dir) (v : F) : box4 :=
  match d with
  | north => Box v (bS b) (bE b) (bW b)
  | south => Box (bN b) v (bE b) (bW b)
  | east => Box (bN b) (bS b) v (bW b)
  | west => Box (bN b) (bS b) (bE b) v
  end.

(** [[]float64] indexed by [dir]; the slices that reach an index have
    four entries. *)
Definition at_ (b : list F) (d : dir) : F := nth (slot d) b (ofInt 0).

(** mapTile holds an image filepath, its lat/long bounding box and
    pixel width & height. *)
Record mapTile := {
  fpath : string;
  width : Z;
  height : Z;
  box : box4
}.

(** normEasting returns the given longitude in dec degress normalized to
    be within [-180,180]. *)
Definition normEasting (deg : F) : F :=
  if deg <? ofInt (-180) then fmod (deg + ofInt 180) (ofInt 360) + ofInt 180
  else if deg >? ofInt 180 then fmod (deg - ofInt 180) (ofInt 360) - ofInt 180
  else deg.

(** eastDelta returns the positve decimal degrees difference between the
    given east and west longitudes. *)
Definition eastDelta (e w : F) : F :=
  let e := normEasting e in
  let w := normEasting w in
  if e <? w then ofInt 360 + e - w else e - w.

(** delta returns the how many degrees further South the bottom of the
    tile is than the top, and how many degrees further east the east
    edge of the tile is than the west. *)
Definition delta (tileWidth tileHeight : Z) (box : box4) (totWidth totHeight : Z) : F * F :=
  let nsDeltaDeg := (ofInt tileHeight / ofInt totHeight) * (at4 box north - at4 box south) in
  let ewDeg := eastDelta (at4 box east) (at4 box west) in
  let ewDeltaDeg := (ofInt tileWidth / ofInt totWidth) * ewDeg in
  (nsDeltaDeg, ewDeltaDeg).

(** finishTileBox completes the tile.box by setting its east and south
    boundaries relative to its current north and west values.  The
    deltas are computed before the first store, so a tile passed as its
    own full map is completed from its old box. *)
Definition finishTileBox (tile fullMap : mapTile) : mapTile :=
  let '(nsDeltaDeg, ewDeltaDeg) :=
    delta (width tile) (height tile) (box fullMap) (width fullMap) (height fullMap) in
  let b1 := set4 (box tile) south (at4 (box tile) north - nsDeltaDeg) in
  let b2 := set4 b1 east (at4 b1 west + ewDeltaDeg) in
  {| fpath := fpath tile; width := width tile; height := height tile; box := b2 |}.

Definition poleMsg : string :=
  "No crossing a pole and map's North must be greater than South".

(** NewMapTile populates a map tile using the given width and height.
    Panics if North < South or cross a pole. *)
Definition NewMapTile (fpath : string) (pixWid pixHigh : Z) (n s e w : F) : outcome mapTile :=
  if (n >? ofInt 90) || (s <? ofInt (-90)) || (n <? s) then Panic poleMsg
  else Ret {| fpath := fpath; width := pixWid; height := pixHigh;
              box := Box n s (normEasting e) (normEasting w) |}.

(** imageWxH after [identify] has answered [b]: two ints separated by
    one space.  The results are named, so a failed conversion returns
    what was assigned so far. *)
Definition parseWxH (b : string) : Z * Z * option string :=
  let wh := Split b " " in
  if negb (List.length wh =? 2)%nat then (0, 0, Some "Expected two ints separated by space"%string)
  else
    let '(width, err) := Scan.Atoi (nth 0 wh EmptyString) in
    if err then (width, 0, Some "strconv.Atoi"%string)
    else
      let '(height, err) := Scan.Atoi (nth 1 wh EmptyString) in
      if err then (width, height, Some "strconv.Atoi"%string)
      else (width, height, None).

(** imageWxH returns the width and height of image file in pixels. *)
Definition imageWxH (wd : world) (imageFilename : string) : Z * Z * option string :=
  if negb (stat wd imageFilename) then (0, 0, Some "stat: no such file"%string)
  else match identify wd imageFilename with
       | None => (0, 0, Some "identify failed"%string)
       | Some b => parseWxH b
       end.

(** NewMapTileFromFile reads in given file path and creates a map tile
    with the filepath and pix width & height from the image. *)
Definition NewMapTileFromFile (wd : world) (fpath : string) (n s e w : F)
  : outcome (result mapTile) :=
  match imageWxH wd fpath with
  | (_, _, Some err) => Ret (Error err)
  | (wid, high, None) => t <- NewMapTile fpath wid high n s e w ;; Ret (Ok t)
  end.

(** The extension is cut from the last field when it has a decimal
    point of its own. *)
Definition stripExt (ci : string) : string :=
  match SplitN ci "." 3 with
  | [s0; s1; _] => (s0 ++ "." ++ s1)%string
  | _ => ci
  end.

(** The loop of getBox over [i := 1; i < 5; i++], [ixs] the indices
    still to visit: [None] when a field does not parse. *)
Fixpoint getBoxFields (c : list string) (ixs : list nat) (box : list F) : option (list F) :=
  match ixs with
  | [] => Some box
  | i :: ixs' =>
      let ci := nth i c EmptyString in
      let ci := if (i =? 4)%nat then stripExt ci else ci in
      match ParseFloat ci with
      | None => None
      | Some f => getBoxFields c ixs' (box ++ [f])
      end
  end.

(** getBox returns map name & lat/long bounding box by extracing it
    from the given file name. The Float slice is in order: northLat,
    southLat, eastLong, westLong in decimal degrees. *)
Definition getBox (image : string) : string * list F * option string :=
  let c := Split image "_" in
  if negb (List.length c =? 5)%nat then
    (EmptyString, [], Some "File name must include bounding box name_N_S_E_W.jpg in decimal degrees"%string)
  else
    let base := filepath.Base (nth 0 c EmptyString) in
    match getBoxFields c [1; 2; 3; 4]%nat [] with
    | None => (EmptyString, [], Some "Error parsing lat/long degrees in file name"%string)
    | Some box =>
        if (at_ box north <=? at_ box south) || (at_ box north >? ofInt 90)
           || (at_ box south <? ofInt (-90))
        then (base, box, Some "North boundary must be greater than south boundary and in [-90,90]"%string)
        else (base, box, None)
    end.

(** *** The tile loop of [process] *)

(** The loop's variables. *)
Record walk := {
  widthSum : Z;
  currNorth : F;
  currWest : F
}.

(** One pass of the loop body on the tile file [tf]: the tile whose box
    goes to the KML document, and the variables after it. *)
Definition tileStep (wd : world) (fixedMap : mapTile) (st : walk) (tf : string)
  : outcome (result (mapTile * walk)) :=
  r <- NewMapTileFromFile wd tf (currNorth st) (ofInt 0) (ofInt 0) (currWest st) ;;
  match r with
  | Error err => Ret (Error err)
  | Ok tile =>
      let tile := finishTileBox tile fixedMap in
      let widthSum := wrap64 (widthSum st + width tile) in
      if (width fixedMap <=? widthSum)%Z then
        Ret (Ok (tile, {| widthSum := 0;
                          currNorth := at4 (box tile) south;
                          currWest := at4 (box fixedMap) west |}))
      else
        Ret (Ok (tile, {| widthSum := widthSum;
                          currNorth := currNorth st;
                          currWest := at4 (box tile) east |}))
  end.

(** [for _, tf := range tileFiles]: the tiles in the order their
    overlays are written. *)
Fixpoint tileLoop (wd : world) (fixedMap : mapTile) (st : walk) (tileFiles : list string)
  : outcome (result (list mapTile)) :=
  match tileFiles with
  | [] => Ret (Ok [])
  | tf :: rest =>
      r <- tileStep wd fixedMap st tf ;;
      match r with
      | Error err => Ret (Error err)
      | Ok (tile, st') =>
          r' <- tileLoop wd fixedMap st' rest ;;
          match r' with
          | Error err => Ret (Error err)
          | Ok tiles => Ret (Ok (tile :: tiles))
          end
      end
  end.

(** The walk from its start at the full map's north-west corner. *)
Definition layoutTiles (wd : world) (fixedMap : mapTile) (tileFiles : list string)
  : outcome (result (list mapTile)) :=
  tileLoop wd fixedMap
    {| widthSum := 0;
       currNorth := at4 (box fixedMap) north;
       currWest := at4 (box fixedMap) west |} tileFiles.

(** The body of [process] for one image, from the file name to the
    boxes of the overlays: [fixedJpg] is the resized copy the tiles
    were chopped from and [tileFiles] the sorted listing of the tiles
    directory, each entry joined to the directory's path.  Resizing,
    chopping, the KML text and the zip file are left to the world. *)
Definition process (wd : world) (absImage fixedJpg : string) (tileFiles : list string)
  : outcome (result (list mapTile)) :=
  match getBox absImage with
  | (_, _, Some err) => Ret (Error err)
  | (_, box, None) =>
      r <- NewMapTileFromFile wd absImage (at_ box north) (at_ box south)
             (at_ box east) (at_ box west) ;;
      match r with
      | Error err => Ret (Error err)
      | Ok _ =>
          r <- NewMapTileFromFile wd fixedJpg (at_ box north) (at_ box south)
                 (at_ box east) (at_ box west) ;;
          match r with
          | Error err => Ret (Error err)
          | Ok fixedMap => layoutTiles wd fixedMap tileFiles
          end
      end
  end.

End Geometry.

Arguments box4 F : clear implicits.
Arguments mapTile F : clear implicits.
Arguments walk F : clear implicits.

(** ** The earlier [cmd/kmz.go] *)

Module Old.

(** imageWxH returns the width and height of image file in pixels. *)
Definition parseWxH (b : string) : Z * Z * option string :=
  let wh := Split b " " in
  if negb (List.length wh =? 2)%nat then (0, 0, Some "Expected two ints separated by space"%string)
  else
    let '(width, err) := Scan.Atoi (nth 0 wh EmptyString) in
    if err then (width, 0, Some "strconv.Atoi"%string)
    else
      let '(height, err) := Scan.Atoi (nth 0 wh EmptyString) in
      if err then (width, height, Some "strconv.Atoi"%string)
      else (width, height, None).

Definition imageWxH (wd : world) (imageFilename : string) : Z * Z * option string :=
  match identify wd imageFilename with
  | None => (0, 0, Some "identify failed"%string)
  | Some b => parseWxH b
  end.

(** getBox returns map name & lat/long bounding box by extracing it
    from the name.  The earlier copy has no check of the latitudes. *)
Definition getBox {F : Type} `{Float64 F} (image : string) : string * list F * option string :=
  let c := Split image "_" in
  if negb (List.length c =? 5)%nat then
    (EmptyString, [], Some "File name must include bounding box name_N_S_E_W.jpg in decimal degrees"%string)
  else
    let base := filepath.Base (nth 0 c EmptyString) in
    match getBoxFields c [1; 2; 3; 4]%nat [] with
    | None => (EmptyString, [], Some "Error parsing lat/long degrees in file name"%string)
    | Some box => (base, box, None)
    end.

End Old.

(** ** [cmd/kmz_test.go]: the loop of [deltaT] *)

Section DeltaTest.

Context {F : Type} `{Float64 F}.

Local Open Scope f64_scope.

(** What [t.Errorf] is called with. *)
Inductive testError :=
| EastOutOfRange (e : F)
| WestOutOfRange (w : F)
| NorthOutOfRange (n : F)
| SouthOutOfRange (s : F)
| NorthBelowSouth (n s : F).

(** The loop's variables and the errors reported so far. *)
Record deltaState := {
  tbox : box4 F;
  tWidthSum : Z;
  reported : list testError
}.

Definition outOfRange (v : F) (bound : Z) : bool :=
  (v <? ofInt (- bound)) || (v >? ofInt bound).

(** One pass of [for i := 0; i < 100; i++]. *)
Definition deltaTStep (tileWidth tileHeight : Z) (box : box4 F) (totWidth totHeight : Z)
           (st : deltaState) : deltaState :=
  let '(ns, ew) := delta tileWidth tileHeight box totWidth totHeight in
  let b := set4 (tbox st) east (at4 (tbox st) west + ew) in
  let b := if at4 b east >? ofInt 180 then set4 b east (at4 b east - ofInt 360) else b in
  let b := set4 b south (at4 b north - ns) in
  let errs :=
    (if outOfRange (at4 b east) 180 then [EastOutOfRange (at4 b east)] else []) ++
    (if outOfRange (at4 b west) 180 then [WestOutOfRange (at4 b west)] else []) ++
    (if outOfRange (at4 b north) 90 then [NorthOutOfRange (at4 b north)] else []) ++
    (if outOfRange (at4 b south) 90 then [SouthOutOfRange (at4 b south)] else []) ++
    (if at4 b north <? at4 b south then [NorthBelowSouth (at4 b north) (at4 b south)] else []) in
  if (totWidth <=? tWidthSum st)%Z then
    {| tbox := set4 (set4 b north (at4 b south)) west (at4 box west);
       tWidthSum := 0;
       reported := reported st ++ errs |}
  else
    {| tbox := set4 b west (at4 b east);
       tWidthSum := tWidthSum st;
       reported := reported st ++ errs |}.

Definition deltaTInit (box : box4 F) : deltaState :=
  {| tbox := set4 (set4 (Box (ofInt 0) (ofInt 0) (ofInt 0) (ofInt 0)) north (at4 box north))
                  west (at4 box west);
     tWidthSum := 0;
     reported := [] |}.

(** The state after [k] passes, and the test itself: 100 passes. *)
Definition deltaTRun (k : nat) (tileWidth tileHeight : Z) (box : box4 F)
           (totWidth totHeight : Z) : deltaState :=
  Nat.iter k (deltaTStep tileWidth tileHeight box totWidth totHeight) (deltaTInit box).

Definition deltaT (tileWidth tileHeight : Z) (box : box4 F) (totWidth totHeight : Z)
  : list testError :=
  reported (deltaTRun 100 tileWidth tileHeight box totWidth totHeight).

End DeltaTest.

Arguments testError F : clear implicits.
Arguments deltaState F : clear implicits.

(** ** Definitions the statements use *)

(** The first separator of [s]: what precedes it and what follows. *)
Fixpoint cutFirst (s : string) (sep : ascii) : option (string * string) :=
  match s with
  | EmptyString => None
  | String c s' =>
      if Ascii.eqb c sep then Some (EmptyString, s')
      else match cutFirst s' sep with
           | Some (p, t) => Some (String c p, t)
           | None => None
           end
  end.

(** The first two dot-separated segments of [s], rejoined with a dot. *)
Definition firstTwoSegments (s : string) : string :=
  Join (firstn 2 (Split s ".")) ".".

(** The four coordinate fields of a file name split at underscores, the
    last one without its extension. *)
Definition coordFields (c : list string) : list string :=
  [nth 1 c EmptyString; nth 2 c EmptyString; nth 3 c EmptyString;
   firstTwoSegments (nth 4 c EmptyString)].

(** How many times [c] occurs in [s]. *)
Fixpoint count (c : ascii) (s : string) : nat :=
  match s with
  | EmptyString => 0
  | String c' s' => (if Ascii.eqb c' c then 1 else 0) + count c s'
  end.

Definition isLetter (c : ascii) : bool :=
  let n := nat_of_ascii c in
  (((65 <=? n) && (n <=? 90)) || ((97 <=? n) && (n <=? 122)))%nat.

Definition allOf (p : ascii -> bool) (s : string) : bool :=
  forallb p (list_ascii_of_string s).

(** A whole number in decimal: an optional sign and at least one digit. *)
Definition wholeNumber (s : string) : bool :=
  let '(_, ds) := Scan.sign s in
  negb (String.eqb ds EmptyString) && allOf Scan.isDigit ds.

(** strconv.Itoa: [z] in decimal. *)
Definition Itoa (z : Z) : string := NilZero.string_of_int (Z.to_int z).

(** The number the decimal digits [d] stand for after [acc]. *)
Fixpoint uval (d : Decimal.uint) (acc : Z) : Z :=
  match d with
  | Decimal.Nil => acc
  | Decimal.D0 l => uval l (10 * acc)
  | Decimal.D1 l => uval l (10 * acc + 1)
  | Decimal.D2 l => uval l (10 * acc + 2)
  | Decimal.D3 l => uval l (10 * acc + 3)
  | Decimal.D4 l => uval l (10 * acc + 4)
  | Decimal.D5 l => uval l (10 * acc + 5)
  | Decimal.D6 l => uval l (10 * acc + 6)
  | Decimal.D7 l => uval l (10 * acc + 7)
  | Decimal.D8 l => uval l (10 * acc + 8)
  | Decimal.D9 l => uval l (10 * acc + 9)
  end.

(** Whether [t2] is laid out next to [t1]: in the same row at its east
    edge, or at the start of the row below it. *)
Definition follows {F : Type} `{Float64 F} (fixedMap t1 t2 : mapTile F) : Prop :=
  (at4 (box t2) north = at4 (box t1) north /\
   at4 (box t2) west = normEasting (at4 (box t1) east)) \/
  (at4 (box t2) north = at4 (box t1) south /\
   at4 (box t2) west = normEasting (at4 (box fixedMap) west)).

(** A full map the tile loop can start from, on doubles: a positive
    pixel size, finite coordinates, and -90 <= south <= north <= 90;
    [zn] and [zw] are its north and west in units of [2^-1074]. *)
Record goodMap (fullMap : mapTile float) (zn zw : Z) : Prop := {
  gm_width : 0 < width fullMap < 2 ^ 63;
  gm_height : 0 < height fullMap < 2 ^ 63;
  gm_north : B64.scaled (at4 (box fullMap) north) = Some zn;
  gm_south : exists zs, B64.scaled (at4 (box fullMap) south) = Some zs /\
                        - Rounding.K90 <= zs /\ zs <= zn /\ zn <= Rounding.K90;
  gm_east : exists ze, B64.scaled (at4 (box fullMap) east) = Some ze;
  gm_west : B64.scaled (at4 (box fullMap) west) = Some zw
}.

(** A tile placed in order, on doubles: its north between the equator
    and the full map's north, its south no further north than its
    north, its west within [-180, 180] and its east no further west
    than its west, the south and the east finite. *)
Definition wellPlaced (fullMap tile : mapTile float) : Prop :=
  PrimFloat.leb 0 (at4 (box tile) north) = true /\
  PrimFloat.leb (at4 (box tile) north) (at4 (box fullMap) north) = true /\
  PrimFloat.leb (at4 (box tile) south) (at4 (box tile) north) = true /\
  PrimFloat.leb (-180) (at4 (box tile) west) = true /\
  PrimFloat.leb (at4 (box tile) west) 180 = true /\
  PrimFloat.leb (at4 (box tile) west) (at4 (box tile) east) = true /\
  B64.value (at4 (box tile) south) <> None /\
  B64.value (at4 (box tile) east) <> None.

(** ** Fixtures: what [identify] answers *)

(** Every file exists; the full map and its resized copy are
    [big] x [big] pixels and every file under [tiles/] is
    [small] x [small]. *)
Definition uniformTiles (big small : string) : world := {|
  stat := fun _ => true;
  identify := fun f =>
    if String.prefix "tiles/" f then Some (small ++ " " ++ small)%string
    else Some (big ++ " " ++ big)%string
|}.

(** [tiles/t_NNN.jpg], as [convert +adjoin] numbers the tiles. *)
Definition tileName (n : nat) : string :=
  let d k := String (ascii_of_nat (48 + k mod 10)) EmptyString in
  ("tiles/t_" ++ d (n / 100)%nat ++ d (n / 10)%nat ++ d n ++ ".jpg")%string.

Definition tileNames (n : nat) : list string := map tileName (seq 0 n).

(** * Properties *)

(** ** The library models on their documented cases *)

Example Mod_cases :
  (B64.Mod 725 360 = 5 /\ B64.Mod (-725) 360 = -5 /\ B64.Mod 5.5 2 = 1.5 /\
   B64.Mod (-0) 360 = -0 /\ B64.Mod 7 infinity = 7 /\
   B64.Mod infinity 360 = nan /\ B64.Mod 7 0 = nan /\ B64.Mod nan 360 = nan /\
   B64.Mod 7 nan = nan)%float.
Proof. repeat apply conj; vm_compute; reflexivity. Qed.

Example ParseFloat_cases :
  map B64.ParseFloat
      ["49.470628"; "-122.9811"; "1e3"; ".5"; "5."; "-0"; "9007199254740993";
       "4.9e-324"; "1e-400"; "1.7976931348623157e308"]%string
  = [Some 49.470628; Some (-122.9811); Some 1000; Some 0.5; Some 5; Some (-0);
     Some 9007199254740992; Some 0x1p-1074; Some 0; Some 0x1.fffffffffffffp1023]%float /\
  map B64.ParseFloat ["NaN"; "+Inf"; "-infinity"]%string
  = [Some nan; Some infinity; Some neg_infinity] /\
  map B64.ParseFloat [""; "."; "1e"; "12a"; "-122.jpg"; "1e999"; "+nan"; " 1"]%string
  = [None; None; None; None; None; None; None; None].
Proof. repeat apply conj; vm_compute; reflexivity. Qed.

Example Atoi_cases :
  map Scan.Atoi ["1024"; "-7"; "+3"; ""; "12a"; "9223372036854775808"]%string
  = [(1024, false); (-7, false); (3, false); (0, true); (0, true);
     (9223372036854775807, true)].
Proof. vm_compute. reflexivity. Qed.

Example Split_cases :
  Split "a_b__c" "_" = ["a"; "b"; ""; "c"]%string /\
  Split "" "_" = [""]%string /\
  SplitN "-122.9811.jpg" "." 3 = ["-122"; "9811"; "jpg"]%string /\
  SplitN "a.b.c.d" "." 3 = ["a"; "b"; "c.d"]%string /\
  SplitN "a.b" "." 3 = ["a"; "b"]%string.
Proof. repeat apply conj; reflexivity. Qed.

Example Base_cases :
  filepath.Base "/maps/Grouse-Mountain" = "Grouse-Mountain"%string /\
  filepath.Base "Grouse-Mountain" = "Grouse-Mountain"%string /\
  filepath.Base "a/b//" = "b"%string /\
  filepath.Base "" = "."%string /\
  filepath.Base "///" = "/"%string.
Proof. repeat apply conj; reflexivity. Qed.

(** ** Binary64 comparisons *)

Module B64Facts.

Lemma SFcompare_antisym (x y : spec_float) :
  SFcompare y x = option_map CompOpp (SFcompare x y).
Proof.
  destruct x as [sx| sx| |sx mx ex], y as [sy| sy| |sy my ey]; simpl;
    try reflexivity;
    try (destruct sx; reflexivity); try (destruct sy; reflexivity);
    try (destruct sx, sy; reflexivity).
  pose proof (Pos.compare_cont_antisym mx my Eq) as A. simpl in A.
  destruct sx, sy; simpl; try reflexivity;
    rewrite (Z.compare_antisym ex ey); destruct (ex ?= ey)%Z; simpl;
    try reflexivity; rewrite <- A; try reflexivity;
    now destruct (Pos.compare_cont Eq mx my).
Qed.

(** [a < b] excludes [b <= a]. *)
Lemma ltb_not_leb (a b : float) : PrimFloat.ltb a b = true -> PrimFloat.leb b a = false.
Proof.
  rewrite ltb_spec, leb_spec. unfold SFltb, SFleb.
  rewrite (SFcompare_antisym (Prim2SF a) (Prim2SF b)).
  destruct (SFcompare (Prim2SF a) (Prim2SF b)) as [[]|]; simpl; congruence.
Qed.

Lemma leb_not_ltb (a b : float) : PrimFloat.leb a b = true -> PrimFloat.ltb b a = false.
Proof.
  intros Hle. destruct (PrimFloat.ltb b a) eqn:Hlt; [|reflexivity].
  apply ltb_not_leb in Hlt. congruence.
Qed.

Lemma ltb_leb (a b : float) : PrimFloat.ltb a b = true -> PrimFloat.leb a b = true.
Proof.
  rewrite ltb_spec, leb_spec. unfold SFltb, SFleb.
  destruct (SFcompare (Prim2SF a) (Prim2SF b)) as [[]|]; congruence.
Qed.

(** Neither [a < b] nor [b <= a]: one of the two is not a number. *)
Lemma unordered_nan (a b : float) :
  PrimFloat.ltb a b = false -> PrimFloat.leb b a = false ->
  Prim2SF a = S754_nan \/ Prim2SF b = S754_nan.
Proof.
  rewrite ltb_spec, leb_spec. unfold SFltb, SFleb.
  rewrite (SFcompare_antisym (Prim2SF a) (Prim2SF b)).
  destruct (Prim2SF a) as [sx| sx| |sx mx ex] eqn:Ea,
           (Prim2SF b) as [sy| sy| |sy my ey] eqn:Eb; auto;
    destruct (SFcompare _ _) as [[]|] eqn:Ec; simpl; try congruence;
    simpl in Ec; try discriminate.
Qed.

Lemma is_nan_of_spec (a : float) : Prim2SF a = S754_nan -> a = nan.
Proof.
  intros E. rewrite <- (SF2Prim_Prim2SF a), E. reflexivity.
Qed.

Lemma sub_nan_l (b : float) : PrimFloat.sub nan b = nan.
Proof.
  apply is_nan_of_spec. rewrite sub_spec. reflexivity.
Qed.

Lemma sub_nan_r (a : float) : PrimFloat.sub a nan = nan.
Proof.
  apply is_nan_of_spec. rewrite sub_spec.
  change (Prim2SF nan) with S754_nan.
  unfold SF64sub, SFsub. now destruct (Prim2SF a).
Qed.

Lemma add_nan_r (a : float) : PrimFloat.add a nan = nan.
Proof.
  apply is_nan_of_spec. rewrite add_spec.
  change (Prim2SF nan) with S754_nan.
  unfold SF64add, SFadd. now destruct (Prim2SF a).
Qed.

End B64Facts.

(** ** The two copies of [imageWxH] *)

(** C9.  The copy of [imageWxH] in the earlier [cmd/kmz.go] is not equal
    to the one the tile loop uses: on the output "3 5" of [identify] the
    current one returns width 3 and height 5 and the earlier one returns
    width 3 and height 3, because it converts the first token twice. *)
Theorem imageWxH_old_copy_differs :
  let wd := {| stat := fun _ => true; identify := fun _ => Some "3 5"%string |} in
  imageWxH wd "map.jpg" = (3, 5, None) /\
  Old.imageWxH wd "map.jpg" = (3, 3, None).
Proof. split; reflexivity. Qed.

(** On every output the earlier copy accepts, it reports the width as
    the height. *)
Lemma old_imageWxH_square (b : string) (w h : Z) :
  Old.parseWxH b = (w, h, None) -> h = w.
Proof.
  unfold Old.parseWxH.
  destruct (negb (List.length (Split b " ") =? 2)%nat); [discriminate|].
  destruct (Scan.Atoi (nth 0 (Split b " ") EmptyString)) as [v e].
  destruct e; [discriminate|]. intros E. injection E as <- <-. reflexivity.
Qed.

(** ** [NewMapTile] *)

Section Constructor.

Context {F : Type} `{Float64 F}.
Local Open Scope f64_scope.

Lemma NewMapTile_panics_iff (fp : string) (wid high : Z) (n s e w : F) :
  panics (NewMapTile fp wid high n s e w) = true <->
  (n <? s) = true \/ (n >? ofInt 90) = true \/ (s <? ofInt (-90)) = true.
Proof.
  unfold NewMapTile.
  destruct (n >? ofInt 90) eqn:E1, (s <? ofInt (-90)) eqn:E2, (n <? s) eqn:E3;
    simpl; intuition congruence.
Qed.

Lemma NewMapTile_ret (fp : string) (wid high : Z) (n s e w : F) (t : mapTile F) :
  NewMapTile fp wid high n s e w = Ret t ->
  t = {| fpath := fp; width := wid; height := high;
         box := Box n s (normEasting e) (normEasting w) |}.
Proof.
  unfold NewMapTile.
  destruct ((n >? ofInt 90) || (s <? ofInt (-90)) || (n <? s)); [discriminate|].
  now intros [= <-].
Qed.

End Constructor.

(** C6, as the code has it.  [NewMapTile] panics exactly when
    north < south, or north > 90, or south < -90, whatever the number
    model; on doubles a box of equal north and south is accepted, so is
    a box touching both poles, and north=49.4, south=60 and north=91,
    south=0 are rejected. *)
Theorem NewMapTile_panics_exactly :
  (forall (F : Type) (ops : Float64 F) (fp : string) (wid high : Z) (n s e w : F),
      panics (NewMapTile fp wid high n s e w) = true <->
      flt n s = true \/ flt (ofInt 90) n = true \/ flt s (ofInt (-90)) = true) /\
  panics (NewMapTile "m.jpg" 1 1 10 10 0 0)%float = false /\
  panics (NewMapTile "m.jpg" 1 1 90 (-90) 0 0)%float = false /\
  panics (NewMapTile "m.jpg" 1 1 49.4 60 0 0)%float = true /\
  panics (NewMapTile "m.jpg" 1 1 91 0 0 0)%float = true.
Proof.
  split; [intros; apply NewMapTile_panics_iff|].
  repeat apply conj; vm_compute; reflexivity.
Qed.

(** C6, as the claim words it, fails: with north = south = 10 the
    condition north <= south holds and the constructor does not panic. *)
Lemma NewMapTile_equal_latitudes_accepted :
  ~ (forall n s : float,
        panics (NewMapTile "m.jpg" 1 1 n s 0 0)%float = true <->
        fle n s = true \/ flt 90%float n = true \/ flt s (-90)%float = true).
Proof.
  intros claim. destruct (claim 10%float 10%float) as [_ back].
  assert (E : panics (NewMapTile "m.jpg" 1 1 10 10 0 0)%float = true)
    by (apply back; left; vm_compute; reflexivity).
  vm_compute in E. discriminate.
Qed.

(** ** [finishTileBox] *)

(** C2.  [finishTileBox] stores the tile's south and east and nothing
    else: south = north - (height/fullHeight) * (fullNorth - fullSouth),
    east = west + (width/fullWidth) * eastDelta(fullEast, fullWest);
    north, west, path and pixel size are kept, and the stored east is
    the sum itself, which on doubles can exceed 180 (170 + 20 = 190 for
    a tile as wide as the antimeridian box east=-170, west=170). *)
Theorem finishTileBox_sets_south_and_east :
  (forall (F : Type) (ops : Float64 F) (tile fullMap : mapTile F),
      let t := finishTileBox tile fullMap in
      let nsDeltaDeg :=
        fmul (fdiv (ofInt (height tile)) (ofInt (height fullMap)))
             (fsub (at4 (box fullMap) north) (at4 (box fullMap) south)) in
      let ewDeltaDeg :=
        fmul (fdiv (ofInt (width tile)) (ofInt (width fullMap)))
             (eastDelta (at4 (box fullMap) east) (at4 (box fullMap) west)) in
      at4 (box t) south = fsub (at4 (box tile) north) nsDeltaDeg /\
      at4 (box t) east = fadd (at4 (box tile) west) ewDeltaDeg /\
      at4 (box t) north = at4 (box tile) north /\
      at4 (box t) west = at4 (box tile) west /\
      fpath t = fpath tile /\ width t = width tile /\ height t = height tile) /\
  (let fullMap := {| fpath := "fixed.jpg"; width := 10000; height := 10000;
                     box := Box 50 40 (-170) 170 |} in
   let tile := {| fpath := "tiles/t_009.jpg"; width := 10000; height := 1000;
                  box := Box 50 0 0 170 |} in
   at4 (box (finishTileBox tile fullMap)) east = 190 /\
   flt 180 (at4 (box (finishTileBox tile fullMap)) east) = true /\
   normEasting (at4 (box (finishTileBox tile fullMap)) east) = (-170))%float.
Proof.
  split.
  - intros F ops [fp w h [bn bs be bw]] [fp' w' h' [bn' bs' be' bw']]. simpl.
    repeat split.
  - repeat apply conj; vm_compute; reflexivity.
Qed.

(** ** The tile loop *)

(** C7.  A 10000 x 10000 map with box north=50, south=40, east=10,
    west=0, chopped into 100 tiles of 1000 x 1000: the loop writes 100
    boxes and the last one has south 40 and east 10, on doubles exactly
    and so within any tolerance. *)
Theorem walk_10x10_ends_at_south_east_corner :
  exists (fixedMap : mapTile float) (tiles : list (mapTile float)) (last : mapTile float),
    (NewMapTile "fixed.jpg" 10000 10000 50 40 10 0)%float = Ret fixedMap /\
    layoutTiles (uniformTiles "10000" "1000") fixedMap (tileNames 100) = Ret (Ok tiles) /\
    List.length tiles = 100%nat /\
    nth_error tiles 99 = Some last /\
    at4 (box last) south = 40%float /\
    at4 (box last) east = 10%float /\
    PrimFloat.leb (abs (at4 (box last) south - 40)) 1e-9 = true /\
    PrimFloat.leb (abs (at4 (box last) east - 10)) 1e-9 = true.
Proof.
  eexists _, _, _.
  split; [vm_compute; reflexivity|].
  split; [vm_compute; reflexivity|].
  repeat apply conj; vm_compute; reflexivity.
Qed.

Section Walk.

Context {F : Type} `{Float64 F}.
Local Open Scope f64_scope.

(** A row that starts south of the equator cannot be laid out: the
    loop builds each tile with south 0, and the constructor refuses
    north < south. *)
Lemma tileStep_panics_south_of_equator
      (wd : world) (fixedMap : mapTile F) (st : walk F) (tf : string) (w h : Z) :
  imageWxH wd tf = (w, h, None) ->
  (currNorth st <? ofInt 0) = true ->
  tileStep wd fixedMap st tf = Panic poleMsg.
Proof.
  intros Hdim Hn. unfold tileStep, NewMapTileFromFile, NewMapTile.
  rewrite Hdim, Hn, !orb_true_r. reflexivity.
Qed.

(** A pass that lays a tile out: the row starts between the equator
    and the north pole, the tile is anchored at the current north and
    at the normalized current west, and the next tile starts either at
    this tile's east edge, in the same row, or below this tile's south
    edge at the full map's west. *)
Lemma tileStep_lays_out
      (wd : world) (fixedMap : mapTile F) (st st' : walk F) (tf : string) (tile : mapTile F) :
  tileStep wd fixedMap st tf = Ret (Ok (tile, st')) ->
  (currNorth st <? ofInt 0) = false /\ (currNorth st >? ofInt 90) = false /\
  at4 (box tile) north = currNorth st /\
  at4 (box tile) west = normEasting (currWest st) /\
  (((width fixedMap <=? wrap64 (widthSum st + width tile))%Z = true /\
    widthSum st' = 0%Z /\
    currNorth st' = at4 (box tile) south /\
    currWest st' = at4 (box fixedMap) west) \/
   ((width fixedMap <=? wrap64 (widthSum st + width tile))%Z = false /\
    widthSum st' = wrap64 (widthSum st + width tile) /\
    currNorth st' = currNorth st /\
    currWest st' = at4 (box tile) east)).
Proof.
  unfold tileStep, NewMapTileFromFile, NewMapTile.
  destruct (imageWxH wd tf) as [[w h] [err|]]; [discriminate|].
  destruct (currNorth st >? ofInt 90) eqn:E1; [discriminate|].
  destruct (ofInt 0 <? ofInt (-90)) eqn:E2; [discriminate|].
  destruct (currNorth st <? ofInt 0) eqn:E3; [discriminate|].
  cbn [orb bind]. unfold finishTileBox, delta. cbn [width height box fpath].
  destruct (width fixedMap <=? wrap64 (widthSum st + w))%Z eqn:E4;
    intros [= <- <-]; cbn; rewrite E4; repeat split; auto.
Qed.

End Walk.

(** C1, at a box of the repository's own TestDelta.  For the
    10000 x 10000 map with box north=-50, south=-60, east=10, west=0,
    which [getBox] and [NewMapTile] accept, and its 100 tiles of
    1000 x 1000, the loop panics at the first tile and writes no box. *)
Theorem walk_panics_on_southern_box :
  exists fixedMap : mapTile float,
    (NewMapTile "fixed.jpg" 10000 10000 (-50) (-60) 10 0)%float = Ret fixedMap /\
    layoutTiles (uniformTiles "10000" "1000") fixedMap (tileNames 100) = Panic poleMsg /\
    process (uniformTiles "10000" "1000") "/maps/south_-50_-60_10_0.0.jpg"
                 "fixed.jpg" (tileNames 100)
    = (Panic poleMsg : outcome (result (list (mapTile float)))).
Proof.
  eexists. split; [vm_compute; reflexivity|].
  split; vm_compute; reflexivity.
Qed.

(** ** [strings.Split] and [strings.SplitN] *)

Lemma cutFirst_app (s : string) (sep : ascii) (p t : string) :
  cutFirst s sep = Some (p, t) -> s = (p ++ String sep t)%string.
Proof.
  revert p t. induction s as [|c s IH]; intros p t; simpl; [discriminate|].
  destruct (Ascii.eqb_spec c sep) as [->|_].
  - now intros [= <- <-].
  - destruct (cutFirst s sep) as [[p' t']|]; [|discriminate].
    intros [= <- <-]. simpl. now rewrite (IH p' t').
Qed.

Lemma Split_cut (s : string) (sep : ascii) :
  Split s sep = match cutFirst s sep with
                | Some (p, t) => p :: Split t sep
                | None => [s]
                end.
Proof.
  induction s as [|c s IH]; simpl; [reflexivity|].
  destruct (Ascii.eqb c sep); [reflexivity|].
  rewrite IH. now destruct (cutFirst s sep) as [[p t]|].
Qed.

Lemma SplitN_one (s : string) (sep : ascii) : SplitN s sep 1 = [s].
Proof. now destruct s. Qed.

Lemma SplitN_cut (s : string) (sep : ascii) (n : nat) :
  SplitN s sep (S (S n)) = match cutFirst s sep with
                           | Some (p, t) => p :: SplitN t sep (S n)
                           | None => [s]
                           end.
Proof.
  induction s as [|c s IH]; [reflexivity|].
  cbn [SplitN]. simpl cutFirst. destruct (Ascii.eqb c sep); [reflexivity|].
  rewrite IH. now destruct (cutFirst s sep) as [[p t]|].
Qed.

(** What [getBox] does to the last field, [SplitN] into at most three
    pieces and the first two rejoined when there are three, keeps the
    first two dot-separated segments. *)
Lemma stripExt_firstTwoSegments (s : string) : stripExt s = firstTwoSegments s.
Proof.
  unfold stripExt, firstTwoSegments.
  rewrite SplitN_cut, (Split_cut s).
  destruct (cutFirst s ".") as [[p t]|] eqn:E1; [|reflexivity].
  rewrite SplitN_cut, (Split_cut t).
  destruct (cutFirst t ".") as [[p' t']|] eqn:E2.
  - now rewrite SplitN_one.
  - simpl. apply cutFirst_app in E1. now rewrite E1.
Qed.

(** ** [getBox] *)

Section Parser.

Context {F : Type} `{Float64 F}.
Local Open Scope f64_scope.

(** The loop over the four fields, all at once. *)
Lemma getBoxFields_all (c : list string) :
  getBoxFields c [1; 2; 3; 4]%nat [] =
  match map ParseFloat (coordFields c) with
  | [Some n; Some s; Some e; Some w] => Some [n; s; e; w]
  | _ => None
  end.
Proof.
  unfold coordFields. simpl. rewrite stripExt_firstTwoSegments.
  destruct (ParseFloat (nth 1 c EmptyString)); [|reflexivity].
  destruct (ParseFloat (nth 2 c EmptyString)); [|reflexivity].
  destruct (ParseFloat (nth 3 c EmptyString)); [|reflexivity].
  destruct (ParseFloat (firstTwoSegments (nth 4 c EmptyString))); reflexivity.
Qed.

Lemma getBox_fails_iff (image : string) :
  let c := Split image "_" in
  snd (getBox image) <> None <->
  List.length c <> 5%nat \/
  (exists f, In f (coordFields c) /\ ParseFloat f = None) \/
  (exists n s e w,
      map ParseFloat (coordFields c) = [Some n; Some s; Some e; Some w] /\
      ((n <=? s) = true \/ (n >? ofInt 90) = true \/ (s <? ofInt (-90)) = true)).
Proof.
  intros c. unfold getBox. fold c.
  destruct (Nat.eqb_spec (List.length c) 5) as [Hlen|Hlen]; cbn [negb].
  2:{ simpl. split; [now left | discriminate]. }
  rewrite getBoxFields_all. unfold coordFields.
  set (f1 := nth 1 c EmptyString). set (f2 := nth 2 c EmptyString).
  set (f3 := nth 3 c EmptyString).
  set (f4 := firstTwoSegments (nth 4 c EmptyString)).
  cbn [map In].
  destruct (ParseFloat f1) as [n|] eqn:E1.
  2:{ split; [|discriminate]. intros _. right; left. exists f1. auto. }
  destruct (ParseFloat f2) as [s|] eqn:E2.
  2:{ split; [|discriminate]. intros _. right; left. exists f2. auto. }
  destruct (ParseFloat f3) as [e|] eqn:E3.
  2:{ split; [|discriminate]. intros _. right; left. exists f3. auto. }
  destruct (ParseFloat f4) as [w|] eqn:E4.
  2:{ split; [|discriminate]. intros _. right; left. exists f4. auto 6. }
  unfold at_; cbn [nth slot].
  destruct (n <=? s) eqn:C1, (n >? ofInt 90) eqn:C2, (s <? ofInt (-90)) eqn:C3; simpl;
    (split;
     [ intros Herr; try (now elim Herr); right; right; exists n, s, e, w; auto
     | intros [Hl | [(f & Hin & Hf) | (n' & s' & e' & w' & Heq & Hc)]];
       [ contradiction
       | destruct Hin as [<-|[<-|[<-|[<-|[]]]]]; congruence
       | injection Heq as <- <- <- <-; try discriminate;
         destruct Hc as [Hc|[Hc|Hc]]; congruence ] ]).
Qed.

(** What an accepted name returns: the base name of the first piece
    and the four fields as parsed. *)
Lemma getBox_accepts (image base : string) (box : list F) :
  getBox image = (base, box, None) ->
  base = filepath.Base (nth 0 (Split image "_") EmptyString) /\
  exists n s e w,
    map ParseFloat (coordFields (Split image "_")) = [Some n; Some s; Some e; Some w] /\
    box = [n; s; e; w] /\
    (n <=? s) = false /\ (n >? ofInt 90) = false /\ (s <? ofInt (-90)) = false.
Proof.
  unfold getBox. set (c := Split image "_").
  destruct (negb (List.length c =? 5)%nat); [discriminate|].
  rewrite getBoxFields_all.
  destruct (map ParseFloat (coordFields c)) as [|[n|] [|[s|] [|[e|] [|[w|] [|]]]]];
    try discriminate.
  unfold at_; cbn [nth slot].
  destruct (n <=? s) eqn:C1, (n >? ofInt 90) eqn:C2, (s <? ofInt (-90)) eqn:C3; simpl;
    try discriminate.
  intros [= <- <-]. split; [reflexivity|]. exists n, s, e, w. auto.
Qed.

End Parser.

(** C5.  [getBox] returns an error exactly when the name does not
    split at underscores into five pieces, or one of the four
    coordinate fields (the last cut down to its first two dot-separated
    segments) does not parse as a float, or north <= south, or
    north > 90, or south < -90.  On doubles the reversed
    Grouse-Mountain name is refused and the one in north, south order
    returns the name and the four coordinates. *)
Theorem getBox_fails_exactly :
  (forall (F : Type) (ops : Float64 F) (image : string),
      let c := Split image "_" in
      snd (getBox image) <> None <->
      List.length c <> 5%nat \/
      (exists f, In f (coordFields c) /\ ParseFloat f = None) \/
      (exists n s e w : F,
          map ParseFloat (coordFields c) = [Some n; Some s; Some e; Some w] /\
          (fle n s = true \/ flt (ofInt 90) n = true \/ flt s (ofInt (-90)) = true))) /\
  snd (getBox "Grouse-Mountain_49.336694_49.470628_-123.132056_-122.9811.jpg"
       : string * list float * option string) <> None /\
  getBox "Grouse-Mountain_49.470628_49.336694_-123.132056_-122.9811.jpg"
  = ("Grouse-Mountain"%string,
     [49.470628; 49.336694; -123.132056; -122.9811]%float, None).
Proof.
  split; [intros F ops image; apply getBox_fails_iff|].
  split; [vm_compute; discriminate | vm_compute; reflexivity].
Qed.

(** C8, as the code has it.  For an accepted name [getBox] returns the
    base name of the first underscore-separated piece and the four
    fields as [ParseFloat] gave them, east and west included; a map
    tile built from them by [NewMapTile] holds the normalized east and
    west. *)
Theorem getBox_returns_parsed_fields
        (F : Type) (ops : Float64 F) (image base : string) (coords : list F) :
  getBox image = (base, coords, None) ->
  base = filepath.Base (nth 0 (Split image "_") EmptyString) /\
  exists n s e w : F,
    map ParseFloat (coordFields (Split image "_")) = [Some n; Some s; Some e; Some w] /\
    coords = [n; s; e; w] /\
    forall (fp : string) (wid high : Z) (t : mapTile F),
      NewMapTile fp wid high (at_ coords north) (at_ coords south)
                 (at_ coords east) (at_ coords west) = Ret t ->
      at4 (box t) north = n /\ at4 (box t) south = s /\
      at4 (box t) east = normEasting e /\ at4 (box t) west = normEasting w.
Proof.
  intros Hget. apply getBox_accepts in Hget as (Hbase & n & s & e & w & Hp & -> & _).
  split; [exact Hbase|]. exists n, s, e, w. repeat split; trivial;
    apply NewMapTile_ret in H; subst t; reflexivity.
Qed.

Lemma getBox_returns_parsed_fields_witness :
  let image := "/maps/m_50_40_190_170.0.jpg"%string in
  let coords := [50; 40; 190; 170]%float in
  "m"%string = filepath.Base (nth 0 (Split image "_") EmptyString) /\
  exists n s e w : float,
    map ParseFloat (coordFields (Split image "_")) = [Some n; Some s; Some e; Some w] /\
    coords = [n; s; e; w] /\
    forall (fp : string) (wid high : Z) (t : mapTile float),
      NewMapTile fp wid high (at_ coords north) (at_ coords south)
                 (at_ coords east) (at_ coords west) = Ret t ->
      at4 (box t) north = n /\ at4 (box t) south = s /\
      at4 (box t) east = normEasting e /\ at4 (box t) west = normEasting w.
Proof.
  apply (getBox_returns_parsed_fields float b64 "/maps/m_50_40_190_170.0.jpg").
  vm_compute. reflexivity.
Defined.

(** C8, as the claim words it, fails: ["m_50_40_190_170.0.jpg"] is
    accepted and the east it returns is the parsed 190, while
    normEasting(190) is -170. *)
Lemma getBox_east_not_normalized :
  ~ (forall (image base : string) (coords : list float),
        getBox image = (base, coords, None) ->
        exists e w : float,
          ParseFloat (nth 3 (Split image "_") EmptyString) = Some e /\
          ParseFloat (firstTwoSegments (nth 4 (Split image "_") EmptyString)) = Some w /\
          at_ coords east = normEasting e /\ at_ coords west = normEasting w).
Proof.
  intros claim.
  destruct (claim "m_50_40_190_170.0.jpg"%string "m"%string [50; 40; 190; 170]%float)
    as (e & w & He & _ & Heast & _); [vm_compute; reflexivity|].
  vm_compute in He. injection He as <-.
  apply (f_equal (fun x => PrimFloat.ltb x 0)) in Heast.
  vm_compute in Heast. discriminate.
Qed.

(** ** Exact arithmetic: [normEasting] and [eastDelta] on the rationals *)

Module ExactFacts.

Local Open Scope Q_scope.

Lemma inject_Z_zero (z : Z) : inject_Z z == 0 -> z = 0%Z.
Proof. unfold Qeq. simpl. lia. Qed.

Lemma trunc_floor (q : Q) : 0 <= q -> Exact.trunc q = Qfloor q.
Proof.
  destruct q as [n d]. unfold Qle, Exact.trunc, Qfloor. simpl. intros Hn.
  apply Z.quot_div_nonneg; lia.
Qed.

Lemma trunc_ceiling (q : Q) : q <= 0 -> Exact.trunc q = Qceiling q.
Proof.
  destruct q as [n d]. unfold Qle, Exact.trunc, Qceiling, Qfloor. simpl. intros Hn.
  rewrite <- (Z.opp_involutive n) at 1. rewrite Z.quot_opp_l by lia.
  f_equal. apply Z.quot_div_nonneg; lia.
Qed.

(** Truncation moves toward zero by less than one. *)
Lemma trunc_nonneg (q : Q) :
  0 <= q -> inject_Z (Exact.trunc q) <= q /\ q < inject_Z (Exact.trunc q) + 1.
Proof.
  intros Hq. rewrite (trunc_floor q Hq). split; [apply Qfloor_le|].
  pose proof (Qlt_floor q) as L. rewrite inject_Z_plus in L. exact L.
Qed.

Lemma trunc_nonpos (q : Q) :
  q <= 0 -> q <= inject_Z (Exact.trunc q) /\ inject_Z (Exact.trunc q) - 1 < q.
Proof.
  intros Hq. rewrite (trunc_ceiling q Hq). split; [apply Qle_ceiling|].
  pose proof (Qceiling_lt q) as L. unfold Z.sub in L. rewrite inject_Z_plus in L. exact L.
Qed.

Lemma Mod360_eq (x : Q) :
  Exact.Mod x (inject_Z 360) == x - 360 * inject_Z (Exact.trunc (x / 360)).
Proof. reflexivity. Qed.

Lemma Mod360_nonneg (x : Q) :
  0 <= x -> 0 <= Exact.Mod x (inject_Z 360) /\ Exact.Mod x (inject_Z 360) < 360.
Proof.
  intros Hx. rewrite Mod360_eq. set (t := x / 360).
  assert (Ht : x == 360 * t) by (unfold t; field). clearbody t.
  assert (H0 : 0 <= t) by lra.
  destruct (trunc_nonneg t H0) as [L U]. split; lra.
Qed.

Lemma Mod360_nonpos (x : Q) :
  x <= 0 -> - (360) < Exact.Mod x (inject_Z 360) /\ Exact.Mod x (inject_Z 360) <= 0.
Proof.
  intros Hx. rewrite Mod360_eq. set (t := x / 360).
  assert (Ht : x == 360 * t) by (unfold t; field). clearbody t.
  assert (H0 : t <= 0) by lra.
  destruct (trunc_nonpos t H0) as [L U]. split; lra.
Qed.

Lemma ltb_lt (a b : Q) : Exact.ltb a b = true <-> a < b.
Proof.
  unfold Exact.ltb. rewrite negb_true_iff, <- not_true_iff_false, Qle_bool_iff.
  split; [apply Qnot_le_lt | apply Qlt_not_le].
Qed.

Lemma ltb_ge (a b : Q) : Exact.ltb a b = false <-> b <= a.
Proof.
  unfold Exact.ltb. rewrite negb_false_iff, Qle_bool_iff. reflexivity.
Qed.

Lemma normEasting_cases (deg : Q) :
  (deg < -(180) /\ normEasting deg = Exact.Mod (deg + 180) (inject_Z 360) + 180) \/
  (180 < deg /\ normEasting deg = Exact.Mod (deg - 180) (inject_Z 360) - 180) \/
  (-(180) <= deg <= 180 /\ normEasting deg = deg).
Proof.
  unfold normEasting. simpl.
  destruct (Exact.ltb deg (inject_Z (-180))) eqn:E1.
  - left. apply ltb_lt in E1. split; [exact E1|reflexivity].
  - apply ltb_ge in E1. destruct (Exact.ltb (inject_Z 180) deg) eqn:E2.
    + right; left. apply ltb_lt in E2. split; [exact E2|reflexivity].
    + right; right. apply ltb_ge in E2. split; [split; [exact E1|exact E2]|reflexivity].
Qed.

Lemma normEasting_range (deg : Q) : -(180) <= normEasting deg <= 180.
Proof.
  destruct (normEasting_cases deg) as [[H ->]|[[H ->]|[H ->]]].
  - destruct (Mod360_nonpos (deg + 180)); lra.
  - destruct (Mod360_nonneg (deg - 180)); lra.
  - exact H.
Qed.

Lemma normEasting_congruent (deg : Q) :
  exists k : Z, normEasting deg == deg + 360 * inject_Z k.
Proof.
  destruct (normEasting_cases deg) as [[H ->]|[[H ->]|[H ->]]].
  - exists (1 - Exact.trunc ((deg + 180) / 360))%Z. rewrite Mod360_eq.
    unfold Z.sub. rewrite inject_Z_plus, inject_Z_opp. change (inject_Z 1) with 1. ring.
  - exists (- 1 - Exact.trunc ((deg - 180) / 360))%Z. rewrite Mod360_eq.
    unfold Z.sub. rewrite inject_Z_plus, !inject_Z_opp. change (inject_Z 1) with 1. ring.
  - exists 0%Z. change (inject_Z 0) with 0. ring.
Qed.

Lemma eastDelta_range (e w : Q) : 0 <= eastDelta e w <= 360.
Proof.
  unfold eastDelta. cbv zeta.
  pose proof (normEasting_range e) as He. pose proof (normEasting_range w) as Hw.
  set (e' := normEasting e) in *. set (w' := normEasting w) in *. clearbody e' w'.
  cbn [flt fadd fsub ofInt exactQ]. change (inject_Z 360) with 360.
  destruct (Exact.ltb e' w') eqn:E; [apply ltb_lt in E | apply ltb_ge in E]; lra.
Qed.

(** The difference is 0 exactly when the normalized longitudes name
    the same meridian. *)
Lemma eastDelta_zero (e w : Q) :
  eastDelta e w == 0 <->
  normEasting e == normEasting w \/ (normEasting e == -(180) /\ normEasting w == 180).
Proof.
  unfold eastDelta. cbv zeta.
  pose proof (normEasting_range e) as He. pose proof (normEasting_range w) as Hw.
  set (e' := normEasting e) in *. set (w' := normEasting w) in *. clearbody e' w'.
  cbn [flt fadd fsub ofInt exactQ]. change (inject_Z 360) with 360.
  destruct (Exact.ltb e' w') eqn:E; [apply ltb_lt in E | apply ltb_ge in E];
    (split; [intros; try (left; lra); try (right; split; lra) | intros [?|[? ?]]; lra]).
Qed.

End ExactFacts.

(** ** Doubles: [normEasting] and [eastDelta] *)

Module B64Geometry.

Import B64Facts.

Lemma ofInt_m180 : B64.ofInt (-180) = (-180)%float.
Proof. vm_compute. reflexivity. Qed.

Lemma ofInt_180 : B64.ofInt 180 = 180%float.
Proof. vm_compute. reflexivity. Qed.

Lemma ofInt_360 : B64.ofInt 360 = 360%float.
Proof. vm_compute. reflexivity. Qed.

(** A double between -180 and 180 is returned as it is. *)
Lemma normEasting_in_range (deg : float) :
  PrimFloat.leb (-180) deg = true -> PrimFloat.leb deg 180 = true ->
  normEasting deg = deg.
Proof.
  intros Hlo Hhi. unfold normEasting. cbn [flt ofInt b64].
  rewrite ofInt_m180, ofInt_180.
  now rewrite (leb_not_ltb _ _ Hlo), (leb_not_ltb _ _ Hhi).
Qed.

(** [eastDelta] by the test [e >= w] on the normalized longitudes.  The
    code tests [e < w]; the two differ only when one of them is not a
    number, and then both differences are NaN. *)
Lemma eastDelta_by_ge (e w : float) :
  eastDelta e w =
  (let e' := normEasting e in
   let w' := normEasting w in
   if PrimFloat.leb w' e' then e' - w' else 360 + e' - w')%float.
Proof.
  unfold eastDelta. cbv zeta. cbn [flt fadd fsub ofInt b64]. rewrite ofInt_360.
  set (e' := normEasting e). set (w' := normEasting w).
  destruct (PrimFloat.ltb e' w') eqn:Hlt, (PrimFloat.leb w' e') eqn:Hle; try reflexivity.
  - apply ltb_not_leb in Hlt. congruence.
  - destruct (unordered_nan _ _ Hlt Hle) as [N|N]; apply is_nan_of_spec in N; rewrite N.
    + now rewrite add_nan_r, !sub_nan_l.
    + now rewrite !sub_nan_r.
Qed.

End B64Geometry.

(** ** Doubles: rounding, and the two functions on every finite double *)

Module B64Round.

Import Rounding.

Abbreviation SFz := B64.SFz.
Abbreviation Zof := B64.scaled.

(** *** Shifting right with a round and a sticky bit *)

Lemma iter_pos_nat {A : Type} (f : A -> A) (p : positive) (x : A) :
  iter_pos f p x = Nat.iter (Pos.to_nat p) f x.
Proof.
  revert x. induction p as [p IH|p IH|]; intros x; cbn [iter_pos].
  - rewrite !IH, Pos2Nat.inj_xI, Nat.iter_succ_r.
    replace (2 * Pos.to_nat p)%nat with (Pos.to_nat p + Pos.to_nat p)%nat by lia.
    now rewrite Nat.iter_add.
  - rewrite !IH, Pos2Nat.inj_xO.
    replace (2 * Pos.to_nat p)%nat with (Pos.to_nat p + Pos.to_nat p)%nat by lia.
    now rewrite Nat.iter_add.
  - reflexivity.
Qed.

(** One step: halve, remember the bit that fell off, and whether any
    bit fell off before it. *)
Lemma shr_1_nonneg (m : Z) (r s : bool) :
  0 <= m ->
  shr_1 {| shr_m := m; shr_r := r; shr_s := s |} =
  {| shr_m := m / 2; shr_r := Z.odd m; shr_s := r || s |}.
Proof.
  intros Hm. rewrite <- Z.div2_div.
  destruct m as [|[p|p|]|p]; try reflexivity; lia.
Qed.

Lemma odd_div_pow2 (m n : Z) :
  0 <= n -> Z.odd (m / 2 ^ n) = (2 ^ n <=? m mod 2 ^ (n + 1)).
Proof.
  intros Hn. rewrite Z.pow_add_r, Z.pow_1_r by lia.
  rewrite Z.rem_mul_r by lia.
  pose proof (Z.mod_pos_bound m (2 ^ n) ltac:(lia)) as B.
  rewrite Zodd_mod. pose proof (Z.mod_pos_bound (m / 2 ^ n) 2 ltac:(lia)) as B2.
  destruct (Z.eqb_spec ((m / 2 ^ n) mod 2) 1) as [E|E].
  - rewrite E. symmetry. apply Z.leb_le. lia.
  - symmetry. apply Z.leb_gt. nia.
Qed.

Lemma mod_pow2_succ_zero (m n : Z) :
  0 <= n ->
  (m mod 2 ^ (n + 1) =? 0) = negb (2 ^ n <=? m mod 2 ^ (n + 1)) && (m mod 2 ^ n =? 0).
Proof.
  intros Hn. rewrite Z.pow_add_r, Z.pow_1_r by lia.
  rewrite Z.rem_mul_r by lia.
  pose proof (Z.mod_pos_bound m (2 ^ n) ltac:(lia)) as B.
  pose proof (Z.mod_pos_bound (m / 2 ^ n) 2 ltac:(lia)) as B2.
  set (a := m mod 2 ^ n) in *. set (h := 2 ^ n) in *.
  assert (Hb : (m / h) mod 2 = 0 \/ (m / h) mod 2 = 1) by lia.
  destruct Hb as [-> | ->]; rewrite ?Z.mul_0_r, ?Z.mul_1_r, ?Z.add_0_r;
    destruct (Z.eqb_spec a 0) as [E|E];
    destruct (Z.leb_spec h a) as [L|L]; try lia;
    try (destruct (Z.leb_spec h (a + h)) as [L'|L']; try lia);
    try (destruct (Z.eqb_spec (a + h) 0) as [Z0|Z0]; try lia);
    reflexivity.
Qed.

Lemma iter_shr_1 (m : Z) (n : nat) :
  0 <= m ->
  Nat.iter (S n) shr_1 {| shr_m := m; shr_r := false; shr_s := false |} = shifted m n.
Proof.
  intros Hm. induction n as [|n IH].
  - unfold Nat.iter. cbn [nat_rect]. rewrite shr_1_nonneg by exact Hm. unfold shifted.
    change (Z.of_nat 1) with 1. change (Z.of_nat 0) with 0.
    rewrite Z.pow_1_r, Z.pow_0_r, Z.mod_1_r. f_equal.
    rewrite Zodd_mod. pose proof (Z.mod_pos_bound m 2 ltac:(lia)).
    destruct (Z.eqb_spec (m mod 2) 1), (Z.leb_spec 1 (m mod 2)); try reflexivity; lia.
  - rewrite Nat.iter_succ, IH. unfold shifted at 1.
    rewrite shr_1_nonneg by (apply Z.div_pos; lia).
    unfold shifted. f_equal.
    + rewrite Z.div_div by lia. f_equal.
      rewrite (Nat2Z.inj_succ (S n)), Z.pow_succ_r by lia. ring.
    + rewrite (Nat2Z.inj_succ (S n)), <- Z.add_1_r. apply odd_div_pow2. lia.
    + replace (Z.of_nat (S n)) with (Z.of_nat n + 1) by lia.
      rewrite (mod_pow2_succ_zero m (Z.of_nat n)) by lia.
      destruct (2 ^ Z.of_nat n <=? m mod 2 ^ (Z.of_nat n + 1)); simpl; [reflexivity|].
      reflexivity.
Qed.

Lemma round_shifted (m : Z) (n : nat) :
  0 <= m ->
  round_nearest_even (shr_m (shifted m n)) (loc_of_shr_record (shifted m n))
  = rne m (Z.of_nat (S n)).
Proof.
  intros Hm. unfold rne, shifted, loc_of_shr_record, round_nearest_even. cbn [shr_m shr_r shr_s].
  destruct (Z.leb_spec (Z.of_nat (S n)) 0) as [L|_]; [lia|].
  replace (Z.of_nat (S n) - 1) with (Z.of_nat n) by lia.
  replace (Z.of_nat (S n)) with (Z.of_nat n + 1) by lia.
  set (half := 2 ^ Z.of_nat n).
  assert (Hh : 0 < half) by (subst half; lia).
  assert (Hr : m mod 2 ^ (Z.of_nat n + 1) = m mod half + half * ((m / half) mod 2)).
  { rewrite Z.pow_add_r, Z.pow_1_r by lia. apply Z.rem_mul_r; lia. }
  pose proof (Z.mod_pos_bound m half Hh) as B.
  pose proof (Z.mod_pos_bound (m / half) 2 ltac:(lia)) as B2.
  rewrite Hr. set (a := m mod half) in *.
  assert (Hb : (m / half) mod 2 = 0 \/ (m / half) mod 2 = 1) by lia.
  destruct Hb as [-> | ->]; rewrite ?Z.mul_0_r, ?Z.mul_1_r, ?Z.add_0_r.
  - destruct (Z.leb_spec half a) as [L|L]; [lia|].
    destruct (Z.ltb_spec a half) as [L1|L1]; [|lia].
    now destruct (Z.eqb_spec a 0).
  - destruct (Z.leb_spec half (a + half)) as [L|L]; [|lia].
    destruct (Z.ltb_spec (a + half) half) as [L1|L1]; [lia|].
    destruct (Z.eqb_spec a 0) as [E|E]; cbn [negb].
    + destruct (Z.ltb_spec half (a + half)) as [L2|L2]; [lia|]. reflexivity.
    + destruct (Z.ltb_spec half (a + half)) as [L2|L2]; [|lia]. reflexivity.
Qed.

(** *** The format: 53 bits, exponents from -1074 *)

Lemma digits2_size (p : positive) : digits2_pos p = Pos.size p.
Proof. induction p; simpl; congruence. Qed.

Lemma digits2_log2 (p : positive) : Z.pos (digits2_pos p) = Z.log2 (Z.pos p) + 1.
Proof.
  rewrite digits2_size. destruct p; simpl; try reflexivity; now rewrite Pos.add_1_r.
Qed.

Lemma fexp_eq (x : Z) : fexp prec emax x = Z.max (x - 53) (-1074).
Proof. reflexivity. Qed.

Lemma iter_xO (m d : positive) : Z.pos (Pos.iter xO m d) = Z.pos m * 2 ^ Z.pos d.
Proof.
  rewrite <- Z.shiftl_mul_pow2 by lia. unfold Z.shiftl.
  apply (Pos.iter_swap_gen _ _ Z.pos xO (Z.mul 2)). reflexivity.
Qed.

Lemma rne_exact (m n : Z) : 0 <= n -> rne (m * 2 ^ n) n = m.
Proof.
  intros Hn. unfold rne. destruct (Z.leb_spec n 0) as [L|L].
  - replace n with 0 by lia. now rewrite Z.pow_0_r, Z.mul_1_r.
  - rewrite Z.mod_mul, Z.div_mul by lia.
    destruct (Z.ltb_spec 0 (2 ^ (n - 1))) as [H|H]; [reflexivity|].
    pose proof (Z.pow_pos_nonneg 2 (n - 1)). lia.
Qed.

Lemma ltb_mul_pos (a b c : Z) : 0 < c -> (a * c <? b * c) = (a <? b).
Proof.
  intros Hc. destruct (Z.ltb_spec a b), (Z.ltb_spec (a * c) (b * c)); try reflexivity; nia.
Qed.

Lemma rne_shift (m n k : Z) : 0 < n -> 0 <= k -> rne (m * 2 ^ k) (n + k) = rne m n.
Proof.
  intros Hn Hk. unfold rne.
  destruct (Z.leb_spec (n + k) 0) as [L|_]; [lia|].
  destruct (Z.leb_spec n 0) as [L|_]; [lia|].
  rewrite (Z.pow_add_r 2 n k) by lia.
  rewrite Z.div_mul_cancel_r, Z.mul_mod_distr_r by lia.
  replace (n + k - 1) with (n - 1 + k) by lia. rewrite (Z.pow_add_r 2 (n - 1) k) by lia.
  assert (Hp : 0 < 2 ^ k) by lia.
  now rewrite !ltb_mul_pos by exact Hp.
Qed.

(** Rounding to [n] bits fewer moves to a neighbour. *)
Lemma rne_bounds (m n : Z) : 0 <= m -> m / 2 ^ n <= rne m n <= m / 2 ^ n + 1 \/ n <= 0.
Proof.
  intros Hm. unfold rne. destruct (Z.leb_spec n 0) as [L|L]; [now right|left].
  destruct (_ <? _); [lia|]. destruct (_ <? _); [lia|]. destruct (Z.even _); lia.
Qed.

(** *** What [binary_round_aux] returns *)

(** A mantissa already at its exponent is kept. *)
Lemma round_aux_kept (s : bool) (m : positive) (e : Z) :
  fexp prec emax (Z.pos (digits2_pos m) + e) = e ->
  binary_round_aux prec emax s (Z.pos m) e loc_Exact
  = if e <=? 971 then S754_finite s m e else S754_infinity s.
Proof.
  intros Hc. unfold binary_round_aux, shr_fexp, shr.
  cbn [Zdigits2 shr_record_of_loc]. rewrite Hc, Z.sub_diag.
  cbn [loc_of_shr_record shr_m round_nearest_even Zdigits2 shr_record_of_loc].
  rewrite Hc, Z.sub_diag. cbn [shr_m]. reflexivity.
Qed.

Lemma log2_bounds (z d : Z) :
  0 < z -> Z.log2 z + 1 = d -> 2 ^ (d - 1) <= z < 2 ^ d.
Proof.
  intros Hz <-. pose proof (Z.log2_spec z Hz) as B.
  replace (Z.log2 z + 1 - 1) with (Z.log2 z) by lia.
  now rewrite <- Z.add_1_r in B.
Qed.

(** A mantissa of more than 53 bits is shifted right and rounded; when
    the rounding carries into a 54th bit it is shifted once more. *)
Lemma round_aux_shifted (s : bool) (m : positive) (e : Z) :
  53 < Z.pos (digits2_pos m) -> -1074 <= e ->
  let n := Z.pos (digits2_pos m) - 53 in
  let m2 := rne (Z.pos m) n in
  2 ^ 52 <= m2 <= 2 ^ 53 /\
  binary_round_aux prec emax s (Z.pos m) e loc_Exact
  = if m2 =? 2 ^ 53
    then (if e + n + 1 <=? 971 then S754_finite s (Z.to_pos (2 ^ 52)) (e + n + 1)
          else S754_infinity s)
    else (if e + n <=? 971 then S754_finite s (Z.to_pos m2) (e + n)
          else S754_infinity s).
Proof.
  intros Hd He n m2.
  assert (Hn : 0 < n) by (subst n; lia).
  pose proof (log2_bounds (Z.pos m) _ ltac:(lia) (eq_sym (digits2_log2 m))) as Bm.
  assert (Hq : 2 ^ 52 <= Z.pos m / 2 ^ n < 2 ^ 53).
  { replace (Z.pos (digits2_pos m)) with (n + 53) in Bm by (subst n; lia).
    replace (n + 53 - 1) with (52 + n) in Bm by lia.
    rewrite Z.add_comm, !Z.pow_add_r in Bm by lia.
    split; [apply Z.div_le_lower_bound; lia | apply Z.div_lt_upper_bound; lia]. }
  assert (Hm2 : 2 ^ 52 <= m2 <= 2 ^ 53).
  { destruct (rne_bounds (Z.pos m) n ltac:(lia)) as [B|B]; [subst m2; lia|lia]. }
  split; [exact Hm2|].
  unfold binary_round_aux, shr_fexp, shr at 1.
  cbn [Zdigits2 shr_record_of_loc]. rewrite fexp_eq.
  replace (Z.max (Z.pos (digits2_pos m) + e - 53) (-1074) - e) with n by (subst n; lia).
  destruct n as [|p|p] eqn:En; try lia.
  rewrite iter_pos_nat.
  destruct (Pos.to_nat p) as [|k] eqn:Ek; [lia|].
  rewrite iter_shr_1 by lia. rewrite round_shifted by lia.
  replace (Z.of_nat (S k)) with (Z.pos p) by lia. fold m2.
  destruct (Z.eqb_spec m2 (2 ^ 53)) as [Ec|Ec].
  - rewrite Ec. unfold shr. cbn [Zdigits2 shr_record_of_loc round_nearest_even].
    rewrite fexp_eq. change (Zdigits2 (2 ^ 53)) with 54.
    replace (Z.max (54 + (e + Z.pos p) - 53) (-1074) - (e + Z.pos p)) with 1 by lia.
    reflexivity.
  - assert (Hlog : Z.log2 m2 = 52).
    { apply Z.log2_unique; [lia|]. change (Z.succ 52) with 53. lia. }
    destruct m2 as [|q|q] eqn:Eq; try lia.
    unfold shr. cbn [Zdigits2 shr_record_of_loc]. rewrite digits2_log2, Hlog, fexp_eq.
    replace (Z.max (52 + 1 + (e + Z.pos p) - 53) (-1074) - (e + Z.pos p)) with 0 by lia.
    cbn [shr_m]. reflexivity.
Qed.

(** *** What [binary_round] returns *)

Lemma lsb_scaled (m : positive) (k : Z) :
  0 <= k -> lsb (Z.pos m * 2 ^ k) = Z.max (Z.pos (digits2_pos m) + k - 53) 0.
Proof.
  intros Hk. unfold lsb. rewrite Z.log2_mul_pow2, digits2_log2 by lia. lia.
Qed.

Lemma pow2_lt_inv (a b : Z) : 0 <= b -> 2 ^ a < 2 ^ b -> a < b.
Proof. intros Hb H. apply (Z.pow_lt_mono_r_iff 2); lia. Qed.

Lemma scaled_lt_pow2 (a x k b : Z) :
  0 <= a -> 0 <= k -> 0 <= b -> 2 ^ a <= x -> x * 2 ^ k < 2 ^ b -> a + k < b.
Proof.
  intros Ha Hk Hb Hx Hlt. apply pow2_lt_inv; [exact Hb|].
  rewrite Z.pow_add_r by lia.
  apply Z.le_lt_trans with (x * 2 ^ k); [|exact Hlt].
  apply Z.mul_le_mono_nonneg_r; [apply Z.pow_nonneg; lia | exact Hx].
Qed.

Lemma valid_kept (s : bool) (m : positive) (e : Z) :
  fexp prec emax (Z.pos (digits2_pos m) + e) = e -> e <= 971 ->
  valid_binary (S754_finite s m e) = true.
Proof.
  intros Hc Hb. cbn [SpecFloat.valid_binary]. unfold bounded, canonical_mantissa.
  rewrite Hc, Z.eqb_refl. apply Z.leb_le. exact Hb.
Qed.

(** A positive mantissa and an exponent, rounded to the format: a
    valid float whose value is the exact one rounded to 53 bits, as
    long as that stays below [2^1024]. *)
Lemma binary_round_value (s : bool) (m : positive) (e : Z) :
  -1074 <= e ->
  rnd (Z.pos m * 2 ^ (e + 1074)) < 2 ^ 2098 ->
  valid_binary (binary_round prec emax s m e) = true /\
  SFz (binary_round prec emax s m e)
  = Some (cond_Zopp s (rnd (Z.pos m * 2 ^ (e + 1074)))).
Proof.
  intros He. unfold rnd. rewrite lsb_scaled by lia.
  set (d := Z.pos (digits2_pos m)). intros Hov.
  unfold binary_round, shl_align. rewrite fexp_eq. fold d.
  destruct (Z.max (d + e - 53) (-1074) - e) as [|q|q] eqn:Esh.
  - (* already at its exponent *)
    assert (Hc : fexp prec emax (Z.pos (digits2_pos m) + e) = e)
      by (rewrite fexp_eq; fold d; lia).
    rewrite round_aux_kept by exact Hc.
    replace (Z.max (d + (e + 1074) - 53) 0) with (e + 1074) in * by lia.
    rewrite rne_exact in * by lia.
    destruct (Z.leb_spec e 971) as [L|L];
      [split; [now apply valid_kept | reflexivity]|].
    exfalso. assert (d = 53) by lia.
    pose proof (log2_bounds (Z.pos m) d ltac:(lia) (eq_sym (digits2_log2 m))) as B.
    replace (d - 1) with 52 in B by lia.
    pose proof (scaled_lt_pow2 52 (Z.pos m) (e + 1074) 2098
                  ltac:(lia) ltac:(lia) ltac:(lia) (proj1 B) Hov).
    lia.
  - (* more than 53 bits: shifted right and rounded *)
    assert (Hd : 53 < d) by lia.
    destruct (round_aux_shifted s m e Hd He) as [Hm2 ->]. fold d. fold d in Hm2.
    replace (Z.max (d + (e + 1074) - 53) 0) with (d - 53 + (e + 1074)) in * by lia.
    rewrite rne_shift in * by lia.
    set (m2 := rne (Z.pos m) (d - 53)) in *.
    assert (Hk : 0 <= d - 53 + (e + 1074)) by lia.
    assert (Hm2' : 2 ^ 52 <= m2 <= 2 ^ 53) by exact Hm2.
    pose proof (scaled_lt_pow2 52 m2 (d - 53 + (e + 1074)) 2098
                  ltac:(lia) Hk ltac:(lia) (proj1 Hm2') Hov) as Hlow.
    destruct (Z.eqb_spec m2 (2 ^ 53)) as [Ec|Ec].
    + rewrite Ec in Hov. rewrite <- Z.pow_add_r in Hov by lia.
      apply pow2_lt_inv in Hov; [|lia].
      destruct (Z.leb_spec (e + (d - 53) + 1) 971) as [L|L]; [|lia].
      split.
      * apply valid_kept; [|exact L]. rewrite fexp_eq.
        change (Z.pos (digits2_pos (Z.to_pos (2 ^ 52)))) with 53. lia.
      * cbn [SFz]. do 2 f_equal. rewrite Ec.
        replace (e + (d - 53) + 1 + 1074) with (1 + (d - 53 + (e + 1074))) by lia.
        rewrite (Z.pow_add_r 2 1) by lia. change (Z.pos (Z.to_pos (2 ^ 52))) with (2 ^ 52).
        rewrite Z.mul_assoc. reflexivity.
    + destruct (Z.leb_spec (e + (d - 53)) 971) as [L|L]; [|lia].
      split.
      * apply valid_kept; [|exact L]. rewrite fexp_eq, digits2_log2, Z2Pos.id by lia.
        replace (Z.log2 m2) with 52; [lia|]. symmetry.
        apply Z.log2_unique; [lia|]. change (Z.succ 52) with 53. lia.
      * cbn [SFz]. do 2 f_equal. rewrite Z2Pos.id by lia. f_equal. f_equal. lia.
  - (* fewer than 53 bits above the exponent: shifted left *)
    assert (Hm : Z.pos (Pos.iter xO m q) = Z.pos m * 2 ^ Z.pos q) by apply iter_xO.
    assert (Hdig : Z.pos (digits2_pos (Pos.iter xO m q)) = d + Z.pos q).
    { rewrite digits2_log2, Hm, Z.log2_mul_pow2 by lia. subst d. rewrite digits2_log2. lia. }
    set (et := Z.max (d + e - 53) (-1074)) in *.
    assert (Hc : fexp prec emax (Z.pos (digits2_pos (Pos.iter xO m q)) + et) = et)
      by (rewrite fexp_eq, Hdig; lia).
    rewrite round_aux_kept by exact Hc.
    replace (Z.max (d + (e + 1074) - 53) 0) with (et + 1074) in * by lia.
    assert (Hz : Z.pos m * 2 ^ (e + 1074) = Z.pos (Pos.iter xO m q) * 2 ^ (et + 1074)).
    { rewrite Hm, <- Z.mul_assoc, <- Z.pow_add_r by lia. f_equal. f_equal. lia. }
    rewrite Hz in *. rewrite rne_exact in * by lia.
    destruct (Z.leb_spec et 971) as [L|L];
      [split; [now apply valid_kept | reflexivity]|].
    exfalso. assert (Hd53 : d + Z.pos q = 53) by lia.
    pose proof (log2_bounds (Z.pos (Pos.iter xO m q)) (d + Z.pos q) ltac:(lia)
                  ltac:(rewrite <- Hdig, digits2_log2; reflexivity)) as B.
    replace (d + Z.pos q - 1) with 52 in B by lia.
    pose proof (scaled_lt_pow2 52 (Z.pos (Pos.iter xO m q)) (et + 1074) 2098
                  ltac:(lia) ltac:(lia) ltac:(lia) (proj1 B) Hov).
    lia.
Qed.

(** *** Values of valid floats *)

Lemma rnd_0 : rnd 0 = 0.
Proof. reflexivity. Qed.

Lemma rnd_multiple (q k : Z) : 0 < q -> lsb (q * 2 ^ k) <= k -> rnd (q * 2 ^ k) = q * 2 ^ k.
Proof.
  intros Hq Hk. unfold rnd. set (j := lsb (q * 2 ^ k)) in *.
  assert (Hj : 0 <= j) by (subst j; unfold lsb; lia).
  replace (q * 2 ^ k) with (q * 2 ^ (k - j) * 2 ^ j)
    by (rewrite <- Z.mul_assoc, <- Z.pow_add_r by lia; do 2 f_equal; lia).
  now rewrite rne_exact.
Qed.

(** A valid finite float: its exponent is the one of the format for
    its value, so the value rounds to itself, and it is below
    [2^1024]. *)
Lemma valid_finite (s : bool) (m : positive) (e : Z) :
  valid_binary (S754_finite s m e) = true ->
  -1074 <= e <= 971 /\
  lsb (Z.pos m * 2 ^ (e + 1074)) = e + 1074 /\
  rnd (Z.pos m * 2 ^ (e + 1074)) = Z.pos m * 2 ^ (e + 1074) /\
  Z.pos m * 2 ^ (e + 1074) < 2 ^ 2098.
Proof.
  cbn [SpecFloat.valid_binary]. unfold bounded, canonical_mantissa.
  rewrite andb_true_iff, Z.eqb_eq, Z.leb_le, fexp_eq.
  change (emax - prec) with 971. intros [Hc Hb].
  assert (He : -1074 <= e) by lia.
  assert (Hex : lsb (Z.pos m * 2 ^ (e + 1074)) = e + 1074) by (rewrite lsb_scaled; lia).
  repeat split; try lia.
  - apply rnd_multiple; lia.
  - pose proof (log2_bounds (Z.pos m) _ ltac:(lia) (eq_sym (digits2_log2 m))) as B.
    apply Z.lt_le_trans with (2 ^ 53 * 2 ^ (e + 1074)).
    + apply Z.mul_lt_mono_pos_r; [lia|].
      apply Z.lt_le_trans with (2 ^ Z.pos (digits2_pos m)); [lia|].
      apply Z.pow_le_mono_r; lia.
    + rewrite <- Z.pow_add_r by lia. apply Z.pow_le_mono_r; lia.
Qed.

Lemma SFz_zero (s : bool) (z : Z) : SFz (S754_zero s) = Some z -> z = 0.
Proof. now intros [= <-]. Qed.

Lemma SFz_finite (s : bool) (m : positive) (e z : Z) :
  SFz (S754_finite s m e) = Some z -> z = cond_Zopp s (Z.pos m * 2 ^ (e + 1074)).
Proof. now intros [= <-]. Qed.

Lemma SFz_bounds (x : spec_float) (z : Z) :
  valid_binary x = true -> SFz x = Some z -> rndZ z = z /\ Z.abs z < 2 ^ 2098.
Proof.
  intros Hv. destruct x as [sx| |  |sx mx ex]; try discriminate; intros E.
  - apply SFz_zero in E. subst z. split; [reflexivity|lia].
  - apply SFz_finite in E. subst z.
    destruct (valid_finite _ _ _ Hv) as (He & _ & Hr & Hlt).
    assert (0 < Z.pos mx * 2 ^ (ex + 1074)) by lia.
    unfold rndZ. destruct sx; cbn [cond_Zopp].
    + rewrite Z.abs_opp, Z.abs_eq, Hr, Z.sgn_neg by lia. split; lia.
    + rewrite Z.abs_eq, Hr, Z.sgn_pos by lia. split; lia.
Qed.

Lemma binary_normalize_value (M e : Z) (sz : bool) :
  -1074 <= e ->
  rnd (Z.abs (M * 2 ^ (e + 1074))) < 2 ^ 2098 ->
  valid_binary (binary_normalize prec emax M e sz) = true /\
  SFz (binary_normalize prec emax M e sz) = Some (rndZ (M * 2 ^ (e + 1074))).
Proof.
  intros He Hov. assert (P : 0 < 2 ^ (e + 1074)) by lia.
  unfold rndZ. destruct M as [|m|m]; cbn [binary_normalize].
  - split; reflexivity.
  - rewrite Z.abs_eq in * by lia. rewrite Z.sgn_pos by lia.
    destruct (binary_round_value false m e He Hov) as [V ->].
    split; [exact V|]. cbn [cond_Zopp]. f_equal; lia.
  - replace (Z.abs (Z.neg m * 2 ^ (e + 1074))) with (Z.pos m * 2 ^ (e + 1074)) in * by lia.
    rewrite Z.sgn_neg by lia.
    destruct (binary_round_value true m e He Hov) as [V ->].
    split; [exact V|]. cbn [cond_Zopp]. f_equal; lia.
Qed.

Lemma shl_align_value (m : positive) (e e' : Z) :
  -1074 <= e' <= e ->
  Z.pos (fst (shl_align m e e')) * 2 ^ (e' + 1074) = Z.pos m * 2 ^ (e + 1074).
Proof.
  intros He. unfold shl_align. destruct (e' - e) as [|q|q] eqn:E; cbn [fst].
  - do 2 f_equal. lia.
  - lia.
  - rewrite iter_xO, <- Z.mul_assoc, <- Z.pow_add_r by lia. do 2 f_equal. lia.
Qed.

Lemma cond_Zopp_mul (s : bool) (a b : Z) : cond_Zopp s a * b = cond_Zopp s (a * b).
Proof. destruct s; simpl; lia. Qed.

(** Sums and differences of valid finite floats, short of overflow:
    the exact result, rounded. *)
Lemma SFadd_value (x y : spec_float) (zx zy : Z) :
  valid_binary x = true -> valid_binary y = true ->
  SFz x = Some zx -> SFz y = Some zy ->
  rnd (Z.abs (zx + zy)) < 2 ^ 2098 ->
  SFz (SF64add x y) = Some (rndZ (zx + zy)).
Proof.
  intros Vx Vy Hx Hy Hov.
  destruct (SFz_bounds _ _ Vx Hx) as [Rx _], (SFz_bounds _ _ Vy Hy) as [Ry _].
  destruct x as [sx| |  |sx mx ex], y as [sy| |  |sy my ey]; try discriminate;
    try apply SFz_zero in Hx; try apply SFz_zero in Hy;
    try apply SFz_finite in Hx; try apply SFz_finite in Hy; subst zx zy.
  - now destruct sx, sy.
  - cbn [SF64add SFadd]. rewrite Z.add_0_l, Ry. reflexivity.
  - cbn [SF64add SFadd]. rewrite Z.add_0_r, Rx. reflexivity.
  - destruct (valid_finite _ _ _ Vx) as (Hex & _), (valid_finite _ _ _ Vy) as (Hey & _).
    unfold SF64add, SFadd.
    set (ez := Z.min ex ey).
    set (M := cond_Zopp sx (Z.pos (fst (shl_align mx ex ez)))
              + cond_Zopp sy (Z.pos (fst (shl_align my ey ez)))).
    assert (Hsum : M * 2 ^ (ez + 1074)
                   = cond_Zopp sx (Z.pos mx * 2 ^ (ex + 1074))
                     + cond_Zopp sy (Z.pos my * 2 ^ (ey + 1074))).
    { subst M. rewrite Z.mul_add_distr_r, !cond_Zopp_mul, !shl_align_value by lia.
      reflexivity. }
    rewrite <- Hsum in *.
    now destruct (binary_normalize_value M ez false ltac:(lia) Hov) as [_ ->].
Qed.

Lemma SFsub_value (x y : spec_float) (zx zy : Z) :
  valid_binary x = true -> valid_binary y = true ->
  SFz x = Some zx -> SFz y = Some zy ->
  rnd (Z.abs (zx - zy)) < 2 ^ 2098 ->
  SFz (SF64sub x y) = Some (rndZ (zx - zy)).
Proof.
  intros Vx Vy Hx Hy Hov.
  destruct (SFz_bounds _ _ Vx Hx) as [Rx _], (SFz_bounds _ _ Vy Hy) as [Ry _].
  assert (Ropp : forall z, rndZ (- z) = - rndZ z).
  { intros z. unfold rndZ. rewrite Z.abs_opp, Z.sgn_opp. lia. }
  destruct x as [sx| |  |sx mx ex], y as [sy| |  |sy my ey]; try discriminate;
    try apply SFz_zero in Hx; try apply SFz_zero in Hy;
    try apply SFz_finite in Hx; try apply SFz_finite in Hy; subst zx zy.
  - now destruct sx, sy.
  - cbn [SF64sub SFsub SFz]. rewrite Z.sub_0_l, Ropp, Ry. f_equal. destruct sy; simpl; lia.
  - cbn [SF64sub SFsub]. rewrite Z.sub_0_r, Rx. reflexivity.
  - destruct (valid_finite _ _ _ Vx) as (Hex & _), (valid_finite _ _ _ Vy) as (Hey & _).
    unfold SF64sub, SFsub.
    set (ez := Z.min ex ey).
    set (M := cond_Zopp sx (Z.pos (fst (shl_align mx ex ez)))
              - cond_Zopp sy (Z.pos (fst (shl_align my ey ez)))).
    assert (Hsum : M * 2 ^ (ez + 1074)
                   = cond_Zopp sx (Z.pos mx * 2 ^ (ex + 1074))
                     - cond_Zopp sy (Z.pos my * 2 ^ (ey + 1074))).
    { subst M. rewrite Z.mul_sub_distr_r, !cond_Zopp_mul, !shl_align_value by lia.
      reflexivity. }
    rewrite <- Hsum in *.
    now destruct (binary_normalize_value M ez false ltac:(lia) Hov) as [_ ->].
Qed.

(** *** Rounding between representable numbers *)

Lemma lsb_nonneg (z : Z) : 0 <= lsb z.
Proof. unfold lsb. lia. Qed.

Lemma lsb_le (a b : Z) : 0 < a <= b -> lsb a <= lsb b.
Proof.
  intros H. unfold lsb. pose proof (Z.log2_le_mono a b ltac:(lia)). lia.
Qed.

Lemma lsb_lt_pow2 (z j : Z) : 0 < z < 2 ^ (j + 53) -> 0 <= j -> lsb z <= j.
Proof.
  intros Hz Hj. unfold lsb.
  assert (Z.log2 z < j + 53) by (apply Z.log2_lt_pow2; lia). lia.
Qed.

Lemma lsb_ge_pow2 (z j : Z) : 2 ^ (j + 52) <= z -> 0 <= j -> j <= lsb z.
Proof.
  intros Hz Hj. unfold lsb.
  assert (0 < z) by (pose proof (Z.pow_pos_nonneg 2 (j + 52)); lia).
  assert (j + 52 <= Z.log2 z) by (apply Z.log2_le_pow2; lia). lia.
Qed.

Lemma divide_pow2_le (a b z : Z) : 0 <= a <= b -> (2 ^ b | z) -> (2 ^ a | z).
Proof.
  intros H D. apply Z.divide_trans with (2 ^ b); [|exact D].
  exists (2 ^ (b - a)). rewrite <- Z.pow_add_r by lia. f_equal. lia.
Qed.

(** A multiple of [2^j] below [2^(j+53)] is representable. *)
Lemma rnd_divide (z j : Z) :
  0 <= z -> 0 <= j -> (2 ^ j | z) -> z < 2 ^ (j + 53) -> rnd z = z.
Proof.
  intros Hz Hj [q ->] Hlt.
  assert (P : 0 < 2 ^ j) by lia.
  destruct (Z.eq_dec q 0) as [->|Hq]; [reflexivity|].
  assert (0 < q) by nia.
  apply rnd_multiple; [assumption|]. apply lsb_lt_pow2; [nia|assumption].
Qed.

Lemma rne_floor (m n : Z) : 0 < n -> m / 2 ^ n <= rne m n <= m / 2 ^ n + 1.
Proof.
  intros Hn. unfold rne. destruct (Z.leb_spec n 0) as [L|L]; [lia|].
  destruct (_ <? _); [lia|]. destruct (_ <? _); [lia|]. destruct (Z.even _); lia.
Qed.

Lemma rne_of_multiple (m n : Z) : 0 <= n -> m mod 2 ^ n = 0 -> rne m n * 2 ^ n = m.
Proof.
  intros Hn Hm.
  assert (E : m = m / 2 ^ n * 2 ^ n) by (pose proof (Z.div_mod m (2 ^ n)); lia).
  set (q := m / 2 ^ n) in *. rewrite E. now rewrite rne_exact.
Qed.

Lemma rnd_lsb (z : Z) : 0 <= z -> (2 ^ lsb z | z) -> rnd z = z.
Proof.
  intros Hz D. unfold rnd. pose proof (lsb_nonneg z).
  apply rne_of_multiple; [assumption|]. apply Z.mod_divide; [lia|exact D].
Qed.

Lemma rnd_nonneg (a : Z) : 0 <= a -> 0 <= rnd a.
Proof.
  intros Ha. unfold rnd. pose proof (lsb_nonneg a) as Hj.
  apply Z.mul_nonneg_nonneg; [|lia].
  destruct (Z.eq_dec (lsb a) 0) as [->|Hn]; [unfold rne; simpl; lia|].
  pose proof (rne_floor a (lsb a) ltac:(lia)).
  pose proof (Z.div_pos a (2 ^ lsb a) Ha ltac:(lia)). lia.
Qed.

(** Rounding does not cross a representable number. *)
Lemma rnd_le_rep (a K : Z) :
  0 <= a <= K -> (2 ^ lsb K | K) -> rnd a <= K.
Proof.
  intros Ha DK. destruct (Z.eq_dec a 0) as [->|Hnz]; [rewrite rnd_0; lia|].
  assert (Hj : lsb a <= lsb K) by (apply lsb_le; lia).
  pose proof (lsb_nonneg a) as Hj0.
  apply (divide_pow2_le (lsb a)) in DK; [|lia].
  destruct DK as [q Hq]. unfold rnd. set (j := lsb a) in *.
  assert (P : 0 < 2 ^ j) by lia.
  destruct (Z.eq_dec j 0) as [E0|E0].
  - rewrite E0. unfold rne. simpl. lia.
  - pose proof (rne_floor a j ltac:(lia)) as B.
    assert (Hdq : a / 2 ^ j <= q) by (apply Z.div_le_upper_bound; lia).
    destruct (Z.eq_dec (a / 2 ^ j) q) as [Eq|Ne].
    + assert (Ea : a = K).
      { pose proof (Z.mul_div_le a (2 ^ j) P). nia. }
      rewrite Ea, Hq, rne_exact by lia. lia.
    + nia.
Qed.

Lemma rnd_ge_rep (a K : Z) :
  0 < K <= a -> (2 ^ lsb K | K) -> K <= rnd a.
Proof.
  intros Ha DK.
  assert (Hj : lsb K <= lsb a) by (apply lsb_le; lia).
  pose proof (lsb_nonneg K) as Hj0.
  unfold rnd. set (j := lsb a) in *.
  assert (P : 0 < 2 ^ j) by lia.
  destruct (Z.eq_dec j 0) as [E0|E0].
  - rewrite E0. unfold rne. simpl. lia.
  - pose proof (rne_floor a j ltac:(lia)) as B.
    destruct (Z.eq_dec (lsb K) j) as [E|E].
    + rewrite E in DK. destruct DK as [q Hq].
      assert (q <= a / 2 ^ j) by (apply Z.div_le_lower_bound; lia). nia.
    + (* [a] has more bits than [K] *)
      assert (Hlog : Z.log2 K < Z.log2 a) by (unfold lsb in *; lia).
      assert (Hj52 : j = Z.log2 a - 52) by (unfold lsb in *; lia).
      pose proof (Z.log2_spec K ltac:(lia)) as BK.
      pose proof (Z.log2_spec a ltac:(lia)) as Ba.
      assert (HK : K < 2 ^ Z.log2 a).
      { apply Z.lt_le_trans with (2 ^ Z.succ (Z.log2 K)); [lia|].
        apply Z.pow_le_mono_r; lia. }
      assert (Hq : 2 ^ 52 <= a / 2 ^ j).
      { apply Z.div_le_lower_bound; [lia|]. rewrite Z.mul_comm, <- Z.pow_add_r by lia.
        replace (52 + j) with (Z.log2 a) by lia. lia. }
      assert (2 ^ Z.log2 a = 2 ^ 52 * 2 ^ j)
        by (rewrite <- Z.pow_add_r by lia; f_equal; lia).
      nia.
Qed.

Lemma rnd_no_overflow (a K : Z) :
  0 <= a <= K -> (2 ^ lsb K | K) -> K < 2 ^ 2098 -> rnd a < 2 ^ 2098.
Proof. intros Ha DK HK. pose proof (rnd_le_rep a K Ha DK). lia. Qed.

(** The value of a valid float is a multiple of its last place. *)
Lemma SFz_divide (x : spec_float) (z : Z) :
  valid_binary x = true -> SFz x = Some z -> (2 ^ lsb (Z.abs z) | z).
Proof.
  intros Hv. destruct x as [sx| |  |sx mx ex]; try discriminate; intros E.
  - apply SFz_zero in E. subst z. apply Z.divide_0_r.
  - apply SFz_finite in E. subst z.
    destruct (valid_finite _ _ _ Hv) as (He & Hl & _).
    assert (P : 0 < Z.pos mx * 2 ^ (ex + 1074)) by lia.
    assert (Habs : Z.abs (cond_Zopp sx (Z.pos mx * 2 ^ (ex + 1074)))
                   = Z.pos mx * 2 ^ (ex + 1074)) by (destruct sx; cbn [cond_Zopp]; lia).
    rewrite Habs, Hl. destruct sx; cbn [cond_Zopp].
    + exists (- Z.pos mx). lia.
    + exists (Z.pos mx). lia.
Qed.

(** *** Order *)

Lemma valid_exponent_lt (s1 s2 : bool) (m1 m2 : positive) (e1 e2 : Z) :
  valid_binary (S754_finite s1 m1 e1) = true ->
  valid_binary (S754_finite s2 m2 e2) = true ->
  e1 < e2 ->
  Z.pos m1 * 2 ^ (e1 + 1074) < Z.pos m2 * 2 ^ (e2 + 1074).
Proof.
  intros V1 V2 Hlt.
  destruct (valid_finite _ _ _ V1) as (He1 & L1 & _), (valid_finite _ _ _ V2) as (He2 & L2 & _).
  unfold lsb in L1, L2. apply Z.log2_lt_cancel. lia.
Qed.

(** Valid finite floats compare as their values do. *)
Lemma SFcompare_value (x y : spec_float) (zx zy : Z) :
  valid_binary x = true -> valid_binary y = true ->
  SFz x = Some zx -> SFz y = Some zy ->
  SFcompare x y = Some (zx ?= zy).
Proof.
  intros Vx Vy Hx Hy.
  destruct x as [sx| |  |sx mx ex], y as [sy| |  |sy my ey]; try discriminate;
    try apply SFz_zero in Hx; try apply SFz_zero in Hy;
    try apply SFz_finite in Hx; try apply SFz_finite in Hy; subst zx zy.
  - reflexivity.
  - cbn [SFcompare]. f_equal. symmetry.
    destruct (valid_finite _ _ _ Vy) as (Hey & _).
    assert (0 < Z.pos my * 2 ^ (ey + 1074)) by lia.
    destruct sy; cbn [cond_Zopp]; [apply Z.compare_gt_iff | apply Z.compare_lt_iff]; lia.
  - cbn [SFcompare]. f_equal. symmetry.
    destruct (valid_finite _ _ _ Vx) as (Hex & _).
    assert (0 < Z.pos mx * 2 ^ (ex + 1074)) by lia.
    destruct sx; cbn [cond_Zopp]; [apply Z.compare_lt_iff | apply Z.compare_gt_iff]; lia.
  - cbn [SFcompare]. f_equal. symmetry.
    destruct (valid_finite _ _ _ Vx) as (Hex & _), (valid_finite _ _ _ Vy) as (Hey & _).
    assert (Px : 0 < Z.pos mx * 2 ^ (ex + 1074)) by lia.
    assert (Py : 0 < Z.pos my * 2 ^ (ey + 1074)) by lia.
    pose proof (fun H => valid_exponent_lt sx sy mx my ex ey Vx Vy H) as Hxy.
    pose proof (fun H => valid_exponent_lt sy sx my mx ey ex Vy Vx H) as Hyx.
    assert (Heq : ex = ey ->
                  (Z.pos mx * 2 ^ (ex + 1074) ?= Z.pos my * 2 ^ (ey + 1074))
                  = Pos.compare_cont Eq mx my).
    { intros ->. rewrite <- Zmult_compare_compat_r by lia. reflexivity. }
    destruct sx, sy; cbn [cond_Zopp].
    + destruct (Z.compare_spec ex ey) as [E|E|E].
      * rewrite <- (Heq E), Z.compare_opp. rewrite <- Zcompare_antisym.
        now rewrite Z.compare_antisym.
      * apply Z.compare_gt_iff. specialize (Hxy E). lia.
      * apply Z.compare_lt_iff. specialize (Hyx E). lia.
    + apply Z.compare_lt_iff. lia.
    + apply Z.compare_gt_iff. lia.
    + destruct (Z.compare_spec ex ey) as [E|E|E].
      * now apply Heq.
      * apply Z.compare_lt_iff. now apply Hxy.
      * apply Z.compare_gt_iff. specialize (Hyx E). lia.
Qed.

(** *** Doubles *)

Lemma Zof_add (x y : float) (zx zy : Z) :
  Zof x = Some zx -> Zof y = Some zy -> rnd (Z.abs (zx + zy)) < 2 ^ 2098 ->
  Zof (x + y)%float = Some (rndZ (zx + zy)).
Proof.
  intros Hx Hy Hov. unfold Zof. rewrite add_spec.
  apply SFadd_value; auto using Prim2SF_valid.
Qed.

Lemma Zof_sub (x y : float) (zx zy : Z) :
  Zof x = Some zx -> Zof y = Some zy -> rnd (Z.abs (zx - zy)) < 2 ^ 2098 ->
  Zof (x - y)%float = Some (rndZ (zx - zy)).
Proof.
  intros Hx Hy Hov. unfold Zof. rewrite sub_spec.
  apply SFsub_value; auto using Prim2SF_valid.
Qed.

Lemma Zof_ltb (x y : float) (zx zy : Z) :
  Zof x = Some zx -> Zof y = Some zy -> PrimFloat.ltb x y = (zx <? zy).
Proof.
  intros Hx Hy. rewrite ltb_spec. unfold SFltb.
  rewrite (SFcompare_value _ _ zx zy) by auto using Prim2SF_valid.
  unfold Z.ltb. now destruct (zx ?= zy).
Qed.

Lemma Zof_leb (x y : float) (zx zy : Z) :
  Zof x = Some zx -> Zof y = Some zy -> PrimFloat.leb x y = (zx <=? zy).
Proof.
  intros Hx Hy. rewrite leb_spec. unfold SFleb.
  rewrite (SFcompare_value _ _ zx zy) by auto using Prim2SF_valid.
  unfold Z.leb. now destruct (zx ?= zy).
Qed.

Lemma Zof_rep (x : float) (z : Z) : Zof x = Some z -> rndZ z = z /\ Z.abs z < 2 ^ 2098.
Proof. apply SFz_bounds, Prim2SF_valid. Qed.

(** *** Signed rounding *)

Lemma rndZ_nonneg (a : Z) : 0 <= a -> rndZ a = rnd a.
Proof.
  intros Ha. unfold rndZ. destruct (Z.eq_dec a 0) as [->|Hn]; [reflexivity|].
  rewrite Z.sgn_pos, Z.abs_eq by lia. lia.
Qed.

Lemma rndZ_nonpos (a : Z) : a <= 0 -> rndZ a = - rnd (- a).
Proof.
  intros Ha. unfold rndZ. destruct (Z.eq_dec a 0) as [->|Hn]; [reflexivity|].
  rewrite Z.sgn_neg, Z.abs_neq by lia. lia.
Qed.

Lemma rndZ_between (a K : Z) :
  - K <= a <= K -> (2 ^ lsb K | K) -> - K <= rndZ a <= K.
Proof.
  intros Ha DK. destruct (Z.le_ge_cases 0 a) as [H|H].
  - rewrite rndZ_nonneg by exact H.
    pose proof (rnd_le_rep a K ltac:(lia) DK). pose proof (rnd_nonneg a H). lia.
  - rewrite rndZ_nonpos by exact H.
    pose proof (rnd_le_rep (- a) K ltac:(lia) DK). pose proof (rnd_nonneg (- a) ltac:(lia)). lia.
Qed.

Lemma Zof_divide (x : float) (z : Z) : Zof x = Some z -> (2 ^ lsb (Z.abs z) | Z.abs z).
Proof.
  intros H. apply SFz_divide in H; [|apply Prim2SF_valid].
  now apply Z.divide_abs_r.
Qed.

Lemma Zof_bound (x : float) (z : Z) : Zof x = Some z -> Z.abs z < 2 ^ 2098.
Proof. intros H. now apply Zof_rep in H. Qed.

(** *** math.Mod *)

Lemma valid_mantissa (s : bool) (m : positive) (e : Z) :
  valid_binary (S754_finite s m e) = true -> Z.pos m < 2 ^ 53.
Proof.
  intros V. destruct (valid_finite _ _ _ V) as (He & Hl & _).
  rewrite lsb_scaled in Hl by lia.
  pose proof (log2_bounds (Z.pos m) _ ltac:(lia) (eq_sym (digits2_log2 m))) as B.
  apply Z.lt_le_trans with (2 ^ Z.pos (digits2_pos m)); [lia|].
  apply Z.pow_le_mono_r; lia.
Qed.

(** The remainder is exact: its value is the truncated remainder of
    the values. *)
Lemma Zof_Mod (x y : float) (zx zy : Z) :
  Zof x = Some zx -> Zof y = Some zy -> 0 < zy ->
  Zof (B64.Mod x y) = Some (Z.rem zx zy).
Proof.
  unfold Zof, B64.Mod. intros Hx Hy Hpos.
  pose proof (Prim2SF_valid x) as Vx. pose proof (Prim2SF_valid y) as Vy.
  destruct (Prim2SF x) as [sx| |  |sx mx ex] eqn:Ex,
           (Prim2SF y) as [sy| |  |sy my ey] eqn:Ey; try discriminate.
  - apply SFz_zero in Hy. lia.
  - apply SFz_zero in Hx. subst zx. rewrite Ex. now rewrite Z.rem_0_l by lia.
  - apply SFz_zero in Hy. lia.
  - apply SFz_finite in Hx. apply SFz_finite in Hy.
    destruct (valid_finite _ _ _ Vx) as (Hex & _), (valid_finite _ _ _ Vy) as (Hey & _).
    pose proof (valid_mantissa _ _ _ Vx) as Bx. pose proof (valid_mantissa _ _ _ Vy) as By.
    assert (Py : 0 < Z.pos my * 2 ^ (ey + 1074)) by lia.
    assert (Hsy : sy = false) by (destruct sy; [cbn [cond_Zopp] in Hy; lia | reflexivity]).
    subst sy. cbn [cond_Zopp] in Hy.
    set (e0 := Z.min ex ey).
    set (X := Z.pos mx * 2 ^ (ex - e0)). set (Y := Z.pos my * 2 ^ (ey - e0)).
    set (k := e0 + 1074).
    assert (Hk : 0 <= k) by (subst k e0; lia).
    assert (HX : Z.pos mx * 2 ^ (ex + 1074) = X * 2 ^ k).
    { subst X k. rewrite <- Z.mul_assoc, <- Z.pow_add_r by (subst e0; lia).
      do 2 f_equal. lia. }
    assert (HY : Z.pos my * 2 ^ (ey + 1074) = Y * 2 ^ k).
    { subst Y k. rewrite <- Z.mul_assoc, <- Z.pow_add_r by (subst e0; lia).
      do 2 f_equal. lia. }
    assert (PX : 0 < X) by (subst X; assert (0 <= ex - e0) by (subst e0; lia); lia).
    assert (PY : 0 < Y) by (subst Y; assert (0 <= ey - e0) by (subst e0; lia); lia).
    pose proof (Z.mod_pos_bound X Y PY) as BR.
    assert (HR53 : X mod Y < 2 ^ 53).
    { destruct (Z.le_ge_cases ex ey) as [L|L].
      - assert (X = Z.pos mx)
          by (subst X e0; rewrite Z.min_l, Z.sub_diag, Z.pow_0_r by lia; lia).
        pose proof (Z.mod_le X Y ltac:(lia) PY). lia.
      - assert (Y = Z.pos my)
          by (subst Y e0; rewrite Z.min_r, Z.sub_diag, Z.pow_0_r by lia; lia).
        lia. }
    set (R := X mod Y) in *.
    assert (Hrep : rnd (R * 2 ^ k) = R * 2 ^ k).
    { apply (rnd_divide _ k);
        [apply Z.mul_nonneg_nonneg; [lia | apply Z.pow_nonneg; lia]
        | exact Hk | now exists R |].
      rewrite Z.add_comm, Z.pow_add_r by lia. apply Z.mul_lt_mono_pos_r; lia. }
    assert (Hov : rnd (Z.abs ((if sx then - R else R) * 2 ^ (e0 + 1074))) < 2 ^ 2098).
    { fold k. replace (Z.abs ((if sx then - R else R) * 2 ^ k)) with (R * 2 ^ k)
        by (destruct sx; nia).
      rewrite Hrep. apply Z.lt_le_trans with (Y * 2 ^ k); [nia|].
      rewrite <- HY. destruct (valid_finite _ _ _ Vy) as (_ & _ & _ & Hlt). lia. }
    destruct (binary_normalize_value (if sx then - R else R) e0 sx ltac:(subst e0; lia) Hov)
      as [V Hval].
    rewrite Prim2SF_SF2Prim by exact V. rewrite Hval. f_equal. fold k.
    subst zx zy. rewrite HX, HY.
    assert (P2k : 0 < 2 ^ k) by (apply Z.pow_pos_nonneg; lia).
    assert (PXk : 0 <= X * 2 ^ k) by (apply Z.mul_nonneg_nonneg; lia).
    assert (PYk : 0 < Y * 2 ^ k) by (apply Z.mul_pos_pos; lia).
    assert (PRk : 0 <= R * 2 ^ k) by (apply Z.mul_nonneg_nonneg; lia).
    destruct sx; cbn [cond_Zopp].
    + rewrite rndZ_nonpos by (rewrite Z.mul_opp_l; lia).
      replace (- (- R * 2 ^ k)) with (R * 2 ^ k) by lia. rewrite Hrep.
      rewrite Z.rem_opp_l by lia. rewrite Z.rem_mod_nonneg by assumption.
      rewrite Z.mul_mod_distr_r by lia. reflexivity.
    + rewrite rndZ_nonneg by exact PRk. rewrite Hrep.
      rewrite Z.rem_mod_nonneg by assumption.
      rewrite Z.mul_mod_distr_r by lia. reflexivity.
Qed.

(** *** [normEasting] on every finite double *)

Lemma Zof_180 : Zof 180 = Some K180.
Proof. vm_compute. reflexivity. Qed.

Lemma Zof_m180 : Zof (-180) = Some (- K180).
Proof. vm_compute. reflexivity. Qed.

Lemma Zof_360 : Zof 360 = Some K360.
Proof. vm_compute. reflexivity. Qed.

Lemma K180_pos : 0 < K180.
Proof. unfold K180. lia. Qed.

Lemma K360_double : K360 = 2 * K180.
Proof. unfold K360, K180. lia. Qed.

Lemma K180_rep : (2 ^ lsb K180 | K180).
Proof.
  pose proof (Zof_divide _ _ Zof_180) as D. rewrite Z.abs_eq in D; [exact D|].
  pose proof K180_pos. lia.
Qed.

Lemma K180_small : K180 < 2 ^ 2098.
Proof. pose proof (Zof_bound _ _ Zof_180). pose proof K180_pos. lia. Qed.

(** Adding to a finite double a number of the opposite sign and no
    larger does not overflow. *)
Lemma rnd_toward_zero_fits (x : float) (z a : Z) :
  Zof x = Some z -> Z.abs a <= Z.abs z -> rnd (Z.abs a) < 2 ^ 2098.
Proof.
  intros Hz Ha. apply (rnd_no_overflow _ (Z.abs z)).
  - lia.
  - now apply (Zof_divide x).
  - now apply (Zof_bound x).
Qed.

Lemma rnd_small_fits (a : Z) : Z.abs a <= K180 -> rnd (Z.abs a) < 2 ^ 2098.
Proof.
  intros Ha. apply (rnd_no_overflow _ K180); [lia | apply K180_rep | apply K180_small].
Qed.

(** For every finite double the result is a finite double between
    -180 and 180. *)
Theorem normEasting_finite_range (deg : float) (z : Z) :
  Zof deg = Some z ->
  exists r : Z, Zof (normEasting deg) = Some r /\ - K180 <= r <= K180.
Proof.
  intros Hz. pose proof K180_pos as P. pose proof K360_double as D.
  unfold normEasting. cbn [flt fadd fsub fmod ofInt b64].
  rewrite B64Geometry.ofInt_m180, B64Geometry.ofInt_180, B64Geometry.ofInt_360.
  rewrite (Zof_ltb deg (-180) z (- K180) Hz Zof_m180).
  destruct (Z.ltb_spec z (- K180)) as [Lo|Lo].
  - (* west of -180 *)
    assert (Ha : Zof (deg + 180)%float = Some (rndZ (z + K180))).
    { apply Zof_add; [exact Hz | exact Zof_180 |].
      apply (rnd_toward_zero_fits deg z); [exact Hz | lia]. }
    assert (Hza : rndZ (z + K180) <= 0).
    { rewrite rndZ_nonpos by lia. pose proof (rnd_nonneg (- (z + K180)) ltac:(lia)). lia. }
    pose proof (Zof_Mod _ _ _ _ Ha Zof_360 ltac:(lia)) as Hm.
    pose proof (Z.rem_bound_pos_neg (rndZ (z + K180)) K360 ltac:(lia) Hza) as Bm.
    set (zm := Z.rem (rndZ (z + K180)) K360) in *.
    exists (rndZ (zm + K180)). split.
    + apply Zof_add; [exact Hm | exact Zof_180 |]. apply rnd_small_fits. lia.
    + apply rndZ_between; [lia | apply K180_rep].
  - rewrite (Zof_ltb 180 deg K180 z Zof_180 Hz).
    destruct (Z.ltb_spec K180 z) as [Hi|Hi].
    + (* east of 180 *)
      assert (Ha : Zof (deg - 180)%float = Some (rndZ (z - K180))).
      { apply Zof_sub; [exact Hz | exact Zof_180 |].
        apply (rnd_toward_zero_fits deg z); [exact Hz | lia]. }
      assert (Hza : 0 <= rndZ (z - K180)).
      { rewrite rndZ_nonneg by lia. apply rnd_nonneg. lia. }
      pose proof (Zof_Mod _ _ _ _ Ha Zof_360 ltac:(lia)) as Hm.
      pose proof (Z.rem_bound_pos (rndZ (z - K180)) K360 Hza ltac:(lia)) as Bm.
      set (zm := Z.rem (rndZ (z - K180)) K360) in *.
      exists (rndZ (zm - K180)). split.
      * apply Zof_sub; [exact Hm | exact Zof_180 |]. apply rnd_small_fits. lia.
      * apply rndZ_between; [lia | apply K180_rep].
    + exists z. split; [exact Hz | lia].
Qed.

(** The same, by the comparisons of the doubles themselves. *)
Corollary normEasting_finite_leb (deg : float) (z : Z) :
  Zof deg = Some z ->
  PrimFloat.leb (-180) (normEasting deg) = true /\
  PrimFloat.leb (normEasting deg) 180 = true.
Proof.
  intros Hz. destruct (normEasting_finite_range deg z Hz) as (r & Hr & Lo & Hi).
  rewrite (Zof_leb _ _ _ _ Zof_m180 Hr), (Zof_leb _ _ _ _ Hr Zof_180).
  split; apply Z.leb_le; assumption.
Qed.

(** *** [eastDelta] on every pair of finite doubles *)

(** Rounding errs by at most half a unit in the last place. *)
Lemma rnd_above (a : Z) : 0 <= a -> 0 < lsb a -> rnd a <= a + 2 ^ (lsb a - 1).
Proof.
  intros Ha Hj. unfold rnd, rne. set (j := lsb a) in *.
  destruct (Z.leb_spec j 0) as [L|_]; [lia|].
  assert (P : 0 < 2 ^ (j - 1)) by lia.
  assert (E2 : 2 ^ j = 2 * 2 ^ (j - 1))
    by (rewrite <- Z.pow_succ_r by lia; f_equal; lia).
  pose proof (Z.div_mod a (2 ^ j) ltac:(lia)) as Dm.
  pose proof (Z.mod_pos_bound a (2 ^ j) ltac:(lia)) as Bm.
  destruct (Z.ltb_spec (a mod 2 ^ j) (2 ^ (j - 1))) as [A|A]; [nia|].
  destruct (Z.ltb_spec (2 ^ (j - 1)) (a mod 2 ^ j)) as [B|B]; [nia|].
  destruct (Z.even (a / 2 ^ j)); nia.
Qed.

Lemma Zof_divide_ge (x : float) (z j : Z) :
  Zof x = Some z -> 0 <= j -> 2 ^ (j + 52) <= Z.abs z -> (2 ^ j | z).
Proof.
  intros Hz Hj Hge. apply Z.divide_abs_r.
  apply (divide_pow2_le j (lsb (Z.abs z))); [|now apply (Zof_divide x)].
  split; [exact Hj|]. now apply lsb_ge_pow2.
Qed.

Lemma K360_rep : (2 ^ lsb K360 | K360).
Proof.
  pose proof (Zof_divide _ _ Zof_360) as D. rewrite Z.abs_eq in D; [exact D|].
  pose proof K180_pos. pose proof K360_double. lia.
Qed.

Lemma K180_binade : 2 ^ 1081 <= K180 < 2 ^ 1082.
Proof. unfold K180. change (2 ^ 1081) with (128 * 2 ^ 1074).
  change (2 ^ 1082) with (256 * 2 ^ 1074). lia. Qed.

Lemma K360_split : K360 = 45 * 2 ^ 47 * 2 ^ 1030.
Proof. vm_compute. reflexivity. Qed.

(** Just above 360 the nearest double is 360 itself, the tie
    included: its last bit is 0. *)
Lemma rnd_just_above_360 (t : Z) : K360 <= t <= K360 + 2 ^ 1029 -> rnd t = K360.
Proof.
  intros Ht. pose proof K180_binade as B. pose proof K360_double as D.
  assert (E29 : 2 ^ 1030 = 2 * 2 ^ 1029) by (vm_compute; reflexivity).
  assert (E81 : 2 ^ 1082 = 2 * 2 ^ 1081) by (vm_compute; reflexivity).
  assert (E83 : 2 ^ 1083 = 2 * 2 ^ 1082) by (vm_compute; reflexivity).
  assert (S29 : 2 ^ 1081 = 2 ^ 52 * 2 ^ 1029) by (vm_compute; reflexivity).
  assert (P52 : 0 < 2 ^ 52) by lia. assert (P29 : 0 < 2 ^ 1029) by lia.
  assert (Hlog : Z.log2 t = 1082).
  { apply Z.log2_unique; [lia|]. change (Z.succ 1082) with 1083.
    clear - Ht. unfold K360 in Ht. lia. }
  unfold rnd, lsb. rewrite Hlog. change (Z.max (1082 - 52) 0) with 1030.
  unfold rne. change (1030 <=? 0) with false. cbv iota. change (1030 - 1) with 1029.
  set (d := t - K360).
  assert (Hq : t / 2 ^ 1030 = 45 * 2 ^ 47).
  { symmetry. apply (Z.div_unique t (2 ^ 1030) (45 * 2 ^ 47) d); [lia|].
    pose proof K360_split. subst d. lia. }
  assert (Hr : t mod 2 ^ 1030 = d).
  { symmetry. apply (Z.mod_unique t (2 ^ 1030) (45 * 2 ^ 47) d); [lia|].
    pose proof K360_split. subst d. lia. }
  rewrite Hq, Hr, K360_split.
  destruct (Z.ltb_spec d (2 ^ 1029)) as [A|A]; [reflexivity|].
  destruct (Z.ltb_spec (2 ^ 1029) d) as [A'|A']; [subst d; lia|].
  reflexivity.
Qed.

Lemma rnd_fits (a : Z) : 0 <= a <= 2 ^ 2000 -> rnd a < 2 ^ 2098.
Proof.
  intros Ha. apply (rnd_no_overflow _ (2 ^ 2000)); [exact Ha| |].
  - exists (2 ^ 52). reflexivity.
  - apply Z.pow_lt_mono_r; lia.
Qed.

(** For finite doubles the difference is a finite double between 0
    and 360. *)
Theorem eastDelta_finite_range (e w : float) (ze zw : Z) :
  Zof e = Some ze -> Zof w = Some zw ->
  exists r : Z, Zof (eastDelta e w) = Some r /\ 0 <= r <= K360.
Proof.
  intros He Hw.
  destruct (normEasting_finite_range e ze He) as (a & Ha & Ba).
  destruct (normEasting_finite_range w zw Hw) as (b & Hb & Bb).
  pose proof K180_pos as P. pose proof K360_double as D. pose proof K180_binade as B.
  assert (Big : 4 * K180 <= 2 ^ 2000).
  { apply Z.le_trans with (2 ^ 1084); [|apply Z.pow_le_mono_r; lia].
    change (2 ^ 1084) with (4 * 2 ^ 1082). lia. }
  unfold eastDelta. cbv zeta. cbn [flt fadd fsub ofInt b64].
  rewrite B64Geometry.ofInt_360.
  set (e' := normEasting e) in *. set (w' := normEasting w) in *.
  rewrite (Zof_ltb e' w' a b Ha Hb).
  destruct (Z.ltb_spec a b) as [Lt|Ge].
  - (* across the antimeridian *)
    assert (Hs : Zof (360 + e')%float = Some (rnd (K360 + a))).
    { rewrite <- rndZ_nonneg by lia. apply Zof_add; [exact Zof_360 | exact Ha |].
      rewrite Z.abs_eq by lia. apply rnd_fits. lia. }
    set (zs := rnd (K360 + a)) in *.
    assert (Hlo : K180 <= zs) by (apply rnd_ge_rep; [lia | apply K180_rep]).
    assert (Hhi : zs <= 3 * K180).
    { apply rnd_le_rep; [lia|].
      pose proof (Zof_divide (540)%float (3 * K180) ltac:(vm_compute; reflexivity)) as D3.
      rewrite Z.abs_eq in D3 by lia. exact D3. }
    exists (rnd (zs - b)). split.
    + rewrite <- rndZ_nonneg by lia. apply Zof_sub; [exact Hs | exact Hb |].
      rewrite Z.abs_eq by lia. apply rnd_fits. lia.
    + split; [apply rnd_nonneg; lia|].
      assert (Ht : zs - b <= K360 + 2 ^ 1029).
      { assert (E29 : 2 ^ 1030 = 2 * 2 ^ 1029) by (vm_compute; reflexivity).
        assert (P29 : 0 < 2 ^ 1029) by lia.
        assert (Hl : 1029 <= lsb (K360 + a)).
        { apply lsb_ge_pow2; [|lia]. change (1029 + 52) with 1081. lia. }
        pose proof (rnd_above (K360 + a) ltac:(lia) ltac:(lia)) as Ab. fold zs in Ab.
        destruct (Z.lt_ge_cases (K360 + a) (2 ^ 1083)) as [Sm|Lg].
        - assert (lsb (K360 + a) <= 1030).
          { apply lsb_lt_pow2; [|lia]. change (1030 + 53) with 1083. lia. }
          assert (2 ^ (lsb (K360 + a) - 1) <= 2 ^ 1029)
            by (apply Z.pow_le_mono_r; lia).
          lia.
        - assert (lsb (K360 + a) <= 1031).
          { apply lsb_lt_pow2; [|lia]. change (1031 + 53) with (1084).
            change (2 ^ 1084) with (4 * 2 ^ 1082). lia. }
          assert (2 ^ (lsb (K360 + a) - 1) <= 2 ^ 1030)
            by (apply Z.pow_le_mono_r; lia).
          assert (E83 : 2 ^ 1083 = 4 * 2 ^ 1081) by (vm_compute; reflexivity).
          assert (E81 : 2 ^ 1081 <= a) by (unfold K360, K180 in *; lia).
          assert (Da : (2 ^ 1029 | a)).
          { apply (Zof_divide_ge e'); [exact Ha | lia |].
            change (1029 + 52) with 1081. lia. }
          assert (Db : (2 ^ 1029 | b)).
          { apply (Zof_divide_ge w'); [exact Hb | lia |].
            change (1029 + 52) with 1081. lia. }
          destruct Da as [qa Ea], Db as [qb Eb].
          assert (qa < qb) by nia. nia. }
      destruct (Z.le_gt_cases (zs - b) K360) as [Le|Gt].
      * apply rnd_le_rep; [lia | apply K360_rep].
      * rewrite rnd_just_above_360 by lia. lia.
  - exists (rnd (a - b)). split.
    + rewrite <- rndZ_nonneg by lia. apply Zof_sub; [exact Ha | exact Hb |].
      rewrite Z.abs_eq by lia. apply rnd_fits. lia.
    + split; [apply rnd_nonneg; lia|].
      apply rnd_le_rep; [lia | apply K360_rep].
Qed.

Corollary eastDelta_finite_leb (e w : float) (ze zw : Z) :
  Zof e = Some ze -> Zof w = Some zw ->
  PrimFloat.leb 0 (eastDelta e w) = true /\
  PrimFloat.leb (eastDelta e w) 360 = true.
Proof.
  intros He Hw. destruct (eastDelta_finite_range e w ze zw He Hw) as (r & Hr & Lo & Hi).
  assert (Z0 : Zof 0 = Some 0) by reflexivity.
  rewrite (Zof_leb _ _ _ _ Z0 Hr), (Zof_leb _ _ _ _ Hr Zof_360).
  split; apply Z.leb_le; assumption.
Qed.

(** *** [normEasting] is congruent to its argument below [2^55] *)

Lemma lt_pow2_lsb (z : Z) : 0 < z -> z < 2 ^ (lsb z + 53).
Proof.
  intros Hz. destruct (Z.log2_spec z Hz) as [_ Hlt].
  apply Z.lt_le_trans with (2 ^ Z.succ (Z.log2 z)); [exact Hlt|].
  apply Z.pow_le_mono_r; unfold lsb; lia.
Qed.

(** A multiple of [2^j] below [2^(j + 53)] in size is a double. *)
Lemma rndZ_divide (a j : Z) :
  0 <= j -> (2 ^ j | a) -> Z.abs a < 2 ^ (j + 53) -> rndZ a = a.
Proof.
  intros Hj D Hlt. destruct (Z.le_ge_cases 0 a) as [H|H].
  - rewrite rndZ_nonneg by exact H. apply (rnd_divide a j); [exact H|exact Hj|exact D|lia].
  - rewrite rndZ_nonpos by exact H.
    rewrite (rnd_divide (- a) j); [lia|lia|exact Hj| |lia].
    now apply Z.divide_opp_r.
Qed.

Lemma K180_split : K180 = 45 * 2 ^ 1076.
Proof. vm_compute. reflexivity. Qed.

Lemma K180_divide (j : Z) : 0 <= j <= 1076 -> (2 ^ j | K180).
Proof.
  intros Hj. apply (divide_pow2_le j 1076); [exact Hj|].
  exists 45. exact K180_split.
Qed.

Lemma K360_divide (j : Z) : 0 <= j <= 1076 -> (2 ^ j | K360).
Proof.
  intros Hj. rewrite K360_double. apply Z.divide_mul_r. now apply K180_divide.
Qed.

(** Below [2^55] degrees, taking 180 from a double beyond 180 in size
    is exact. *)
Lemma shift_180_exact (x : float) (z a : Z) :
  Zof x = Some z -> Z.abs z < 2 ^ 1129 -> K180 < Z.abs z ->
  (a = z - K180 \/ a = z + K180) -> Z.abs a < Z.abs z ->
  rndZ a = a /\ (2 ^ 1029 | a).
Proof.
  intros Hz Hsm Hbig Ha Hlt. pose proof K180_pos as P.
  pose proof (Zof_divide x z Hz) as D. apply -> Z.divide_abs_r in D.
  pose proof (lsb_nonneg (Z.abs z)) as Hj.
  assert (Hj' : lsb (Z.abs z) <= 1076).
  { apply lsb_lt_pow2; [|lia]. change (1076 + 53) with 1129. lia. }
  pose proof (K180_divide (lsb (Z.abs z)) ltac:(lia)) as DK.
  pose proof K180_binade as B.
  split.
  - apply (rndZ_divide a (lsb (Z.abs z))); [exact Hj| |].
    + destruct Ha as [->| ->]; [apply Z.divide_sub_r | apply Z.divide_add_r]; assumption.
    + pose proof (lt_pow2_lsb (Z.abs z) ltac:(lia)). lia.
  - assert (Dz : (2 ^ 1029 | z)).
    { apply (Zof_divide_ge x); [exact Hz | lia |]. change (1029 + 52) with 1081. lia. }
    pose proof (K180_divide 1029 ltac:(lia)) as D29.
    destruct Ha as [->| ->]; [apply Z.divide_sub_r | apply Z.divide_add_r]; assumption.
Qed.

(** A multiple of [2^1029] no larger than 180 in size is a double. *)
Lemma rndZ_within_180 (a : Z) : (2 ^ 1029 | a) -> Z.abs a <= K180 -> rndZ a = a.
Proof.
  intros D Ha. apply (rndZ_divide a 1029); [lia | exact D |].
  change (1029 + 53) with 1082. pose proof K180_binade. lia.
Qed.

(** For a finite double below [2^55] in size the result differs from
    it by a whole number of turns. *)
Theorem normEasting_finite_congruent (deg : float) (z : Z) :
  Zof deg = Some z -> Z.abs z < 2 ^ 1129 ->
  exists k : Z, Zof (normEasting deg) = Some (z + K360 * k).
Proof.
  intros Hz Hsm. pose proof K180_pos as P. pose proof K360_double as D.
  pose proof (K180_divide 1029 ltac:(lia)) as D180.
  pose proof (K360_divide 1029 ltac:(lia)) as D360.
  unfold normEasting. cbn [flt fadd fsub fmod ofInt b64].
  rewrite B64Geometry.ofInt_m180, B64Geometry.ofInt_180, B64Geometry.ofInt_360.
  rewrite (Zof_ltb deg (-180) z (- K180) Hz Zof_m180).
  destruct (Z.ltb_spec z (- K180)) as [Lo|Lo].
  - (* west of -180 *)
    destruct (shift_180_exact deg z (z + K180) Hz Hsm ltac:(lia) ltac:(now right) ltac:(lia))
      as [Ea Da].
    assert (Ha : Zof (deg + 180)%float = Some (z + K180)).
    { rewrite <- Ea. apply Zof_add; [exact Hz | exact Zof_180 |].
      apply (rnd_toward_zero_fits deg z); [exact Hz | lia]. }
    pose proof (Zof_Mod _ _ _ _ Ha Zof_360 ltac:(lia)) as Hm.
    pose proof (Z.rem_bound_pos_neg (z + K180) K360 ltac:(lia) ltac:(lia)) as Bm.
    pose proof (Z.quot_rem' (z + K180) K360) as QR.
    set (zm := Z.rem (z + K180) K360) in *. set (q := Z.quot (z + K180) K360) in *.
    assert (Dm : (2 ^ 1029 | zm)).
    { replace zm with (z + K180 - K360 * q) by lia.
      apply Z.divide_sub_r; [exact Da | now apply Z.divide_mul_l]. }
    exists (1 - q). replace (z + K360 * (1 - q)) with (zm + K180) by lia.
    rewrite <- (rndZ_within_180 (zm + K180));
      [|now apply Z.divide_add_r | lia].
    apply Zof_add; [exact Hm | exact Zof_180 |]. apply rnd_small_fits. lia.
  - rewrite (Zof_ltb 180 deg K180 z Zof_180 Hz).
    destruct (Z.ltb_spec K180 z) as [Hi|Hi].
    + (* east of 180 *)
      destruct (shift_180_exact deg z (z - K180) Hz Hsm ltac:(lia) ltac:(now left) ltac:(lia))
        as [Ea Da].
      assert (Ha : Zof (deg - 180)%float = Some (z - K180)).
      { rewrite <- Ea. apply Zof_sub; [exact Hz | exact Zof_180 |].
        apply (rnd_toward_zero_fits deg z); [exact Hz | lia]. }
      pose proof (Zof_Mod _ _ _ _ Ha Zof_360 ltac:(lia)) as Hm.
      pose proof (Z.rem_bound_pos (z - K180) K360 ltac:(lia) ltac:(lia)) as Bm.
      pose proof (Z.quot_rem' (z - K180) K360) as QR.
      set (zm := Z.rem (z - K180) K360) in *. set (q := Z.quot (z - K180) K360) in *.
      assert (Dm : (2 ^ 1029 | zm)).
      { replace zm with (z - K180 - K360 * q) by lia.
        apply Z.divide_sub_r; [exact Da | now apply Z.divide_mul_l]. }
      exists (- 1 - q). replace (z + K360 * (- 1 - q)) with (zm - K180) by lia.
      rewrite <- (rndZ_within_180 (zm - K180));
        [|now apply Z.divide_sub_r | lia].
      apply Zof_sub; [exact Hm | exact Zof_180 |]. apply rnd_small_fits. lia.
    + exists 0. rewrite Z.mul_0_r, Z.add_0_r. exact Hz.
Qed.

(** *** The remainder keeps the sign of the dividend *)

Lemma Mod360_scaled (x : float) (z : Z) :
  Zof x = Some z ->
  exists m : Z, Zof (fmod x (ofInt 360)) = Some m /\
                (0 <= z -> 0 <= m < K360) /\ (z <= 0 -> - K360 < m <= 0) /\
                exists k : Z, m = z - K360 * k.
Proof.
  intros Hz. pose proof K180_pos as P. pose proof K360_double as D.
  cbn [fmod ofInt b64]. rewrite B64Geometry.ofInt_360.
  exists (Z.rem z K360). split; [apply (Zof_Mod _ _ _ _ Hz Zof_360); lia|].
  split; [|split].
  - intros H. apply Z.rem_bound_pos; lia.
  - intros H. pose proof (Z.rem_bound_pos_neg z K360 ltac:(lia) H). lia.
  - exists (Z.quot z K360). pose proof (Z.quot_rem' z K360). lia.
Qed.

(** *** Values as rationals *)

Lemma denom_pow : Z.pos B64.denom = 2 ^ 1074.
Proof. vm_compute. reflexivity. Qed.

Lemma K180_units : K180 = 180 * Z.pos B64.denom.
Proof. now rewrite denom_pow. Qed.

Lemma K360_units : K360 = 360 * Z.pos B64.denom.
Proof. now rewrite denom_pow. Qed.

Lemma value_scaled (x : float) (q : Q) :
  B64.value x = Some q -> exists z : Z, Zof x = Some z /\ q = z # B64.denom.
Proof.
  unfold B64.value. destruct (Zof x) as [z|]; [|discriminate].
  intros E. injection E as <-. now exists z.
Qed.

Lemma scaled_value (x : float) (z : Z) :
  Zof x = Some z -> B64.value x = Some (z # B64.denom).
Proof. unfold B64.value. now intros ->. Qed.

Lemma units_le (n a : Z) (d : positive) : (inject_Z n <= a # d)%Q <-> n * Z.pos d <= a.
Proof. unfold Qle, inject_Z. cbn [Qnum Qden]. lia. Qed.

Lemma units_ge (n a : Z) (d : positive) : (a # d <= inject_Z n)%Q <-> a <= n * Z.pos d.
Proof. unfold Qle, inject_Z. cbn [Qnum Qden]. lia. Qed.

Lemma units_lt (n a : Z) (d : positive) : (inject_Z n < a # d)%Q <-> n * Z.pos d < a.
Proof. unfold Qlt, inject_Z. cbn [Qnum Qden]. lia. Qed.

Lemma units_gt (n a : Z) (d : positive) : (a # d < inject_Z n)%Q <-> a < n * Z.pos d.
Proof. unfold Qlt, inject_Z. cbn [Qnum Qden]. lia. Qed.

Lemma units_add (a n : Z) (d : positive) :
  ((a + n * Z.pos d) # d == (a # d) + inject_Z n)%Q.
Proof.
  unfold Qeq, Qplus, inject_Z. cbn [Qnum Qden]. rewrite Pos2Z.inj_mul. ring.
Qed.

(** For every finite double the result is a number between -180 and
    180, and below [2^55] in size it differs from the argument by a
    whole number of turns. *)
Theorem normEasting_finite (deg : float) (q : Q) :
  B64.value deg = Some q ->
  exists r : Q,
    B64.value (normEasting deg) = Some r /\
    (-(180) <= r <= 180)%Q /\
    ((- inject_Z (2 ^ 55) < q < inject_Z (2 ^ 55))%Q ->
     exists k : Z, (r == q + 360 * inject_Z k)%Q).
Proof.
  intros Hq. destruct (value_scaled _ _ Hq) as (z & Hz & ->).
  destruct (normEasting_finite_range deg z Hz) as (r & Hr & Lo & Hi).
  exists (r # B64.denom). split; [now apply scaled_value|]. split.
  - change (-(180))%Q with (inject_Z (-180)). change 180%Q with (inject_Z 180).
    rewrite units_le, units_ge. rewrite K180_units in Lo, Hi. lia.
  - change (- inject_Z (2 ^ 55))%Q with (inject_Z (- 2 ^ 55)).
    rewrite units_lt, units_gt. intros [Hl Hh].
    destruct (normEasting_finite_congruent deg z Hz) as (k & Hk).
    { rewrite denom_pow in Hl, Hh.
      change (2 ^ 1129) with (2 ^ 55 * 2 ^ 1074). lia. }
    exists k. assert (E : r = z + K360 * k) by congruence.
    change 360%Q with (inject_Z 360).
    rewrite <- inject_Z_mult, E, K360_units, <- units_add.
    now replace (360 * Z.pos B64.denom * k) with (360 * k * Z.pos B64.denom) by ring.
Qed.

(** For finite doubles the difference is a number between 0 and 360. *)
Theorem eastDelta_finite (e w : float) (qe qw : Q) :
  B64.value e = Some qe -> B64.value w = Some qw ->
  exists r : Q, B64.value (eastDelta e w) = Some r /\ (0 <= r <= 360)%Q.
Proof.
  intros He Hw.
  destruct (value_scaled _ _ He) as (ze & Hze & _), (value_scaled _ _ Hw) as (zw & Hzw & _).
  destruct (eastDelta_finite_range e w ze zw Hze Hzw) as (r & Hr & Lo & Hi).
  exists (r # B64.denom). split; [now apply scaled_value|].
  change 0%Q with (inject_Z 0). change 360%Q with (inject_Z 360).
  rewrite units_le, units_ge. rewrite K360_units in Hi. lia.
Qed.

(** The remainder of a finite double by 360 is exact and has the sign
    of the double. *)
Theorem Mod360_finite (x : float) (q : Q) :
  B64.value x = Some q ->
  exists m : Q,
    B64.value (fmod x (ofInt 360)) = Some m /\
    ((0 <= q -> 0 <= m /\ m < 360) /\ (q <= 0 -> -(360) < m /\ m <= 0))%Q /\
    exists k : Z, (m == q + 360 * inject_Z k)%Q.
Proof.
  intros Hq. destruct (value_scaled _ _ Hq) as (z & Hz & ->).
  destruct (Mod360_scaled x z Hz) as (m & Hm & Hpos & Hneg & k & Hk).
  exists (m # B64.denom). split; [now apply scaled_value|].
  change (-(360))%Q with (inject_Z (-360)).
  change 0%Q with (inject_Z 0). change 360%Q with (inject_Z 360).
  rewrite !units_le, !units_ge, units_lt, units_gt. rewrite K360_units in Hpos, Hneg.
  split; [split; intros H; [apply Hpos in H|apply Hneg in H]; lia|].
  exists (- k). rewrite <- inject_Z_mult, Hk, K360_units, <- units_add.
  now replace (z - 360 * Z.pos B64.denom * k) with (z + 360 * - k * Z.pos B64.denom) by ring.
Qed.

End B64Round.

(** C4, as the code has it.  For every finite double [normEasting]
    returns a number between -180 and 180, and when the double is
    below [2^55] in size the result differs from it by a whole number
    of turns.  The remainder it takes is exact and has the sign of its
    first operand.  A double between -180 and 180 is returned
    unchanged and the seven vectors hold exactly.  Without rounding
    the result differs from every degree value by a whole number of
    turns. *)
Theorem normEasting_normalizes :
  (forall (deg : float) (q : Q),
      B64.value deg = Some q ->
      exists r : Q,
        B64.value (normEasting deg) = Some r /\
        (-(180) <= r <= 180)%Q /\
        ((- inject_Z (2 ^ 55) < q < inject_Z (2 ^ 55))%Q ->
         exists k : Z, (r == q + 360 * inject_Z k)%Q)) /\
  (forall (x : float) (q : Q),
      B64.value x = Some q ->
      exists m : Q,
        B64.value (fmod x (ofInt 360)) = Some m /\
        ((0 <= q -> 0 <= m /\ m < 360) /\ (q <= 0 -> -(360) < m /\ m <= 0))%Q /\
        exists k : Z, (m == q + 360 * inject_Z k)%Q) /\
  (forall deg : float,
      PrimFloat.leb (-180) deg = true -> PrimFloat.leb deg 180 = true ->
      normEasting deg = deg) /\
  (normEasting 180 = 180 /\ normEasting (-180) = -180 /\ normEasting (-185) = 175 /\
   normEasting (-360) = 0 /\ normEasting 360 = 0 /\ normEasting 420 = 60 /\
   normEasting (-420) = -60)%float /\
  (forall deg : Q,
      (-(180) <= normEasting deg <= 180)%Q /\
      exists k : Z, (normEasting deg == deg + 360 * inject_Z k)%Q).
Proof.
  split; [exact B64Round.normEasting_finite|].
  split; [exact B64Round.Mod360_finite|].
  split; [exact B64Geometry.normEasting_in_range|].
  split; [repeat apply conj; vm_compute; reflexivity|].
  intros deg. split; [apply ExactFacts.normEasting_range | apply ExactFacts.normEasting_congruent].
Qed.

Lemma normEasting_normalizes_witness :
  (exists q r : Q,
      B64.value 725.5%float = Some q /\ B64.value (normEasting 725.5%float) = Some r /\
      (-(180) <= r <= 180)%Q /\ exists k : Z, (r == q + 360 * inject_Z k)%Q) /\
  (exists q m : Q,
      B64.value (-725.5)%float = Some q /\ B64.value (fmod (-725.5)%float (ofInt 360)) = Some m /\
      (-(360) < m /\ m <= 0)%Q) /\
  normEasting 90%float = 90%float.
Proof.
  destruct normEasting_normalizes as (Hfin & Hmod & Hid & _).
  split; [|split].
  - eexists.
    assert (Hq : B64.value 725.5%float = Some _) by (vm_compute; reflexivity).
    destruct (Hfin _ _ Hq) as (r & Hr & Hb & Hk).
    exists r. repeat split; try assumption; try apply Hb.
    apply Hk. split; vm_compute; reflexivity.
  - eexists.
    assert (Hq : B64.value (-725.5)%float = Some _) by (vm_compute; reflexivity).
    destruct (Hmod _ _ Hq) as (m & Hm & [_ Hneg] & _).
    exists m. repeat split; try assumption; apply Hneg; vm_compute; discriminate.
  - apply (Hid 90%float); vm_compute; reflexivity.
Defined.

(** C4, as the claim words it, fails on doubles: normEasting(1e17) is
    -76, which is 4 short of a whole number of turns from 1e17,
    because 1e17 - 180 is not a double and rounds to 1e17 - 176. *)
Lemma normEasting_1e17_not_congruent :
  ~ (forall (deg : float) (q : Q),
        B64.value deg = Some q ->
        exists (r : Q) (k : Z),
          B64.value (normEasting deg) = Some r /\
          (-(180) <= r <= 180)%Q /\ (r == q + 360 * inject_Z k)%Q).
Proof.
  intros claim.
  assert (Hq : B64.value 1e17%float = Some (100000000000000000 * Z.pos B64.denom # B64.denom))
    by (vm_compute; reflexivity).
  assert (Hn : B64.value (normEasting 1e17%float) = Some (-76 * Z.pos B64.denom # B64.denom))
    by (vm_compute; reflexivity).
  destruct (claim _ _ Hq) as (r & k & Hr & _ & Hk).
  assert (E : r = (-76 * Z.pos B64.denom # B64.denom)) by congruence. subst r.
  assert (Hz : (inject_Z (360 * k + 100000000000000076) == 0)%Q).
  { assert (A : forall n : Z, (n * Z.pos B64.denom # B64.denom == inject_Z n)%Q).
    { intros n. unfold Qeq, inject_Z. cbn [Qnum Qden]. ring. }
    rewrite !A in Hk.
    rewrite inject_Z_plus, inject_Z_mult.
    change (inject_Z 360) with 360%Q.
    change (inject_Z 100000000000000076) with (100000000000000076 # 1)%Q.
    change (inject_Z 100000000000000000) with (100000000000000000 # 1)%Q in Hk.
    change (inject_Z (-76)) with (-76 # 1)%Q in Hk.
    lra. }
  apply ExactFacts.inject_Z_zero in Hz. lia.
Qed.

(** C3, as the code has it.  [eastDelta] normalizes both longitudes
    and returns e - w when e >= w and 360 + e - w otherwise.  For
    every pair of finite doubles the result is a number between 0 and
    360, and the five vectors hold exactly.  Without rounding the
    result is 0 exactly when the two normalized longitudes name the
    same meridian. *)
Theorem eastDelta_span :
  (forall e w : float,
      eastDelta e w =
      (let e' := normEasting e in
       let w' := normEasting w in
       if PrimFloat.leb w' e' then e' - w' else 360 + e' - w')%float) /\
  (forall (e w : float) (qe qw : Q),
      B64.value e = Some qe -> B64.value w = Some qw ->
      exists r : Q, B64.value (eastDelta e w) = Some r /\ (0 <= r <= 360)%Q) /\
  (eastDelta 10 0 = 10 /\ eastDelta (-100) (-120) = 20 /\ eastDelta 10 (-10) = 20 /\
   eastDelta (-170) 170 = 20 /\ eastDelta 170 178 = 352)%float /\
  (forall e w : Q,
      (eastDelta e w == 0 <->
       normEasting e == normEasting w \/
       (normEasting e == -(180) /\ normEasting w == 180))%Q).
Proof.
  split; [exact B64Geometry.eastDelta_by_ge|].
  split; [exact B64Round.eastDelta_finite|].
  split; [repeat apply conj; vm_compute; reflexivity|].
  exact ExactFacts.eastDelta_zero.
Qed.

Lemma eastDelta_span_witness :
  exists qe qw r : Q,
    B64.value (-179.9)%float = Some qe /\ B64.value 179.9%float = Some qw /\
    B64.value (eastDelta (-179.9) 179.9)%float = Some r /\ (0 <= r <= 360)%Q.
Proof.
  destruct eastDelta_span as (_ & Hfin & _).
  do 2 eexists.
  assert (He : B64.value (-179.9)%float = Some _) by (vm_compute; reflexivity).
  assert (Hw : B64.value 179.9%float = Some _) by (vm_compute; reflexivity).
  destruct (Hfin _ _ _ _ He Hw) as (r & Hr & Hb).
  exists r. repeat split; try assumption; apply Hb.
Defined.

(** C3, as the claim words it, fails: eastDelta(10, 10) is 0, which is
    not in (0, 360]. *)
Lemma eastDelta_equal_longitudes_zero :
  ~ (forall (e w : float) (qe qw : Q),
        B64.value e = Some qe -> B64.value w = Some qw ->
        exists r : Q, B64.value (eastDelta e w) = Some r /\ (0 < r <= 360)%Q).
Proof.
  intros claim.
  assert (Hq : B64.value 10%float = Some (10 * Z.pos B64.denom # B64.denom))
    by (vm_compute; reflexivity).
  assert (Hn : B64.value (eastDelta 10%float 10%float) = Some (0 # B64.denom))
    by (vm_compute; reflexivity).
  destruct (claim _ _ _ _ Hq Hq) as (r & Hr & Hpos & _).
  assert (E : r = (0 # B64.denom)) by congruence. subst r.
  unfold Qlt in Hpos. cbn [Qnum Qden] in Hpos. lia.
Qed.

(** * Further properties *)

(** ** Doubles: NaN, the infinities and fixed points *)

Module B64Edges.

Import Rounding B64Facts B64Round.

(** A double with no scaled value is NaN or an infinity. *)
Lemma not_finite_cases (x : float) :
  B64.scaled x = None -> x = nan \/ x = infinity \/ x = neg_infinity.
Proof.
  unfold B64.scaled. intros E. rewrite <- (SF2Prim_Prim2SF x).
  destruct (Prim2SF x) as [s|[]| |s m e]; try discriminate; auto.
Qed.

Lemma finite_not_nan (x : float) (z : Z) : B64.scaled x = Some z -> x <> nan.
Proof. intros E ->. discriminate. Qed.

Lemma ltb_nan_r (a : float) : PrimFloat.ltb a nan = false.
Proof.
  rewrite ltb_spec. change (Prim2SF nan) with S754_nan.
  unfold SFltb. now destruct (Prim2SF a) as [[]|[]| |[] ? ?].
Qed.

Lemma ltb_nan_l (a : float) : PrimFloat.ltb nan a = false.
Proof. rewrite ltb_spec. reflexivity. Qed.

Lemma leb_nan_l (a : float) : PrimFloat.leb nan a = false.
Proof. rewrite leb_spec. reflexivity. Qed.

Lemma leb_nan_r (a : float) : PrimFloat.leb a nan = false.
Proof.
  rewrite leb_spec. change (Prim2SF nan) with S754_nan.
  unfold SFleb. now destruct (Prim2SF a) as [[]|[]| |[] ? ?].
Qed.

Lemma eqb_nan_l (a : float) : PrimFloat.eqb nan a = false.
Proof. rewrite eqb_spec. reflexivity. Qed.

Lemma eqb_nan_r (a : float) : PrimFloat.eqb a nan = false.
Proof.
  rewrite eqb_spec. change (Prim2SF nan) with S754_nan.
  unfold SFeqb. now destruct (Prim2SF a) as [[]|[]| |[] ? ?].
Qed.

(** Numbers that are not ordered one way are ordered the other. *)
Lemma not_ltb_leb (a b : float) :
  a <> nan -> b <> nan -> PrimFloat.ltb a b = false -> PrimFloat.leb b a = true.
Proof.
  intros Ha Hb Hlt. destruct (PrimFloat.leb b a) eqn:Hle; [reflexivity|].
  destruct (unordered_nan a b Hlt Hle) as [N|N]; apply is_nan_of_spec in N; contradiction.
Qed.

Lemma not_leb_ltb (a b : float) :
  a <> nan -> b <> nan -> PrimFloat.leb a b = false -> PrimFloat.ltb b a = true.
Proof.
  intros Ha Hb Hle. destruct (PrimFloat.ltb b a) eqn:Hlt; [reflexivity|].
  destruct (unordered_nan b a Hlt Hle) as [N|N]; apply is_nan_of_spec in N; contradiction.
Qed.

Lemma Zof_eqb (x y : float) (zx zy : Z) :
  B64.scaled x = Some zx -> B64.scaled y = Some zy -> PrimFloat.eqb x y = (zx =? zy).
Proof.
  intros Hx Hy. rewrite eqb_spec. unfold SFeqb.
  rewrite (SFcompare_value _ _ zx zy) by auto using Prim2SF_valid.
  destruct (Z.compare_spec zx zy) as [->|L|L]; symmetry;
    [apply Z.eqb_refl | apply Z.eqb_neq; lia | apply Z.eqb_neq; lia].
Qed.

(** *** [normEasting] on every double *)

Lemma normEasting_not_finite (deg : float) :
  B64.scaled deg = None -> normEasting deg = nan.
Proof.
  intros E. destruct (not_finite_cases deg E) as [->|[->| ->]]; vm_compute; reflexivity.
Qed.

Lemma normEasting_scaled (deg : float) (z : Z) :
  B64.scaled deg = Some z -> exists r, B64.scaled (normEasting deg) = Some r.
Proof.
  intros E. destruct (normEasting_finite_range deg z E) as (r & Hr & _). now exists r.
Qed.

Lemma normEasting_fixed (deg : float) : normEasting (normEasting deg) = normEasting deg.
Proof.
  destruct (B64.scaled deg) as [z|] eqn:E.
  - destruct (normEasting_finite_leb deg z E) as [Lo Hi].
    now apply B64Geometry.normEasting_in_range.
  - rewrite (normEasting_not_finite deg E). vm_compute. reflexivity.
Qed.

End B64Edges.

(** X1.  Normalizing twice is normalizing once, for every double, NaN
    and the infinities included. *)
Theorem normEasting_idempotent (deg : float) :
  normEasting (normEasting deg) = normEasting deg.
Proof. apply B64Edges.normEasting_fixed. Qed.

(** X2.  [normEasting] returns NaN exactly when it is given NaN or an
    infinity, and it never returns an infinity. *)
Theorem normEasting_nan_exactly (deg : float) :
  (normEasting deg = nan <-> deg = nan \/ deg = infinity \/ deg = neg_infinity) /\
  normEasting deg <> infinity /\ normEasting deg <> neg_infinity.
Proof.
  destruct (B64.scaled deg) as [z|] eqn:E.
  - destruct (B64Edges.normEasting_scaled deg z E) as (r & Hr).
    split; [split|split].
    + intros N. rewrite N in Hr. discriminate.
    + intros [->|[->| ->]]; discriminate.
    + intros N. rewrite N in Hr. discriminate.
    + intros N. rewrite N in Hr. discriminate.
  - pose proof (B64Edges.normEasting_not_finite deg E) as N.
    split; [split|split].
    + intros _. now apply B64Edges.not_finite_cases.
    + intros _. exact N.
    + rewrite N. discriminate.
    + rewrite N. discriminate.
Qed.

Module B64EastDelta.

Import Rounding B64Facts B64Round B64Edges.

(** *** [eastDelta] on every pair of doubles *)

Lemma eastDelta_not_finite (e w : float) :
  B64.scaled e = None \/ B64.scaled w = None -> eastDelta e w = nan.
Proof.
  intros Hn. rewrite B64Geometry.eastDelta_by_ge. cbv zeta.
  destruct Hn as [E|E]; rewrite (normEasting_not_finite _ E).
  - rewrite leb_nan_r. now rewrite add_nan_r, sub_nan_l.
  - rewrite leb_nan_l. now rewrite sub_nan_r.
Qed.

(** A positive number does not round to 0. *)
Lemma rnd_pos (a : Z) : 0 < a -> 0 < rnd a.
Proof.
  intros Ha. assert (1 <= rnd a); [|lia].
  apply rnd_ge_rep; [lia|]. exists 1. reflexivity.
Qed.

Lemma rnd_zero (a : Z) : 0 <= a -> (rnd a = 0 <-> a = 0).
Proof.
  intros Ha. split; [|now intros ->].
  intros E. destruct (Z.eq_dec a 0) as [|N]; [assumption|].
  pose proof (rnd_pos a ltac:(lia)). lia.
Qed.

(** The double next above 180. *)
Lemma above_180_rep : (2 ^ lsb (K180 + 2 ^ 1029) | K180 + 2 ^ 1029).
Proof.
  pose proof (B64Round.Zof_divide (0x1.6800000000001p7)%float (K180 + 2 ^ 1029)
                ltac:(vm_compute; reflexivity)) as D.
  rewrite Z.abs_eq in D; [exact D|]. pose proof K180_pos. lia.
Qed.

(** A double above -180 and at most 180 is at least one step of
    [2^-45] above it. *)
Lemma step_above_m180 (x : float) (a : Z) :
  B64.scaled x = Some a -> - K180 < a -> - K180 + 2 ^ 1029 <= a.
Proof.
  intros Ha Hlt. pose proof K180_binade as B.
  assert (E81 : 2 ^ 1081 = 2 ^ 52 * 2 ^ 1029) by (vm_compute; reflexivity).
  assert (P29 : 0 < 2 ^ 1029) by lia.
  destruct (Z.le_gt_cases a (- 2 ^ 1081)) as [L|G]; [|clear - G; unfold K180; lia].
  assert (Da : (2 ^ 1029 | a)).
  { apply (Zof_divide_ge x); [exact Ha | lia |]. change (1029 + 52) with 1081. lia. }
  pose proof (K180_divide 1029 ltac:(lia)) as DK.
  destruct Da as [qa Ea], DK as [qk Ek]. rewrite Ea, Ek in *. nia.
Qed.

(** The difference is 0 exactly when the normalized longitudes are
    equal or are -180 and 180. *)
Lemma eastDelta_scaled_zero (e w : float) (a b : Z) :
  B64.scaled (normEasting e) = Some a -> B64.scaled (normEasting w) = Some b ->
  - K180 <= a <= K180 -> - K180 <= b <= K180 ->
  exists r, B64.scaled (eastDelta e w) = Some r /\
            (r = 0 <-> a = b \/ (a = - K180 /\ b = K180)).
Proof.
  intros Ha Hb Ba Bb.
  pose proof K180_pos as P. pose proof K360_double as D. pose proof K180_binade as B.
  assert (Big : 4 * K180 <= 2 ^ 2000).
  { apply Z.le_trans with (2 ^ 1084); [|apply Z.pow_le_mono_r; lia].
    change (2 ^ 1084) with (4 * 2 ^ 1082). lia. }
  unfold eastDelta. cbv zeta. cbn [flt fadd fsub ofInt b64].
  rewrite B64Geometry.ofInt_360.
  set (e' := normEasting e) in *. set (w' := normEasting w) in *.
  rewrite (Zof_ltb e' w' a b Ha Hb).
  destruct (Z.ltb_spec a b) as [Lt|Ge].
  - assert (Hs : B64.scaled (360 + e')%float = Some (rnd (K360 + a))).
    { rewrite <- rndZ_nonneg by lia. apply Zof_add; [exact Zof_360 | exact Ha |].
      rewrite Z.abs_eq by lia. apply rnd_fits. lia. }
    set (zs := rnd (K360 + a)) in *.
    assert (Hlo : K180 <= zs) by (apply rnd_ge_rep; [lia | apply K180_rep]).
    assert (Hhi : zs <= 3 * K180).
    { apply rnd_le_rep; [lia|].
      pose proof (B64Round.Zof_divide (540)%float (3 * K180) ltac:(vm_compute; reflexivity)) as D3.
      rewrite Z.abs_eq in D3 by lia. exact D3. }
    exists (rnd (zs - b)). split.
    + rewrite <- rndZ_nonneg by lia. apply Zof_sub; [exact Hs | exact Hb |].
      rewrite Z.abs_eq by lia. apply rnd_fits. lia.
    + rewrite rnd_zero by lia. split.
      * intros E0. right.
        destruct (Z.eq_dec a (- K180)) as [Ea|Na]; [lia|exfalso].
        pose proof (step_above_m180 e' a Ha ltac:(lia)) as St.
        assert (K180 + 2 ^ 1029 <= zs).
        { apply rnd_ge_rep; [|apply above_180_rep].
          assert (0 < 2 ^ 1029) by lia. lia. }
        assert (0 < 2 ^ 1029) by lia. lia.
      * intros [E|[Ea Eb]]; [lia|].
        subst zs. replace (K360 + a) with K180 by lia.
        rewrite (rnd_lsb K180) by (try lia; apply K180_rep). lia.
  - exists (rnd (a - b)). split.
    + rewrite <- rndZ_nonneg by lia. apply Zof_sub; [exact Ha | exact Hb |].
      rewrite Z.abs_eq by lia. apply rnd_fits. lia.
    + rewrite rnd_zero by lia. lia.
Qed.

End B64EastDelta.

(** X3.  [eastDelta] returns NaN exactly when one of the two
    longitudes is NaN or an infinity, and it never returns an
    infinity. *)
Theorem eastDelta_nan_exactly (e w : float) :
  (eastDelta e w = nan <-> B64.value e = None \/ B64.value w = None) /\
  eastDelta e w <> infinity /\ eastDelta e w <> neg_infinity.
Proof.
  unfold B64.value.
  destruct (B64.scaled e) as [ze|] eqn:Ee, (B64.scaled w) as [zw|] eqn:Ew; cbn [option_map].
  1:{ destruct (B64Round.eastDelta_finite_range e w ze zw Ee Ew) as (r & Hr & _).
      repeat split; try (intros N; rewrite N in Hr; discriminate).
      intros [N|N]; discriminate. }
  all: assert (N : eastDelta e w = nan)
    by (apply B64EastDelta.eastDelta_not_finite; rewrite ?Ee, ?Ew; auto);
    rewrite N; repeat split; auto; discriminate.
Qed.

(** X4.  For all doubles, [eastDelta] is 0 (as Go's [==] compares)
    exactly when the normalized longitudes are equal, or the east one
    is -180 and the west one 180. *)
Theorem eastDelta_zero_exactly (e w : float) :
  PrimFloat.eqb (eastDelta e w) 0 = true <->
  PrimFloat.eqb (normEasting e) (normEasting w) = true \/
  (PrimFloat.eqb (normEasting e) (-180) = true /\
   PrimFloat.eqb (normEasting w) 180 = true).
Proof.
  assert (Z0 : B64.scaled 0 = Some 0) by reflexivity.
  destruct (B64.scaled e) as [ze|] eqn:Ee.
  2:{ rewrite (B64EastDelta.eastDelta_not_finite e w) by auto.
      rewrite (B64Edges.normEasting_not_finite e Ee), !B64Edges.eqb_nan_l.
      split; [discriminate | intros [N|[N _]]; discriminate]. }
  destruct (B64.scaled w) as [zw|] eqn:Ew.
  2:{ rewrite (B64EastDelta.eastDelta_not_finite e w) by auto.
      rewrite (B64Edges.normEasting_not_finite w Ew), B64Edges.eqb_nan_l, B64Edges.eqb_nan_r.
      split; [discriminate | intros [N|[_ N]]; discriminate]. }
  destruct (B64Round.normEasting_finite_range e ze Ee) as (a & Ha & Ba).
  destruct (B64Round.normEasting_finite_range w zw Ew) as (b & Hb & Bb).
  destruct (B64EastDelta.eastDelta_scaled_zero e w a b Ha Hb Ba Bb) as (r & Hr & Hiff).
  rewrite (B64Edges.Zof_eqb _ _ _ _ Hr Z0), (B64Edges.Zof_eqb _ _ _ _ Ha Hb),
    (B64Edges.Zof_eqb _ _ _ _ Ha B64Round.Zof_m180), (B64Edges.Zof_eqb _ _ _ _ Hb B64Round.Zof_180).
  rewrite !Z.eqb_eq. exact Hiff.
Qed.

(** ** [NewMapTile] and [delta] on doubles *)

(** X5.  A tile that [NewMapTile] returns holds the given path and
    pixel size; when north and south are numbers they satisfy
    -90 <= south <= north <= 90; an east or west given as a finite
    double is stored within [-180, 180]; and the stored east and west
    are unchanged by [normEasting]. *)
Theorem NewMapTile_box_invariant
        (fp : string) (wid high : Z) (n s e w : float) (t : mapTile float) :
  NewMapTile fp wid high n s e w = Ret t ->
  (fpath t = fp /\ width t = wid /\ height t = high) /\
  (n <> nan -> s <> nan ->
   PrimFloat.leb (-90) (at4 (box t) south) = true /\
   PrimFloat.leb (at4 (box t) south) (at4 (box t) north) = true /\
   PrimFloat.leb (at4 (box t) north) 90 = true) /\
  (B64.value e <> None ->
   PrimFloat.leb (-180) (at4 (box t) east) = true /\
   PrimFloat.leb (at4 (box t) east) 180 = true) /\
  (B64.value w <> None ->
   PrimFloat.leb (-180) (at4 (box t) west) = true /\
   PrimFloat.leb (at4 (box t) west) 180 = true) /\
  normEasting (at4 (box t) east) = at4 (box t) east /\
  normEasting (at4 (box t) west) = at4 (box t) west.
Proof.
  intros Hret.
  assert (Hp : panics (NewMapTile fp wid high n s e w) = false) by now rewrite Hret.
  apply NewMapTile_ret in Hret. subst t. cbn [fpath width height box at4 bN bS bE bW].
  split; [auto|]. split; [|split; [|split; [|split]]].
  - intros Hn Hs.
    unfold NewMapTile in Hp. cbn [flt ofInt b64] in Hp.
    change (B64.ofInt 90) with 90%float in Hp. change (B64.ofInt (-90)) with (-90)%float in Hp.
    destruct (PrimFloat.ltb 90 n) eqn:E1; [discriminate|].
    destruct (PrimFloat.ltb s (-90)) eqn:E2; [discriminate|].
    destruct (PrimFloat.ltb n s) eqn:E3; [discriminate|].
    repeat split; apply B64Edges.not_ltb_leb; try assumption; discriminate.
  - unfold B64.value. destruct (B64.scaled e) as [z|] eqn:E; [|now intros []].
    intros _. exact (B64Round.normEasting_finite_leb e z E).
  - unfold B64.value. destruct (B64.scaled w) as [z|] eqn:E; [|now intros []].
    intros _. exact (B64Round.normEasting_finite_leb w z E).
  - apply B64Edges.normEasting_fixed.
  - apply B64Edges.normEasting_fixed.
Qed.

Lemma NewMapTile_box_invariant_witness :
  exists t : mapTile float,
    NewMapTile "m.jpg" 2048 1024 49.5%float 49.25%float (-237)%float 540%float = Ret t /\
    PrimFloat.leb (-90) (at4 (box t) south) = true /\
    PrimFloat.leb (at4 (box t) south) (at4 (box t) north) = true /\
    PrimFloat.leb (at4 (box t) north) 90 = true /\
    PrimFloat.leb (-180) (at4 (box t) east) = true /\
    PrimFloat.leb (at4 (box t) east) 180 = true /\
    PrimFloat.leb (-180) (at4 (box t) west) = true /\
    PrimFloat.leb (at4 (box t) west) 180 = true.
Proof.
  eexists. split; [vm_compute; reflexivity|].
  destruct (NewMapTile_box_invariant "m.jpg" 2048 1024 49.5%float 49.25%float (-237)%float 540%float _ eq_refl)
    as (_ & Hlat & He & Hw & _).
  destruct Hlat as (A & B & C); [discriminate | discriminate |].
  destruct He as (D & E); [discriminate|].
  destruct Hw as (G & I); [discriminate|].
  repeat split; assumption.
Defined.

(** X6.  [delta] and [eastDelta] give the same result on the
    normalized longitudes a map tile stores as on the longitudes it
    was built from. *)
Theorem delta_ignores_normalizing
        (tileWidth tileHeight totWidth totHeight : Z) (n s e w : float) :
  delta tileWidth tileHeight (Box n s (normEasting e) (normEasting w)) totWidth totHeight
  = delta tileWidth tileHeight (Box n s e w) totWidth totHeight /\
  eastDelta (normEasting e) (normEasting w) = eastDelta e w.
Proof.
  assert (E : eastDelta (normEasting e) (normEasting w) = eastDelta e w).
  { unfold eastDelta. now rewrite !B64Edges.normEasting_fixed. }
  split; [|exact E]. unfold delta. cbn [at4 bN bS bE bW]. now rewrite E.
Qed.

Module B64Scale.

Import Rounding B64Facts B64Round.

(** A finite double other than 0 divided by itself is 1. *)
Lemma div_self (x : float) (s : bool) (m : positive) (e : Z) :
  Prim2SF x = S754_finite s m e -> (x / x)%float = 1%float.
Proof.
  intros E. apply Prim2SF_inj. rewrite div_spec, E.
  unfold SF64div, SFdiv, SFdiv_core_binary. rewrite !Z.sub_diag.
  change (Z.min (fexp prec emax 0) 0) with (-53). change (0 - -53) with 53.
  cbv iota. rewrite Z.shiftl_mul_pow2 by lia.
  assert (Hd : Z.div_eucl (Z.pos m * 2 ^ 53) (Z.pos m) = (2 ^ 53, 0)).
  { rewrite (Z.mul_comm (Z.pos m)).
    pose proof (Z.div_mul (2 ^ 53) (Z.pos m) ltac:(lia)) as Eq.
    pose proof (Z.mod_mul (2 ^ 53) (Z.pos m) ltac:(lia)) as Er.
    unfold Z.div in Eq. unfold Z.modulo in Er.
    destruct (Z.div_eucl (2 ^ 53 * Z.pos m) (Z.pos m)) as [q r]. congruence. }
  rewrite Hd.
  assert (Hl : new_location (Z.pos m) 0 = loc_Exact)
    by (unfold new_location; destruct (Z.even (Z.pos m)); reflexivity).
  rewrite Hl, xorb_nilpotent.
  vm_compute. reflexivity.
Qed.

(** 1 times a double is that double. *)
Lemma mul_one_l (y : float) : (1 * y)%float = y.
Proof.
  apply Prim2SF_inj. rewrite mul_spec.
  change (Prim2SF 1) with (S754_finite false 4503599627370496 (-52)).
  pose proof (Prim2SF_valid y) as V.
  destruct (Prim2SF y) as [sy|sy| |sy my ey]; try reflexivity.
  unfold SF64mul, SFmul. cbn [xorb].
  cbn [SpecFloat.valid_binary] in V. unfold bounded, canonical_mantissa in V.
  apply andb_true_iff in V as [Hc Hb]. apply Z.eqb_eq in Hc. apply Z.leb_le in Hb.
  assert (Hm : Z.pos (4503599627370496 * my) = Z.pos my * 2 ^ 52) by lia.
  assert (Hdig : Z.pos (digits2_pos (4503599627370496 * my)) = Z.pos (digits2_pos my) + 52).
  { rewrite !digits2_log2, Hm, Z.log2_mul_pow2 by lia. lia. }
  unfold binary_round_aux, shr_fexp, shr at 1.
  cbn [Zdigits2 shr_record_of_loc]. rewrite Hdig.
  replace (Z.pos (digits2_pos my) + 52 + (-52 + ey)) with (Z.pos (digits2_pos my) + ey) by lia.
  rewrite Hc. replace (ey - (-52 + ey)) with 52 by lia.
  rewrite iter_pos_nat. change (Pos.to_nat 52) with (S 51).
  rewrite iter_shr_1 by lia. rewrite round_shifted by lia.
  change (Z.of_nat 52) with 52. rewrite Hm, rne_exact by lia.
  unfold shr. cbn [Zdigits2 shr_record_of_loc].
  replace (-52 + ey + 52) with ey by lia. rewrite Hc, Z.sub_diag. cbn [shr_m].
  destruct (Z.leb_spec ey (emax - prec)) as [_|L]; [reflexivity|lia].
Qed.

(** float64 of a nonzero int is a finite double other than 0. *)
Lemma ofInt_finite (z : Z) :
  z <> 0 -> - 2 ^ 63 <= z < 2 ^ 63 ->
  exists s m e, Prim2SF (B64.ofInt z) = S754_finite s m e.
Proof.
  intros Hz Hr. unfold B64.ofInt.
  assert (Hov : rnd (Z.abs (z * 2 ^ (0 + 1074))) < 2 ^ 2098).
  { apply rnd_fits. split; [lia|]. rewrite Z.abs_mul.
    change (0 + 1074) with 1074. rewrite (Z.abs_eq (2 ^ 1074)) by lia.
    apply Z.le_trans with (2 ^ 63 * 2 ^ 1074); [|rewrite <- Z.pow_add_r by lia;
                                                  apply Z.pow_le_mono_r; lia].
    apply Z.mul_le_mono_nonneg_r; lia. }
  destruct (binary_normalize_value z 0 false ltac:(lia) Hov) as [V Hval].
  rewrite Prim2SF_SF2Prim by exact V.
  destruct (binary_normalize prec emax z 0 false) as [s0|s0| |s0 m0 e0] eqn:E;
    try discriminate; [|now exists s0, m0, e0].
  exfalso.
  assert (H0 : rndZ (z * 2 ^ (0 + 1074)) = 0) by (cbn [B64.SFz] in Hval; congruence).
  change (0 + 1074) with 1074 in H0. clear Hval Hov.
  assert (P2 : 0 < 2 ^ 1074) by lia.
  unfold rndZ in H0. apply Z.eq_mul_0 in H0 as [H0|H0].
  - apply -> Z.sgn_null_iff in H0. apply Z.mul_eq_0 in H0 as [H0|H0]; lia.
  - assert (P : 0 < Z.abs (z * 2 ^ 1074)).
    { rewrite Z.abs_mul, (Z.abs_eq (2 ^ 1074)) by lia. apply Z.mul_pos_pos; lia. }
    pose proof (B64EastDelta.rnd_pos _ P). lia.
Qed.

End B64Scale.

(** X7.  A tile with the pixel size of the whole map spans the whole
    map: for a nonzero width and height, [delta] returns
    north - south and eastDelta(east, west) themselves, and
    [finishTileBox] stores the tile's north less the one and the
    tile's west plus the other. *)
Theorem delta_of_whole_map (totWidth totHeight : Z) (b : box4 float) :
  totWidth <> 0 -> - 2 ^ 63 <= totWidth < 2 ^ 63 ->
  totHeight <> 0 -> - 2 ^ 63 <= totHeight < 2 ^ 63 ->
  delta totWidth totHeight b totWidth totHeight
  = ((at4 b north - at4 b south)%float, eastDelta (at4 b east) (at4 b west)) /\
  forall tile fullMap : mapTile float,
    width tile = totWidth -> height tile = totHeight ->
    width fullMap = totWidth -> height fullMap = totHeight -> box fullMap = b ->
    at4 (box (finishTileBox tile fullMap)) south
    = (at4 (box tile) north - (at4 b north - at4 b south))%float /\
    at4 (box (finishTileBox tile fullMap)) east
    = (at4 (box tile) west + eastDelta (at4 b east) (at4 b west))%float.
Proof.
  intros Hw Rw Hh Rh.
  destruct (B64Scale.ofInt_finite totWidth Hw Rw) as (sw & mw & ew & Ew).
  destruct (B64Scale.ofInt_finite totHeight Hh Rh) as (sh & mh & eh & Eh).
  assert (D : delta totWidth totHeight b totWidth totHeight
              = ((at4 b north - at4 b south)%float, eastDelta (at4 b east) (at4 b west))).
  { unfold delta. cbn [fmul fdiv fsub ofInt b64].
    rewrite (B64Scale.div_self _ _ _ _ Ew), (B64Scale.div_self _ _ _ _ Eh).
    now rewrite !B64Scale.mul_one_l. }
  split; [exact D|].
  intros tile fullMap Htw Hth Hfw Hfh Hb. unfold finishTileBox.
  rewrite Htw, Hth, Hfw, Hfh, Hb, D.
  destruct (box tile) as [bn bs be bw]. cbn [at4 set4 box bN bS bE bW fsub fadd b64].
  split; reflexivity.
Qed.

Lemma delta_of_whole_map_witness :
  delta 1000 800 (Box 50 40 (-170) 170)%float 1000 800 = (10, 20)%float.
Proof.
  destruct (delta_of_whole_map 1000 800 (Box 50 40 (-170) 170)%float) as [D _];
    [lia | lia | lia | lia |].
  rewrite D. vm_compute. reflexivity.
Defined.

(** ** [getBox]: what it accepts and what it rejects *)

Module SplitFacts.

Lemma Split_length (s : string) (sep : ascii) :
  List.length (Split s sep) = S (count sep s).
Proof.
  induction s as [|c s IH]; [reflexivity|]. cbn [Split count].
  destruct (Ascii.eqb c sep); cbn [List.length Nat.add].
  - now rewrite IH.
  - destruct (Split s sep) as [|x xs]; [discriminate|]. exact IH.
Qed.

Lemma count_app (c : ascii) (s t : string) :
  count c (s ++ t) = (count c s + count c t)%nat.
Proof.
  induction s as [|c' s IH]; [reflexivity|]. cbn [append count]. rewrite IH. lia.
Qed.

Lemma Split_none (s : string) (sep : ascii) : count sep s = 0%nat -> Split s sep = [s].
Proof.
  induction s as [|c s IH]; [reflexivity|]. cbn [Split count].
  destruct (Ascii.eqb c sep); [discriminate|]. intros E. now rewrite IH.
Qed.

(** Splitting at a separator that does not occur again: the pieces
    before it, then what follows it. *)
Lemma Split_app_last (p t : string) (sep : ascii) :
  count sep t = 0%nat ->
  Split (p ++ String sep t) sep = Split p sep ++ [t].
Proof.
  intros Ht. induction p as [|c p IH]; cbn [append Split].
  - now rewrite Ascii.eqb_refl, Split_none.
  - destruct (Ascii.eqb c sep); [now rewrite IH|].
    rewrite IH. destruct (Split p sep) as [|x xs] eqn:E; [|reflexivity].
    pose proof (Split_length p sep) as L. rewrite E in L. discriminate.
Qed.

Lemma cutFirst_none (s : string) (sep : ascii) : count sep s = 0%nat -> cutFirst s sep = None.
Proof.
  induction s as [|c s IH]; [reflexivity|]. cbn [cutFirst count].
  destruct (Ascii.eqb c sep); [discriminate|]. intros E. now rewrite IH.
Qed.

Lemma cutFirst_first (p t : string) (sep : ascii) :
  count sep p = 0%nat -> cutFirst (p ++ String sep t) sep = Some (p, t).
Proof.
  induction p as [|c p IH]; cbn [append cutFirst count].
  - now rewrite Ascii.eqb_refl.
  - destruct (Ascii.eqb c sep); [discriminate|]. intros E. now rewrite IH.
Qed.

(** A field with one dot keeps its extension. *)
Lemma stripExt_one_dot (w ext : string) :
  count "." w = 0%nat -> count "." ext = 0%nat ->
  stripExt (w ++ String "." ext) = (w ++ String "." ext)%string.
Proof.
  intros Hw He. unfold stripExt.
  rewrite SplitN_cut, (cutFirst_first w ext "." Hw), SplitN_cut, (cutFirst_none ext "." He).
  reflexivity.
Qed.

End SplitFacts.

(** X8.  A box that [getBox] accepts has -90 <= south < north <= 90,
    unless one of the two latitudes is NaN. *)
Theorem getBox_latitudes_in_order (image base : string) (n s e w : float) :
  getBox image = (base, [n; s; e; w], None) ->
  n <> nan -> s <> nan ->
  PrimFloat.leb (-90) s = true /\ PrimFloat.ltb s n = true /\ PrimFloat.leb n 90 = true.
Proof.
  intros Hget Hn Hs.
  apply getBox_accepts in Hget as (_ & n' & s' & e' & w' & _ & [= <- <- <- <-] & C1 & C2 & C3).
  cbn [flt fle ofInt b64] in C1, C2, C3.
  change (B64.ofInt 90) with 90%float in C2. change (B64.ofInt (-90)) with (-90)%float in C3.
  repeat split.
  - apply B64Edges.not_ltb_leb; [assumption | discriminate | assumption].
  - apply B64Edges.not_leb_ltb; assumption.
  - apply B64Edges.not_ltb_leb; [discriminate | assumption | assumption].
Qed.

Lemma getBox_latitudes_in_order_witness :
  PrimFloat.leb (-90) 49.336694 = true /\ PrimFloat.ltb 49.336694 49.470628 = true /\
  PrimFloat.leb 49.470628 90 = true.
Proof.
  apply (getBox_latitudes_in_order
           "Grouse-Mountain_49.470628_49.336694_-123.132056_-122.9811.jpg"
           "Grouse-Mountain" 49.470628 49.336694 (-123.132056) (-122.9811)).
  - vm_compute. reflexivity.
  - discriminate.
  - discriminate.
Defined.

(** X9.  [getBox] and [NewMapTile] accept a NaN north: when the four
    fields parse, the north one to NaN, and south is not below -90,
    the name is accepted and the constructor does not panic. *)
Theorem getBox_accepts_nan_north (image : string) (s e w : float) :
  List.length (Split image "_") = 5%nat ->
  map ParseFloat (coordFields (Split image "_")) = [Some nan; Some s; Some e; Some w] ->
  PrimFloat.ltb s (-90) = false ->
  getBox image = (filepath.Base (nth 0 (Split image "_") EmptyString), [nan; s; e; w], None) /\
  forall (fp : string) (wid high : Z),
    panics (NewMapTile fp wid high nan s e w) = false.
Proof.
  intros Hlen Hp Hs. split.
  - unfold getBox. rewrite Hlen. cbn [Nat.eqb negb].
    rewrite getBoxFields_all, Hp. unfold at_. cbn [nth slot flt fle ofInt b64].
    change (B64.ofInt 90) with 90%float. change (B64.ofInt (-90)) with (-90)%float.
    now rewrite B64Edges.leb_nan_l, B64Edges.ltb_nan_r, Hs.
  - intros fp wid high. unfold NewMapTile. cbn [flt ofInt b64].
    change (B64.ofInt 90) with 90%float. change (B64.ofInt (-90)) with (-90)%float.
    now rewrite B64Edges.ltb_nan_r, B64Edges.ltb_nan_l, Hs.
Qed.

Lemma getBox_accepts_nan_north_witness :
  getBox "/maps/m_nan_40_10_0.0.jpg" = ("m"%string, [nan; 40; 10; 0]%float, None) /\
  forall (fp : string) (wid high : Z),
    panics (NewMapTile fp wid high nan 40%float 10%float 0%float) = false.
Proof.
  apply (getBox_accepts_nan_north "/maps/m_nan_40_10_0.0.jpg" 40 10 0); vm_compute; reflexivity.
Defined.

(** X10.  A name that [getBox] accepts has exactly four underscores,
    so an accepted name is rejected as soon as a directory with an
    underscore in its name is put in front of it. *)
Theorem getBox_needs_four_underscores (F : Type) (ops : Float64 F) :
  (forall image : string,
      snd (getBox image) = None -> count "_" image = 4%nat) /\
  (forall dir name : string,
      snd (getBox name) = None -> (0 < count "_" dir)%nat ->
      snd (getBox (dir ++ "/" ++ name)) <> None).
Proof.
  assert (Hfour : forall image : string,
             snd (getBox image) = None -> count "_" image = 4%nat).
  { intros image. unfold getBox. rewrite SplitFacts.Split_length.
    destruct (Nat.eqb_spec (S (count "_" image)) 5) as [E|E]; cbn [negb snd].
    - intros _. lia.
    - discriminate. }
  split; [exact Hfour|].
  intros dir name Hok Hdir Hbad. apply Hfour in Hok. apply Hfour in Hbad.
  rewrite !SplitFacts.count_app in Hbad. lia.
Qed.

Lemma getBox_needs_four_underscores_witness :
  count "_" "Grouse-Mountain_49.470628_49.336694_-123.132056_-122.9811.jpg" = 4%nat /\
  snd (getBox ("/my_maps" ++ "/" ++
               "Grouse-Mountain_49.470628_49.336694_-123.132056_-122.9811.jpg")
       : string * list float * option string) <> None.
Proof.
  destruct (getBox_needs_four_underscores float b64) as [Hfour Hdir].
  split.
  - apply Hfour. vm_compute. reflexivity.
  - apply Hdir; [vm_compute; reflexivity | vm_compute; lia].
Defined.

Module ScanFacts.

Import Scan.

Lemma allOf_cons (p : ascii -> bool) (c : ascii) (s : string) :
  allOf p (String c s) = p c && allOf p s.
Proof. reflexivity. Qed.

(** A run of digits is read to its end. *)
Lemma digits_app (ds rest : string) (acc : Z) (n : nat) :
  allOf isDigit ds = true ->
  digits (ds ++ rest) acc n = digits rest (fst (fst (digits ds acc n))) (n + String.length ds).
Proof.
  revert acc n. induction ds as [|c ds IH]; intros acc n Hd.
  - cbn [append digits fst String.length]. now rewrite Nat.add_0_r.
  - rewrite allOf_cons in Hd. apply andb_true_iff in Hd as [Hc Hds].
    cbn [append digits String.length]. rewrite Hc. rewrite IH by exact Hds.
    f_equal. lia.
Qed.

Lemma digits_stop (c : ascii) (s : string) (acc : Z) (n : nat) :
  isDigit c = false -> digits (String c s) acc n = (acc, n, String c s).
Proof. intros Hc. cbn [digits]. now rewrite Hc. Qed.

Lemma letter_not_digit (c : ascii) : isLetter c = true -> isDigit c = false.
Proof.
  unfold isLetter, isDigit. set (n := nat_of_ascii c).
  rewrite orb_true_iff, !andb_true_iff, !Nat.leb_le. intros Hl.
  apply andb_false_iff. rewrite !Nat.leb_gt. lia.
Qed.

Lemma letter_not_sign (c : ascii) (s : string) :
  isLetter c = true -> sign (String c s) = (false, String c s).
Proof.
  intros Hl. unfold sign.
  destruct (Ascii.eqb_spec c "+") as [->|N1]; [discriminate|].
  destruct (Ascii.eqb_spec c "-") as [->|N2]; [discriminate|].
  destruct c as [[] [] [] [] [] [] [] []]; try reflexivity; congruence.
Qed.

(** Letters are no exponent. *)
Lemma exponent_letters (ext : string) :
  allOf isLetter ext = true -> ext <> EmptyString ->
  match exponent ext with Some (_, EmptyString) => False | _ => True end.
Proof.
  destruct ext as [|c ext]; [congruence|]. intros Hl _.
  rewrite allOf_cons in Hl. apply andb_true_iff in Hl as [Hc Hext].
  cbn [exponent]. destruct (Ascii.eqb (lower c) "e"); [|exact I].
  destruct ext as [|c' ext]; [exact I|].
  rewrite allOf_cons in Hext. apply andb_true_iff in Hext as [Hc' _].
  rewrite (letter_not_sign c' ext Hc').
  rewrite (digits_stop c' ext 0 0 (letter_not_digit c' Hc')). exact I.
Qed.

Lemma digits_count (ds : string) (acc : Z) (n : nat) :
  allOf isDigit ds = true ->
  snd (fst (digits ds acc n)) = (n + String.length ds)%nat /\ snd (digits ds acc n) = EmptyString.
Proof.
  revert acc n. induction ds as [|c ds IH]; intros acc n Hd.
  - cbn. split; [lia | reflexivity].
  - rewrite allOf_cons in Hd. apply andb_true_iff in Hd as [Hc Hds].
    cbn [digits String.length]. rewrite Hc.
    destruct (IH (10 * acc + digitVal c) (S n) Hds) as [A B]. split; [lia | exact B].
Qed.

(** Digits, a dot and letters: no decimal literal. *)
Lemma decimal_digits_dot_letters (ds ext : string) :
  allOf isDigit ds = true -> ds <> EmptyString ->
  allOf isLetter ext = true -> ext <> EmptyString ->
  forall acc n,
    let '(ip, n1, s1) := digits (ds ++ String "." ext) acc n in
    s1 = String "." ext /\ n1 = (n + String.length ds)%nat.
Proof.
  intros Hd Hne Hl Hne' acc n. rewrite digits_app by exact Hd.
  rewrite digits_stop by reflexivity. split; reflexivity.
Qed.

Lemma decimal_whole_ext (w ext : string) :
  wholeNumber w = true -> allOf isLetter ext = true -> ext <> EmptyString ->
  decimal (w ++ String "." ext) = None.
Proof.
  unfold wholeNumber. intros Hw Hl Hne.
  assert (Hbody : forall ds, negb (String.eqb ds EmptyString) && allOf isDigit ds = true ->
            forall neg,
            (let '(ip, n1, s1) := digits (ds ++ String "." ext) 0 0%nat in
             let '(m, n2, s2) :=
               match s1 with
               | String "." s1' => digits s1' ip 0%nat
               | _ => (ip, 0%nat, s1)
               end in
             match (n1 + n2)%nat with
             | O => None
             | _ => match exponent s2 with
                    | Some (e, EmptyString) => Some (neg, m, e - Z.of_nat n2)
                    | _ => None
                    end
             end) = (None : option (bool * Z * Z))).
  { intros ds Hds neg. apply andb_true_iff in Hds as [Hn Hd].
    rewrite digits_app by exact Hd. rewrite digits_stop by reflexivity.
    destruct ext as [|c ext]; [congruence|].
    pose proof Hl as Hl'. rewrite allOf_cons in Hl'. apply andb_true_iff in Hl' as [Hc _].
    rewrite (digits_stop c ext _ _ (letter_not_digit c Hc)).
    destruct ds as [|d ds]; [discriminate|]. cbn [String.length Nat.add].
    pose proof (exponent_letters (String c ext) Hl Hne) as Hx.
    destruct (exponent (String c ext)) as [[e [|]]|]; [contradiction | reflexivity | reflexivity]. }
  unfold decimal.
  destruct w as [|c w]; [discriminate|].
  cbn [append]. unfold sign at 1.
  unfold sign in Hw.
  destruct (Ascii.eqb_spec c "+") as [->|N1]; [exact (Hbody w Hw false)|].
  destruct (Ascii.eqb_spec c "-") as [->|N2]; [exact (Hbody w Hw true)|].
  assert (Hs : forall A (a b d : A),
             match c with "+"%char => a | "-"%char => b | _ => d end = d).
  { intros A a b d. destruct c as [[] [] [] [] [] [] [] []]; try reflexivity; congruence. }
  rewrite Hs in Hw. rewrite Hs. exact (Hbody (String c w) Hw false).
Qed.

Lemma lowerString_app (s t : string) :
  lowerString (s ++ t) = (lowerString s ++ lowerString t)%string.
Proof. induction s as [|c s IH]; [reflexivity|]. cbn. now rewrite IH. Qed.

Lemma count_lowerString_dot (s : string) : count "." (lowerString s) = count "." s.
Proof.
  induction s as [|c s IH]; [reflexivity|]. cbn [lowerString count]. rewrite IH. f_equal.
  destruct c as [[] [] [] [] [] [] [] []]; reflexivity.
Qed.

(** No special value is written with a dot. *)
Lemma specialOf_dot (s : string) : (0 < count "." s)%nat -> specialOf s = None.
Proof.
  intros Hc. rewrite <- count_lowerString_dot in Hc. unfold specialOf.
  set (l := lowerString s) in *.
  assert (A : forall k : string, count "." k = 0%nat -> String.eqb l k = false).
  { intros k Hk. destruct (String.eqb_spec l k) as [->|]; [lia | reflexivity]. }
  rewrite !A by reflexivity. reflexivity.
Qed.

Lemma ParseFloat_whole_ext (w ext : string) :
  wholeNumber w = true -> allOf isLetter ext = true -> ext <> EmptyString ->
  B64.ParseFloat (w ++ String "." ext) = None.
Proof.
  intros Hw Hl Hne. unfold B64.ParseFloat.
  rewrite specialOf_dot.
  - now rewrite decimal_whole_ext.
  - rewrite SplitFacts.count_app. cbn [count]. rewrite Ascii.eqb_refl. lia.
Qed.

Lemma count_digits (c : ascii) (s : string) :
  isDigit c = false -> allOf isDigit s = true -> count c s = 0%nat.
Proof.
  intros Hc. induction s as [|d s IH]; [reflexivity|].
  rewrite allOf_cons. intros Hd. apply andb_true_iff in Hd as [Hd Hs].
  cbn [count]. rewrite (IH Hs).
  destruct (Ascii.eqb_spec d c) as [->|]; [congruence | reflexivity].
Qed.

Lemma count_letters (c : ascii) (s : string) :
  isLetter c = false -> allOf isLetter s = true -> count c s = 0%nat.
Proof.
  intros Hc. induction s as [|d s IH]; [reflexivity|].
  rewrite allOf_cons. intros Hd. apply andb_true_iff in Hd as [Hd Hs].
  cbn [count]. rewrite (IH Hs).
  destruct (Ascii.eqb_spec d c) as [->|]; [congruence | reflexivity].
Qed.

Lemma count_wholeNumber (c : ascii) (w : string) :
  isDigit c = false -> c <> "+"%char -> c <> "-"%char ->
  wholeNumber w = true -> count c w = 0%nat.
Proof.
  intros Hc Np Nm. unfold wholeNumber, sign.
  destruct w as [|d w]; [reflexivity|].
  assert (Hd : forall ds, negb (String.eqb ds EmptyString) && allOf isDigit ds = true ->
                          count c ds = 0%nat).
  { intros ds H. apply andb_true_iff in H as [_ H]. now apply count_digits. }
  destruct (Ascii.eqb_spec d "+") as [->|N1].
  { intros H. cbn [count]. destruct (Ascii.eqb_spec "+"%char c); [congruence|]. now apply Hd. }
  destruct (Ascii.eqb_spec d "-") as [->|N2].
  { intros H. cbn [count]. destruct (Ascii.eqb_spec "-"%char c); [congruence|]. now apply Hd. }
  assert (Hs : forall A (a b e : A),
             match d with "+"%char => a | "-"%char => b | _ => e end = e).
  { intros A a b e. destruct d as [[] [] [] [] [] [] [] []]; try reflexivity; congruence. }
  rewrite Hs. apply Hd.
Qed.

End ScanFacts.

(** X11.  [getBox] rejects a name whose last field is a whole number
    followed by a dot and letters, as in [-123.jpg]: the extension is
    cut off only when the field has a second dot. *)
Theorem getBox_rejects_whole_west (p w ext : string) :
  wholeNumber w = true -> allOf isLetter ext = true -> ext <> EmptyString ->
  snd (getBox (p ++ "_" ++ w ++ "." ++ ext) : string * list float * option string) <> None.
Proof.
  intros Hw Hl Hne.
  assert (Hc : forall c, Scan.isDigit c = false -> isLetter c = false ->
                         c <> "+"%char -> c <> "-"%char -> c <> "."%char ->
                         count c (w ++ String "." ext) = 0%nat).
  { intros c H1 H2 H3 H4 H5. rewrite SplitFacts.count_app. cbn [count].
    rewrite (ScanFacts.count_wholeNumber c w H1 H3 H4 Hw), (ScanFacts.count_letters c ext H2 Hl).
    destruct (Ascii.eqb_spec "."%char c); [congruence | reflexivity]. }
  apply (getBox_fails_iff (F := float)).
  cbn [append]. rewrite SplitFacts.Split_app_last
    by (apply Hc; try reflexivity; discriminate).
  destruct (Nat.eq_dec (List.length (Split p "_" ++ [(w ++ String "." ext)%string])) 5)
    as [E|E]; [|now left].
  right; left. exists (w ++ String "." ext)%string. split.
  - unfold coordFields. right; right; right; left.
    rewrite <- stripExt_firstTwoSegments.
    rewrite length_app in E. cbn [List.length] in E.
    rewrite app_nth2 by lia. replace (4 - List.length (Split p "_"))%nat with 0%nat by lia.
    cbn [nth]. apply SplitFacts.stripExt_one_dot.
    + apply ScanFacts.count_wholeNumber; try assumption; try reflexivity; discriminate.
    + apply ScanFacts.count_letters; [reflexivity | assumption].
  - cbn [ParseFloat b64]. now apply ScanFacts.ParseFloat_whole_ext.
Qed.

Lemma getBox_rejects_whole_west_witness :
  snd (getBox ("/maps/Grouse_49.5_49.25_-122" ++ "_" ++ "-123" ++ "." ++ "jpg")
       : string * list float * option string) <> None /\
  snd (getBox "/maps/Grouse_49.5_49.25_-122_-123.0.jpg"
       : string * list float * option string) = None.
Proof.
  split; [|vm_compute; reflexivity].
  apply (getBox_rejects_whole_west "/maps/Grouse_49.5_49.25_-122" "-123" "jpg");
    [reflexivity | reflexivity | discriminate].
Defined.

(** X12.  [getBox] is the earlier [getBox] with the check of the
    latitudes added: where the earlier one fails, both return the
    same; where it succeeds, the new one returns the same name and
    box, and an error exactly when north <= south, north > 90 or
    south < -90. *)
Theorem getBox_adds_latitude_check (F : Type) (ops : Float64 F) (image : string) :
  (snd (Old.getBox image) <> None -> getBox image = Old.getBox image) /\
  (forall (base : string) (coords : list F),
      Old.getBox image = (base, coords, None) ->
      fst (getBox image) = (base, coords) /\
      (snd (getBox image) <> None <->
       fle (at_ coords north) (at_ coords south) = true \/
       flt (ofInt 90) (at_ coords north) = true \/
       flt (at_ coords south) (ofInt (-90)) = true)).
Proof.
  unfold getBox, Old.getBox.
  destruct (negb (List.length (Split image "_") =? 5)%nat).
  { split; [reflexivity | discriminate]. }
  destruct (getBoxFields (Split image "_") [1; 2; 3; 4]%nat []) as [coords|].
  2:{ split; [reflexivity | discriminate]. }
  split; [intros N; now elim N|].
  intros base coords' [= <- <-].
  destruct (fle (at_ coords north) (at_ coords south)) eqn:E1,
           (flt (ofInt 90) (at_ coords north)) eqn:E2,
           (flt (at_ coords south) (ofInt (-90))) eqn:E3; cbn [orb fst snd];
    (split; [reflexivity|]); split; intros Hx; try discriminate; auto;
    try (now elim Hx); destruct Hx as [Hx|[Hx|Hx]]; discriminate.
Qed.

Lemma getBox_adds_latitude_check_witness :
  let image := "Grouse-Mountain_49.336694_49.470628_-123.132056_-122.9811.jpg"%string in
  let coords := [49.336694; 49.470628; -123.132056; -122.9811]%float in
  fst (getBox image) = ("Grouse-Mountain"%string, coords) /\
  (snd (getBox image : string * list float * option string) <> None <->
   fle (at_ coords north) (at_ coords south) = true \/
   flt (ofInt 90) (at_ coords north) = true \/
   flt (at_ coords south) (ofInt (-90)) = true).
Proof.
  apply (getBox_adds_latitude_check float b64). vm_compute. reflexivity.
Defined.

(** ** [imageWxH] *)

Module ItoaFacts.

Import Scan.

Lemma uval_acc (d : Decimal.uint) (p : positive) :
  Z.pos (Pos.of_uint_acc d p) = uval d (Z.pos p).
Proof.
  revert p. induction d as [|d IH|d IH|d IH|d IH|d IH|d IH|d IH|d IH|d IH|d IH];
    intros p; cbn [Pos.of_uint_acc uval]; [reflexivity|..]; rewrite IH; f_equal; lia.
Qed.

Lemma uval_of_uint (d : Decimal.uint) : Z.of_N (Pos.of_uint d) = uval d 0.
Proof.
  induction d as [|d IH|d IH|d IH|d IH|d IH|d IH|d IH|d IH|d IH|d IH];
    cbn [Pos.of_uint uval]; [reflexivity | exact IH | ..];
    cbn [Z.of_N]; rewrite uval_acc; reflexivity.
Qed.

(** A printed number is read back digit by digit. *)
Lemma digits_of_uint (d : Decimal.uint) (acc : Z) (n : nat) :
  digits (NilEmpty.string_of_uint d) acc n
  = (uval d acc, (n + String.length (NilEmpty.string_of_uint d))%nat, EmptyString).
Proof.
  revert acc n. induction d as [|d IH|d IH|d IH|d IH|d IH|d IH|d IH|d IH|d IH|d IH];
    intros acc n; cbn [NilEmpty.string_of_uint digits String.length uval];
    [now rewrite Nat.add_0_r|..];
    match goal with
    | |- context [isDigit ?c] =>
        change (isDigit c) with true;
        let v := eval vm_compute in (digitVal c) in change (digitVal c) with v
    end;
    cbv iota; rewrite IH; rewrite ?Z.add_0_r, Nat.add_succ_r; reflexivity.
Qed.

Lemma string_of_uint_digits (d : Decimal.uint) :
  allOf isDigit (NilEmpty.string_of_uint d) = true.
Proof.
  induction d as [|d IH|d IH|d IH|d IH|d IH|d IH|d IH|d IH|d IH|d IH];
    cbn [NilEmpty.string_of_uint]; [reflexivity|..]; exact IH.
Qed.

Lemma string_of_pos (p : positive) :
  exists c s, NilZero.string_of_uint (Pos.to_uint p) = String c s /\ isDigit c = true /\
              NilZero.string_of_uint (Pos.to_uint p) = NilEmpty.string_of_uint (Pos.to_uint p).
Proof.
  pose proof (Unsigned.to_uint_nonnil p) as N.
  pose proof (string_of_uint_digits (Pos.to_uint p)) as D.
  destruct (Pos.to_uint p) as [|d|d|d|d|d|d|d|d|d|d]; [congruence|..];
    cbn [NilZero.string_of_uint NilEmpty.string_of_uint] in *;
    eexists _, _; (split; [reflexivity|]); split; reflexivity.
Qed.

Lemma sign_digit (c : ascii) (s : string) :
  isDigit c = true -> sign (String c s) = (false, String c s).
Proof.
  intros Hd. unfold sign.
  destruct (Ascii.eqb_spec c "+") as [->|N1]; [discriminate|].
  destruct (Ascii.eqb_spec c "-") as [->|N2]; [discriminate|].
  destruct c as [[] [] [] [] [] [] [] []]; try reflexivity; congruence.
Qed.

(** strconv.Atoi reads back what strconv.Itoa prints. *)
Lemma Atoi_Itoa (z : Z) : - 2 ^ 63 <= z < 2 ^ 63 -> Atoi (Itoa z) = (z, false).
Proof.
  intros Hz. unfold Itoa, Atoi.
  assert (Hrange : (if z <? - 2 ^ 63 then (- 2 ^ 63, true)
                    else if 2 ^ 63 - 1 <? z then (2 ^ 63 - 1, true)
                    else (z, false)) = (z, false)).
  { destruct (Z.ltb_spec z (- 2 ^ 63)); [lia|].
    destruct (Z.ltb_spec (2 ^ 63 - 1) z); [lia | reflexivity]. }
  destruct z as [|p|p]; [reflexivity| |].
  - cbn [Z.to_int NilZero.string_of_int].
    destruct (string_of_pos p) as (c & s & E & Hc & E').
    rewrite E, (sign_digit c s Hc), <- E, E', digits_of_uint.
    rewrite <- E', E. cbn [String.length]. rewrite Nat.add_succ_r.
    rewrite <- uval_of_uint, Unsigned.of_to. exact Hrange.
  - cbn [Z.to_int NilZero.string_of_int sign].
    destruct (string_of_pos p) as (c & s & E & Hc & E').
    rewrite E', digits_of_uint.
    rewrite <- E', E. cbn [String.length]. rewrite Nat.add_succ_r.
    rewrite <- uval_of_uint, Unsigned.of_to. exact Hrange.
Qed.

Lemma count_Itoa_space (z : Z) : count " " (Itoa z) = 0%nat.
Proof.
  assert (A : forall d, count " " (NilEmpty.string_of_uint d) = 0%nat).
  { intros d. induction d as [|d IH|d IH|d IH|d IH|d IH|d IH|d IH|d IH|d IH|d IH];
      cbn [NilEmpty.string_of_uint count]; [reflexivity|..]; exact IH. }
  assert (B : forall d, count " " (NilZero.string_of_uint d) = 0%nat).
  { intros d. destruct d; try apply A. reflexivity. }
  unfold Itoa. destruct z as [|p|p]; cbn [Z.to_int NilZero.string_of_int]; [reflexivity| |].
  - apply B.
  - cbn [count]. apply B.
Qed.

End ItoaFacts.

(** X13.  [imageWxH] returns the width and height that [identify]
    prints: for an existing file and two ints printed in decimal with
    one space between them, it returns those two ints and no error. *)
Theorem imageWxH_reads_what_identify_prints
        (wd : world) (imageFilename : string) (w h : Z) :
  stat wd imageFilename = true ->
  identify wd imageFilename = Some (Itoa w ++ " " ++ Itoa h)%string ->
  - 2 ^ 63 <= w < 2 ^ 63 -> - 2 ^ 63 <= h < 2 ^ 63 ->
  imageWxH wd imageFilename = (w, h, None).
Proof.
  intros Hstat Hid Hw Hh. unfold imageWxH. rewrite Hstat, Hid. cbn [negb].
  unfold parseWxH. cbn [append].
  rewrite Split_cut, (SplitFacts.cutFirst_first (Itoa w) (Itoa h) " " (ItoaFacts.count_Itoa_space w)).
  rewrite (SplitFacts.Split_none (Itoa h) " " (ItoaFacts.count_Itoa_space h)).
  cbn [List.length Nat.eqb negb nth].
  now rewrite (ItoaFacts.Atoi_Itoa w Hw), (ItoaFacts.Atoi_Itoa h Hh).
Qed.

Lemma imageWxH_reads_what_identify_prints_witness :
  imageWxH {| stat := fun _ => true; identify := fun _ => Some "4096 3072"%string |} "map.jpg"
  = (4096, 3072, None).
Proof.
  apply (imageWxH_reads_what_identify_prints
           {| stat := fun _ => true; identify := fun _ => Some "4096 3072"%string |}
           "map.jpg" 4096 3072); [reflexivity | reflexivity | lia | lia].
Defined.

(** ** The tile loop and [process] *)

Section Layout.

Context {F : Type} `{Float64 F}.
Local Open Scope f64_scope.

Lemma tileStep_tile
      (wd : world) (fixedMap : mapTile F) (st st' : walk F) (tf : string) (tile : mapTile F) :
  tileStep wd fixedMap st tf = Ret (Ok (tile, st')) ->
  fpath tile = tf /\ imageWxH wd tf = (width tile, height tile, None) /\
  at4 (box tile) north = currNorth st /\
  at4 (box tile) west = normEasting (currWest st) /\
  ((currNorth st' = currNorth st /\ currWest st' = at4 (box tile) east) \/
   (currNorth st' = at4 (box tile) south /\ currWest st' = at4 (box fixedMap) west)).
Proof.
  unfold tileStep, NewMapTileFromFile, NewMapTile.
  destruct (imageWxH wd tf) as [[w h] [err|]]; [discriminate|].
  destruct ((currNorth st >? ofInt 90) || (ofInt 0 <? ofInt (-90)) || (currNorth st <? ofInt 0));
    [discriminate|].
  cbn [bind]. unfold finishTileBox, delta. cbn [width height box fpath].
  destruct (width fixedMap <=? wrap64 (widthSum st + w))%Z;
    intros [= <- <-]; cbn; auto 10.
Qed.

Lemma tileLoop_cons
      (wd : world) (fixedMap : mapTile F) (st : walk F) (tf : string) (rest : list string)
      (tiles : list (mapTile F)) :
  tileLoop wd fixedMap st (tf :: rest) = Ret (Ok tiles) ->
  exists tile st' tiles',
    tileStep wd fixedMap st tf = Ret (Ok (tile, st')) /\
    tileLoop wd fixedMap st' rest = Ret (Ok tiles') /\
    tiles = tile :: tiles'.
Proof.
  cbn [tileLoop].
  destruct (tileStep wd fixedMap st tf) as [[[tile st']|err]|msg] eqn:Es;
    cbn [bind]; try discriminate.
  destruct (tileLoop wd fixedMap st' rest) as [[tiles'|err]|msg] eqn:El;
    cbn [bind]; try discriminate.
  intros [= <-]. now exists tile, st', tiles'.
Qed.

Lemma tileLoop_lays_out
      (wd : world) (fixedMap : mapTile F) (tileFiles : list string) :
  forall (st : walk F) (tiles : list (mapTile F)),
  tileLoop wd fixedMap st tileFiles = Ret (Ok tiles) ->
  map fpath tiles = tileFiles /\
  Forall (fun t => imageWxH wd (fpath t) = (width t, height t, None)) tiles /\
  (forall t, nth_error tiles 0 = Some t ->
             at4 (box t) north = currNorth st /\
             at4 (box t) west = normEasting (currWest st)) /\
  (forall i t1 t2, nth_error tiles i = Some t1 -> nth_error tiles (S i) = Some t2 ->
                   follows fixedMap t1 t2).
Proof.
  induction tileFiles as [|tf rest IH]; intros st tiles.
  - cbn [tileLoop]. intros [= <-]. split; [reflexivity|]. split; [constructor|]. split.
    + intros t E. discriminate.
    + intros i t1 t2 E. destruct i; discriminate.
  - intros Hloop. apply tileLoop_cons in Hloop as (tile & st' & tiles' & Hstep & Hrest & ->).
    apply tileStep_tile in Hstep as (Hfp & Hdim & Hn & Hw & Hnext).
    destruct (IH st' tiles' Hrest) as (Hmap & Hall & Hfirst & Hadj).
    split; [cbn [map]; now rewrite Hfp, Hmap|].
    split; [constructor; [now rewrite Hfp | exact Hall]|].
    split; [intros t [= <-]; now split|].
    intros [|i] t1 t2; cbn [nth_error].
    + intros [= <-] E2. destruct (Hfirst t2 E2) as [A B]. unfold follows.
      destruct Hnext as [[N W]|[N W]]; [left | right]; rewrite A, B, N, W; auto.
    + apply Hadj.
Qed.

End Layout.

(** X14.  When the tile loop returns, it has laid out one tile per
    tile file, in order, each with the file's path and the pixel size
    [identify] reports; the first tile is anchored at the full map's
    north and normalized west, and every later tile either continues
    the row at the normalized east edge of the one before it or starts
    the next row at that tile's south and the full map's normalized
    west. *)
Theorem layoutTiles_in_raster_order
        (F : Type) (ops : Float64 F) (wd : world) (fixedMap : mapTile F)
        (tileFiles : list string) (tiles : list (mapTile F)) :
  layoutTiles wd fixedMap tileFiles = Ret (Ok tiles) ->
  map fpath tiles = tileFiles /\
  Forall (fun t => imageWxH wd (fpath t) = (width t, height t, None)) tiles /\
  (forall t, nth_error tiles 0 = Some t ->
             at4 (box t) north = at4 (box fixedMap) north /\
             at4 (box t) west = normEasting (at4 (box fixedMap) west)) /\
  (forall i t1 t2, nth_error tiles i = Some t1 -> nth_error tiles (S i) = Some t2 ->
                   follows fixedMap t1 t2).
Proof.
  unfold layoutTiles. intros Hl. exact (tileLoop_lays_out wd fixedMap tileFiles _ tiles Hl).
Qed.

Lemma layoutTiles_in_raster_order_witness :
  exists (fixedMap : mapTile float) (tiles : list (mapTile float)),
    (NewMapTile "fixed.jpg" 2000 2000 50 40 10 0)%float = Ret fixedMap /\
    layoutTiles (uniformTiles "2000" "1000") fixedMap (tileNames 4) = Ret (Ok tiles) /\
    map fpath tiles = tileNames 4 /\
    (forall i t1 t2, nth_error tiles i = Some t1 -> nth_error tiles (S i) = Some t2 ->
                     follows fixedMap t1 t2).
Proof.
  eexists _, _.
  split; [vm_compute; reflexivity|].
  assert (Hl : layoutTiles (uniformTiles "2000" "1000")
                 {| fpath := "fixed.jpg"; width := 2000; height := 2000;
                    box := Box 50 40 10 0 |}%float (tileNames 4) = Ret (Ok _))
    by (vm_compute; reflexivity).
  split; [exact Hl|].
  destruct (layoutTiles_in_raster_order float b64 _ _ _ _ Hl) as (Hmap & _ & _ & Hadj).
  split; [exact Hmap | exact Hadj].
Defined.

(** X15.  [process] panics on every map whose name [getBox] accepts
    with a north edge south of the equator, once the sizes of the
    image, its resized copy and the first tile are known. *)
Theorem process_panics_south_of_equator
        (wd : world) (absImage fixedJpg tf : string) (rest : list string)
        (base : string) (n s e w : float) (w0 h0 w1 h1 w2 h2 : Z) :
  getBox absImage = (base, [n; s; e; w], None) ->
  imageWxH wd absImage = (w0, h0, None) ->
  imageWxH wd fixedJpg = (w1, h1, None) ->
  imageWxH wd tf = (w2, h2, None) ->
  PrimFloat.ltb n 0 = true ->
  process wd absImage fixedJpg (tf :: rest)
  = (Panic poleMsg : outcome (result (list (mapTile float)))).
Proof.
  intros Hget H0 H1 H2 Hn. unfold process. rewrite Hget.
  apply getBox_accepts in Hget as (_ & n' & s' & e' & w' & _ & [= <- <- <- <-] & C1 & C2 & C3).
  unfold at_. cbn [nth slot].
  assert (C4 : flt n s = false).
  { cbn [flt fle b64] in *. destruct (PrimFloat.ltb n s) eqn:E; [|reflexivity].
    apply B64Facts.ltb_leb in E. congruence. }
  unfold NewMapTileFromFile at 1. rewrite H0. unfold NewMapTile at 1.
  rewrite C2, C3, C4. cbn [orb bind].
  unfold NewMapTileFromFile at 1. rewrite H1. unfold NewMapTile at 1.
  rewrite C2, C3, C4. cbn [orb bind].
  unfold layoutTiles. cbn [tileLoop box at4 bN bW].
  rewrite (tileStep_panics_south_of_equator wd _ _ tf w2 h2); [reflexivity | exact H2 |].
  cbn [currNorth flt ofInt b64]. exact Hn.
Qed.

Lemma process_panics_south_of_equator_witness :
  process (uniformTiles "10000" "1000") "/maps/south_-50_-60_10_0.0.jpg" "fixed.jpg"
          (tileName 0 :: tileNames 3)
  = (Panic poleMsg : outcome (result (list (mapTile float)))).
Proof.
  apply (process_panics_south_of_equator _ _ _ _ _ "south" (-50) (-60) 10 0
           10000 10000 10000 10000 1000 1000); vm_compute; reflexivity.
Defined.

(** ** [cmd/kmz_test.go] *)

(** X16.  The loop of the test helper [deltaT] never starts a second
    row: for a positive total width its width sum stays 0 and the
    north edge stays the box's north after any number of passes; and
    on doubles the five calls of TestDelta report no error. *)
Theorem deltaT_never_drops_a_row :
  (forall (F : Type) (ops : Float64 F) (k : nat) (tileWidth tileHeight : Z) (box : box4 F)
          (totWidth totHeight : Z),
      0 < totWidth ->
      let st := deltaTRun k tileWidth tileHeight box totWidth totHeight in
      tWidthSum st = 0 /\ at4 (tbox st) north = at4 box north) /\
  (deltaT 100 100 (Box 50 40 10 0) 10000 10000 = [] /\
   deltaT 1000 1000 (Box (-50) (-60) 10 0) 10000 10000 = [] /\
   deltaT 1000 1000 (Box 50 40 0 (-10)) 10000 10000 = [] /\
   deltaT 1000 1000 (Box 50 40 (-120) (-130)) 10000 10000 = [] /\
   deltaT 1000 1000 (Box 50 40 (-170) 170) 10000 10000 = [])%float.
Proof.
  split.
  - intros F ops k tileWidth tileHeight box totWidth totHeight Hpos. cbv zeta.
    unfold deltaTRun. induction k as [|k [IHw IHn]].
    + cbn. split; [reflexivity | now destruct box].
    + rewrite Nat.iter_succ.
      set (st := Nat.iter k _ _) in *. unfold deltaTStep.
      destruct (delta tileWidth tileHeight box totWidth totHeight) as [ns ew].
      rewrite IHw. destruct (Z.leb_spec totWidth 0) as [L|_]; [lia|].
      cbn [tWidthSum tbox]. split; [reflexivity|]. rewrite <- IHn.
      destruct (tbox st) as [bn bs be bw]. cbn [at4 set4 bN bS bE bW].
      now destruct (flt (ofInt 180) (fadd bw ew)).
  - repeat apply conj; vm_compute; reflexivity.
Qed.

Lemma deltaT_never_drops_a_row_witness :
  let st := deltaTRun 100 1000 1000 (Box 50 40 (-170) 170)%float 10000 10000 in
  tWidthSum st = 0 /\ at4 (tbox st) north = 50%float.
Proof.
  destruct deltaT_never_drops_a_row as [Hgen _].
  apply (Hgen float b64 100%nat 1000 1000 (Box 50 40 (-170) 170)%float 10000 10000). lia.
Defined.

(** ** The tile loop on doubles: products and ratios *)

Module B64Mul.

Import Rounding B64Facts B64Round.

(** *** Sizes *)

Lemma Zdigits2_nonneg (x : Z) : 0 <= Zdigits2 x.
Proof. destruct x; cbn [Zdigits2]; lia. Qed.

Lemma Zdigits2_le (x k : Z) : 0 <= k -> 0 <= x < 2 ^ k -> Zdigits2 x <= k.
Proof.
  intros Hk Hx. destruct x as [|p|p]; cbn [Zdigits2]; [lia| |lia].
  rewrite digits2_log2. assert (Z.log2 (Z.pos p) < k); [|lia].
  apply Z.log2_lt_pow2; lia.
Qed.

Lemma Zdigits2_lt (x : Z) : 0 <= x -> x < 2 ^ Zdigits2 x.
Proof.
  intros Hx. destruct x as [|p|p]; cbn [Zdigits2]; [reflexivity| |lia].
  pose proof (log2_bounds (Z.pos p) _ ltac:(lia) (eq_sym (digits2_log2 p))). lia.
Qed.

Lemma Zdigits2_ge (p : positive) : 2 ^ (Z.pos (digits2_pos p) - 1) <= Z.pos p.
Proof.
  pose proof (log2_bounds (Z.pos p) _ ltac:(lia) (eq_sym (digits2_log2 p))). lia.
Qed.

Lemma pow2_le (a b : Z) : 0 <= a <= b -> 2 ^ a <= 2 ^ b.
Proof. intros H. apply Z.pow_le_mono_r; lia. Qed.

(** *** Shifting right, whatever the round and sticky bits *)

Lemma iter_shr_m (n : nat) (m : Z) (r s : bool) :
  0 <= m ->
  shr_m (Nat.iter n shr_1 {| shr_m := m; shr_r := r; shr_s := s |}) = m / 2 ^ Z.of_nat n.
Proof.
  intros Hm.
  assert (G : exists r' s', Nat.iter n shr_1 {| shr_m := m; shr_r := r; shr_s := s |}
                            = {| shr_m := m / 2 ^ Z.of_nat n; shr_r := r'; shr_s := s' |}).
  { induction n as [|n (r' & s' & IH)].
    - exists r, s. cbn [Nat.iter nat_rect Z.of_nat]. now rewrite Z.pow_0_r, Z.div_1_r.
    - rewrite Nat.iter_succ, IH.
      rewrite shr_1_nonneg by (apply Z.div_pos; lia).
      eexists _, _. f_equal.
      rewrite Z.div_div by lia. f_equal.
      rewrite Nat2Z.inj_succ, Z.pow_succ_r by lia. lia. }
  destruct G as (r' & s' & ->). reflexivity.
Qed.

Lemma shr_record_m (m : Z) (l : location) : shr_m (shr_record_of_loc m l) = m.
Proof. destruct l as [|[]]; reflexivity. Qed.

(** [shr] by [n]: the mantissa divided by [2^n] and the exponent
    raised by [n], when [n] is positive. *)
Lemma shr_spec (mrs : shr_record) (e n : Z) :
  0 <= shr_m mrs ->
  shr_m (fst (shr mrs e n)) = shr_m mrs / 2 ^ Z.max n 0 /\
  snd (shr mrs e n) = e + Z.max n 0.
Proof.
  intros Hm. unfold shr. destruct n as [|p|p]; cbn [fst snd].
  - change (Z.max 0 0) with 0. rewrite Z.pow_0_r, Z.div_1_r. split; [reflexivity|lia].
  - rewrite Z.max_l by lia. split; [|reflexivity].
    rewrite iter_pos_nat. destruct mrs as [m r s]. cbn [shr_m] in *.
    rewrite iter_shr_m by exact Hm. now rewrite positive_nat_Z.
  - rewrite Z.max_r by lia. rewrite Z.pow_0_r, Z.div_1_r. split; [reflexivity|lia].
Qed.

Lemma round_nearest_even_bounds (m : Z) (l : location) :
  m <= round_nearest_even m l <= m + 1.
Proof.
  destruct l as [|[]]; cbn [round_nearest_even]; try lia.
  destruct (Z.even m); lia.
Qed.

(** *** What [binary_round_aux] returns, in size *)

Lemma round_aux_sized (s : bool) (m e : Z) (l : location) :
  0 <= m -> e <= 960 -> Zdigits2 m + e <= 1000 ->
  sized s (Z.max (Zdigits2 m + e + 1) (-1073)) (binary_round_aux prec emax s m e l).
Proof.
  intros Hm He Hd. pose proof (Zdigits2_nonneg m) as Dn. pose proof (Zdigits2_lt m Hm) as Dm.
  set (D := Zdigits2 m) in *.
  unfold binary_round_aux, shr_fexp. fold D. rewrite fexp_eq.
  set (n1 := Z.max (D + e - 53) (-1074) - e).
  pose proof (shr_spec (shr_record_of_loc m l) e n1) as S1.
  rewrite shr_record_m in S1. specialize (S1 Hm).
  destruct (shr (shr_record_of_loc m l) e n1) as [mrs' e'].
  cbn [fst snd] in S1. destruct S1 as [Sa Se].
  set (a := shr_m mrs') in *.
  pose proof (round_nearest_even_bounds a (loc_of_shr_record mrs')) as Rb.
  set (m1 := round_nearest_even a (loc_of_shr_record mrs')) in *.
  assert (Ha : 0 <= a < 2 ^ Z.max (D - Z.max n1 0) 0).
  { rewrite Sa. split; [apply Z.div_pos; lia|].
    destruct (Z.le_gt_cases (Z.max n1 0) D) as [L|G].
    - rewrite (Z.max_l (D - Z.max n1 0) 0) by lia. apply Z.div_lt_upper_bound; [lia|].
      rewrite <- Z.pow_add_r by lia. replace (Z.max n1 0 + (D - Z.max n1 0)) with D by lia.
      exact Dm.
    - rewrite (Z.max_r (D - Z.max n1 0) 0) by lia. rewrite Z.pow_0_r.
      apply Z.div_lt_upper_bound; [lia|].
      rewrite Z.mul_1_r. apply Z.lt_le_trans with (2 ^ D); [exact Dm|]. apply pow2_le. lia. }
  assert (Hm1 : 0 <= m1) by lia.
  assert (Dm1 : Zdigits2 m1 <= Z.max (D - Z.max n1 0) 0 + 1).
  { apply Zdigits2_le; [lia|]. split; [lia|].
    rewrite Z.pow_add_r, Z.pow_1_r by lia. lia. }
  pose proof (Zdigits2_nonneg m1) as Dn1.
  assert (B1 : Zdigits2 m1 + e' <= Z.max (D + e + 1) (-1073)) by (subst n1; lia).
  assert (E1 : e' <= 960) by (subst n1; lia).
  rewrite fexp_eq.
  set (n2 := Z.max (Zdigits2 m1 + e' - 53) (-1074) - e').
  pose proof (shr_spec (shr_record_of_loc m1 loc_Exact) e' n2) as S2.
  rewrite shr_record_m in S2. specialize (S2 Hm1).
  destruct (shr (shr_record_of_loc m1 loc_Exact) e' n2) as [mrs'' e''].
  cbn [fst snd] in S2. destruct S2 as [Sa2 Se2].
  destruct (shr_m mrs'') as [|p|p] eqn:Ep.
  - now left.
  - right. assert (E2 : e'' <= 971) by (subst n2; lia).
    destruct (Z.leb_spec e'' (emax - prec)) as [_|L]; [|change (emax - prec) with 971 in L; lia].
    exists p, e''. split; [reflexivity|].
    assert (Dp : Z.pos (digits2_pos p) <= Zdigits2 m1 - Z.max n2 0).
    { change (Z.pos (digits2_pos p)) with (Zdigits2 (Z.pos p)).
      assert (Hlt : Z.pos p < 2 ^ (Zdigits2 m1 - Z.max n2 0) /\ 0 <= Zdigits2 m1 - Z.max n2 0).
      { pose proof (Zdigits2_lt m1 Hm1) as L1.
        destruct (Z.le_gt_cases (Z.max n2 0) (Zdigits2 m1)) as [L|G].
        - split; [|lia]. rewrite Sa2. apply Z.div_lt_upper_bound; [lia|].
          rewrite <- Z.pow_add_r by lia.
          replace (Z.max n2 0 + (Zdigits2 m1 - Z.max n2 0)) with (Zdigits2 m1) by lia.
          exact L1.
        - exfalso. assert (m1 / 2 ^ Z.max n2 0 = 0); [|lia].
          apply Z.div_small. split; [lia|].
          apply Z.lt_le_trans with (2 ^ Zdigits2 m1); [exact L1|]. apply pow2_le. lia. }
      apply Zdigits2_le; lia. }
    lia.
  - exfalso. assert (0 <= m1 / 2 ^ Z.max n2 0) by (apply Z.div_pos; lia). lia.
Qed.

Lemma sized_le (s : bool) (b b' : Z) (x : spec_float) : b <= b' -> sized s b x -> sized s b' x.
Proof.
  intros Hb [E|(m & e & E & B)]; [now left|]. right. exists m, e. split; [exact E|lia].
Qed.

Lemma mul_pow2_lt (a k n : Z) : 0 <= k <= n -> a * 2 ^ k < 2 ^ n -> a < 2 ^ (n - k).
Proof.
  intros Hk H. replace n with (n - k + k) in H by lia.
  rewrite Z.pow_add_r in H by lia.
  apply Z.mul_lt_mono_pos_r in H; [exact H|]. apply Z.pow_pos_nonneg; lia.
Qed.

(** The quotient of two finite floats not too far apart in size. *)
Lemma SFdiv_sized (sx sy : bool) (mx my : positive) (ex ey : Z) :
  let dl := Z.pos (digits2_pos mx) + ex - (Z.pos (digits2_pos my) + ey) in
  Z.pos (digits2_pos mx) <= 53 ->
  -1000 <= dl <= 900 ->
  sized (xorb sx sy) (dl + 2)
        (SFdiv prec emax (S754_finite sx mx ex) (S754_finite sy my ey)).
Proof.
  intros dl Hdx Hdl. unfold SFdiv, SFdiv_core_binary. cbn [Zdigits2]. fold dl.
  rewrite fexp_eq.
  set (d1 := Z.pos (digits2_pos mx)) in *. set (d2 := Z.pos (digits2_pos my)) in *.
  assert (P1 : 0 < d1) by (subst d1; lia). assert (P2 : 0 < d2) by (subst d2; lia).
  set (e' := Z.min (Z.max (dl - 53) (-1074)) (ex - ey)).
  set (s := ex - ey - e').
  assert (Hs : 53 - d1 + d2 <= s) by (subst s e' dl; lia).
  set (m' := match s with Z.pos _ => Z.shiftl (Z.pos mx) s | 0 => Z.pos mx | Z.neg _ => 0 end).
  assert (Hm' : m' = Z.pos mx * 2 ^ s).
  { subst m'. destruct s as [|p|p] eqn:Es; [lia| |lia].
    now rewrite Z.shiftl_mul_pow2 by lia. }
  pose proof (Z.div_eucl_eq m' (Z.pos my) ltac:(lia)) as Eq.
  pose proof (Z.mod_pos_bound m' (Z.pos my) ltac:(lia)) as Br. unfold Z.modulo in Br.
  destruct (Z.div_eucl m' (Z.pos my)) as [q r].
  pose proof (Zdigits2_lt (Z.pos mx) ltac:(lia)) as Lx. cbn [Zdigits2] in Lx. fold d1 in Lx.
  pose proof (Zdigits2_ge my) as Gy. fold d2 in Gy.
  assert (P2s : 0 < 2 ^ s) by (apply Z.pow_pos_nonneg; lia).
  assert (Pd2 : 0 < 2 ^ (d2 - 1)) by (apply Z.pow_pos_nonneg; lia).
  assert (Hq0 : 0 <= q).
  { destruct (Z.lt_ge_cases q 0) as [N|N]; [|exact N]. exfalso.
    assert (Z.pos my * q <= - Z.pos my) by nia.
    assert (0 <= m') by (rewrite Hm'; lia). lia. }
  assert (Hq : q < 2 ^ (d1 + s - (d2 - 1))).
  { apply mul_pow2_lt; [lia|].
    apply Z.le_lt_trans with (q * Z.pos my); [apply Z.mul_le_mono_nonneg_l; lia|].
    apply Z.le_lt_trans with m'; [lia|].
    rewrite Hm', Z.pow_add_r by lia. apply Z.mul_lt_mono_pos_r; lia. }
  assert (Dq : Zdigits2 q <= d1 + s - (d2 - 1)) by (apply Zdigits2_le; lia).
  eapply sized_le; [|apply round_aux_sized].
  - subst s dl. lia.
  - exact Hq0.
  - subst e' dl. lia.
  - subst s dl. lia.
Qed.

(** The product of two finite floats. *)
Lemma SFmul_sized (sx sy : bool) (mx my : positive) (ex ey : Z) :
  let b := Z.pos (digits2_pos mx) + ex + (Z.pos (digits2_pos my) + ey) in
  b <= 900 ->
  sized (xorb sx sy) (Z.max (b + 1) (-1073))
        (SFmul prec emax (S754_finite sx mx ex) (S754_finite sy my ey)).
Proof.
  intros b Hb. unfold SFmul.
  set (d1 := Z.pos (digits2_pos mx)) in *. set (d2 := Z.pos (digits2_pos my)) in *.
  assert (P1 : 0 < d1) by (subst d1; lia). assert (P2 : 0 < d2) by (subst d2; lia).
  pose proof (Zdigits2_lt (Z.pos mx) ltac:(lia)) as Lx. cbn [Zdigits2] in Lx. fold d1 in Lx.
  pose proof (Zdigits2_lt (Z.pos my) ltac:(lia)) as Ly. cbn [Zdigits2] in Ly. fold d2 in Ly.
  assert (Dp : Zdigits2 (Z.pos (mx * my)) <= d1 + d2).
  { apply Zdigits2_le; [lia|]. split; [lia|].
    rewrite Pos2Z.inj_mul, Z.pow_add_r by lia.
    apply Z.mul_lt_mono_nonneg; lia. }
  eapply sized_le; [|apply round_aux_sized].
  - subst b. lia.
  - lia.
  - subst b. lia.
  - subst b. lia.
Qed.

(** *** Sizes and scaled values *)

Lemma sized_scaled (s : bool) (b : Z) (x : spec_float) :
  valid_binary x = true -> sized s b x -> -1074 <= b ->
  exists z, SFz x = Some z /\ Z.abs z < 2 ^ (b + 1074) /\
            (s = false -> 0 <= z) /\ (s = true -> z <= 0).
Proof.
  intros V [->|(m & e & -> & B)] Hb.
  - exists 0. cbn [B64.SFz]. repeat split; try lia.
    all: try (rewrite Z.abs_0; apply Z.pow_pos_nonneg; lia).
  - destruct (valid_finite _ _ _ V) as (He & _).
    exists (cond_Zopp s (Z.pos m * 2 ^ (e + 1074))). split; [reflexivity|].
    assert (P : 0 < 2 ^ (e + 1074)) by (apply Z.pow_pos_nonneg; lia).
    pose proof (Zdigits2_lt (Z.pos m) ltac:(lia)) as L. cbn [Zdigits2] in L.
    assert (Hlt : Z.pos m * 2 ^ (e + 1074) < 2 ^ (b + 1074)).
    { apply Z.lt_le_trans with (2 ^ Z.pos (digits2_pos m) * 2 ^ (e + 1074)).
      - apply Z.mul_lt_mono_pos_r; lia.
      - rewrite <- Z.pow_add_r by lia. apply pow2_le. lia. }
    assert (0 < Z.pos m * 2 ^ (e + 1074)) by lia.
    destruct s; cbn [cond_Zopp]; repeat split; intros; try discriminate; lia.
Qed.

(** A finite float below [2^b] in size. *)
Lemma scaled_size (s : bool) (m : positive) (e b : Z) :
  valid_binary (S754_finite s m e) = true -> 0 <= b + 1074 ->
  Z.pos m * 2 ^ (e + 1074) < 2 ^ (b + 1074) ->
  Z.pos (digits2_pos m) + e <= b.
Proof.
  intros V Hb Hlt. destruct (valid_finite _ _ _ V) as (He & _).
  pose proof (Zdigits2_ge m) as G.
  pose proof (scaled_lt_pow2 (Z.pos (digits2_pos m) - 1) (Z.pos m) (e + 1074) (b + 1074)
                ltac:(lia) ltac:(lia) Hb G Hlt). lia.
Qed.

Lemma size_scaled (s : bool) (m : positive) (e b : Z) :
  valid_binary (S754_finite s m e) = true ->
  2 ^ (b + 1074) <= Z.pos m * 2 ^ (e + 1074) -> 0 <= b + 1074 ->
  b < Z.pos (digits2_pos m) + e.
Proof.
  intros V Hge Hb. destruct (valid_finite _ _ _ V) as (He & _).
  pose proof (Zdigits2_lt (Z.pos m) ltac:(lia)) as L. cbn [Zdigits2] in L.
  assert (P : 0 < 2 ^ (e + 1074)) by (apply Z.pow_pos_nonneg; lia).
  assert (Hlt : 2 ^ (b + 1074) < 2 ^ (Z.pos (digits2_pos m) + (e + 1074))).
  { rewrite (Z.pow_add_r 2 (Z.pos (digits2_pos m)) (e + 1074)) by lia.
    apply Z.le_lt_trans with (Z.pos m * 2 ^ (e + 1074)); [exact Hge|].
    apply Z.mul_lt_mono_pos_r; lia. }
  pose proof (pow2_lt_inv (b + 1074) (Z.pos (digits2_pos m) + (e + 1074)) ltac:(lia) Hlt).
  lia.
Qed.

(** *** float64 of an int, a ratio of two, and its product with a span *)

Lemma pow2_rep (k : Z) : 0 <= k -> (2 ^ lsb (2 ^ k) | 2 ^ k).
Proof.
  intros Hk. unfold lsb. rewrite Z.log2_pow2 by lia.
  exists (2 ^ (k - Z.max (k - 52) 0)). rewrite <- Z.pow_add_r by lia. f_equal. lia.
Qed.

Lemma ofInt_zero : Prim2SF (B64.ofInt 0) = S754_zero false.
Proof. reflexivity. Qed.

Lemma ofInt_positive (z : Z) :
  0 < z < 2 ^ 63 ->
  exists m e, Prim2SF (B64.ofInt z) = S754_finite false m e /\
              valid_binary (S754_finite false m e) = true /\
              1 <= Z.pos (digits2_pos m) + e <= 64.
Proof.
  intros Hz. unfold B64.ofInt.
  assert (P : 0 < 2 ^ 1074) by lia.
  assert (Hlo : 2 ^ 1074 <= z * 2 ^ 1074) by nia.
  assert (Hhi : z * 2 ^ 1074 <= 2 ^ 1137).
  { change (2 ^ 1137) with (2 ^ 63 * 2 ^ 1074). apply Z.mul_le_mono_nonneg_r; lia. }
  assert (Hov : rnd (Z.abs (z * 2 ^ (0 + 1074))) < 2 ^ 2098).
  { change (0 + 1074) with 1074. rewrite Z.abs_eq by lia. apply rnd_fits. split; [lia|].
    apply Z.le_trans with (2 ^ 1137); [exact Hhi|]. apply pow2_le. lia. }
  destruct (binary_normalize_value z 0 false ltac:(lia) Hov) as [V Hval].
  change (0 + 1074) with 1074 in Hval. rewrite rndZ_nonneg in Hval by lia.
  pose proof (rnd_ge_rep (z * 2 ^ 1074) (2 ^ 1074) ltac:(lia) (pow2_rep 1074 ltac:(lia))) as Rlo.
  pose proof (rnd_le_rep (z * 2 ^ 1074) (2 ^ 1137) ltac:(lia) (pow2_rep 1137 ltac:(lia))) as Rhi.
  rewrite Prim2SF_SF2Prim by exact V.
  destruct (binary_normalize prec emax z 0 false) as [s0|s0| |s0 m0 e0] eqn:E; try discriminate.
  - exfalso. cbn [B64.SFz] in Hval. assert (rnd (z * 2 ^ 1074) = 0) by congruence. lia.
  - assert (Hv : cond_Zopp s0 (Z.pos m0 * 2 ^ (e0 + 1074)) = rnd (z * 2 ^ 1074))
      by (cbn [B64.SFz] in Hval; congruence).
    destruct (valid_finite _ _ _ V) as (He & _).
    assert (P0 : 0 < Z.pos m0 * 2 ^ (e0 + 1074)) by (apply Z.mul_pos_pos; [lia|]; apply Z.pow_pos_nonneg; lia).
    destruct s0; cbn [cond_Zopp] in Hv; [lia|].
    exists m0, e0. split; [reflexivity|]. split; [exact V|]. split.
    + pose proof (size_scaled false m0 e0 0 V ltac:(change (0 + 1074) with 1074; lia) ltac:(lia)).
      lia.
    + apply (scaled_size false m0 e0 64 V ltac:(lia)).
      change (64 + 1074) with 1138. apply Z.le_lt_trans with (2 ^ 1137); [lia|].
      apply Z.pow_lt_mono_r; lia.
Qed.

(** The ratio of a tile's size to the map's is 0 or a positive finite
    double. *)
Lemma ratio_sized (h H : Z) :
  0 <= h < 2 ^ 63 -> 0 < H < 2 ^ 63 ->
  sized false 66 (Prim2SF (B64.ofInt h / B64.ofInt H)%float).
Proof.
  intros Hh HH. rewrite div_spec.
  destruct (ofInt_positive H HH) as (mH & eH & EH & VH & BH). rewrite EH.
  destruct (Z.eq_dec h 0) as [->|Hn].
  - rewrite ofInt_zero. now left.
  - destruct (ofInt_positive h ltac:(lia)) as (mh & eh & Eh & Vh & Bh). rewrite Eh.
    pose proof (valid_mantissa _ _ _ Vh) as Mh.
    assert (Dh : Z.pos (digits2_pos mh) <= 53).
    { change (Z.pos (digits2_pos mh)) with (Zdigits2 (Z.pos mh)). apply Zdigits2_le; lia. }
    apply (sized_le false (Z.pos (digits2_pos mh) + eh - (Z.pos (digits2_pos mH) + eH) + 2));
      [lia|].
    apply (SFdiv_sized false false mh mH eh eH); [exact Dh | lia].
Qed.

(** A ratio times a nonnegative finite double is a nonnegative finite
    double. *)
Lemma scaled_span (h H : Z) (d : float) (zd : Z) :
  0 <= h < 2 ^ 63 -> 0 < H < 2 ^ 63 ->
  B64.scaled d = Some zd -> 0 <= zd < 2 ^ 1084 ->
  exists z, B64.scaled (B64.ofInt h / B64.ofInt H * d)%float = Some z /\
            0 <= z < 2 ^ 1200.
Proof.
  intros Hh HH Hd Bd. pose proof (ratio_sized h H Hh HH) as Sq.
  unfold B64.scaled in *. rewrite mul_spec.
  pose proof (Prim2SF_valid (B64.ofInt h / B64.ofInt H * d)%float) as Vp.
  rewrite mul_spec in Vp.
  pose proof (Prim2SF_valid d) as Vd.
  set (q := Prim2SF (B64.ofInt h / B64.ofInt H)%float) in *.
  destruct (Prim2SF d) as [sd| | |sd md ed] eqn:Ed; try discriminate.
  - exists 0. split; [|lia].
    destruct Sq as [->|(m & e & -> & _)]; reflexivity.
  - destruct Sq as [->|(m & e & Eq & Bq)]; [exists 0; split; [reflexivity|lia]|].
    rewrite Eq in *. apply SFz_finite in Hd.
    destruct (valid_finite _ _ _ Vd) as (He & _).
    assert (P0 : 0 < Z.pos md * 2 ^ (ed + 1074))
      by (apply Z.mul_pos_pos; [lia|]; apply Z.pow_pos_nonneg; lia).
    destruct sd; cbn [cond_Zopp] in Hd; [lia|].
    pose proof (scaled_size false md ed 10 Vd ltac:(lia)
                  ltac:(change (10 + 1074) with 1084; lia)) as Sd.
    pose proof (SFmul_sized false false m md e ed ltac:(lia)) as Sp.
    cbv zeta in Sp. change (xorb false false) with false in Sp.
    apply (sized_le _ _ 77) in Sp; [|lia].
    destruct (sized_scaled false 77 _ Vp Sp ltac:(lia)) as (z & Hz & Bz & Pz & _).
    exists z. split; [exact Hz|]. specialize (Pz eq_refl). split; [exact Pz|].
    change (77 + 1074) with 1151 in Bz.
    apply Z.lt_le_trans with (2 ^ 1151); [lia | apply pow2_le; lia].
Qed.

(** *** Rounding next to a double, either sign *)

Lemma rndZ_le_rep (a K : Z) : a <= K -> (2 ^ lsb (Z.abs K) | Z.abs K) -> rndZ a <= K.
Proof.
  intros Ha DK. destruct (Z.le_gt_cases 0 a) as [P|N].
  - rewrite rndZ_nonneg by exact P. rewrite Z.abs_eq in DK by lia.
    apply rnd_le_rep; [lia | exact DK].
  - rewrite rndZ_nonpos by lia. pose proof (rnd_nonneg (- a) ltac:(lia)).
    destruct (Z.le_gt_cases 0 K) as [PK|NK]; [lia|].
    rewrite Z.abs_neq in DK by lia.
    pose proof (rnd_ge_rep (- a) (- K) ltac:(lia) DK). lia.
Qed.

Lemma rndZ_ge_rep (a K : Z) : K <= a -> (2 ^ lsb (Z.abs K) | Z.abs K) -> K <= rndZ a.
Proof.
  intros Ha DK. destruct (Z.le_gt_cases a 0) as [N|P].
  - rewrite rndZ_nonpos by exact N. rewrite Z.abs_neq in DK by lia.
    destruct (Z.eq_dec a 0) as [->|Hn].
    + change (- 0) with 0. rewrite rnd_0. lia.
    + pose proof (rnd_le_rep (- a) (- K) ltac:(lia) DK). lia.
  - rewrite rndZ_nonneg by lia. pose proof (rnd_nonneg a ltac:(lia)).
    destruct (Z.le_gt_cases K 0) as [NK|PK]; [lia|].
    rewrite Z.abs_eq in DK by lia.
    pose proof (rnd_ge_rep a K ltac:(lia) DK). lia.
Qed.

End B64Mul.

Module B64Walk.

Import Rounding B64Facts B64Round B64Edges B64Mul.

Lemma Zof_90 : B64.scaled 90 = Some K90.
Proof. vm_compute. reflexivity. Qed.

Lemma Zof_m90 : B64.scaled (-90) = Some (- K90).
Proof. vm_compute. reflexivity. Qed.

Lemma Zof_0 : B64.scaled 0 = Some 0.
Proof. reflexivity. Qed.

Lemma K90_double : K180 = 2 * K90.
Proof. unfold K180, K90. lia. Qed.

Lemma K180_lt : K180 < 2 ^ 1084.
Proof.
  pose proof K180_binade. apply Z.lt_trans with (2 ^ 1082); [lia|].
  apply Z.pow_lt_mono_r; lia.
Qed.

Lemma K360_lt : K360 < 2 ^ 1084.
Proof.
  pose proof K180_binade. rewrite K360_double.
  change (2 ^ 1084) with (4 * 2 ^ 1082). lia.
Qed.

Lemma pow_1200 : 2 ^ 1084 + 2 ^ 1200 <= 2 ^ 2000.
Proof.
  assert (2 ^ 1084 <= 2 ^ 1200) by (apply pow2_le; lia).
  assert (2 * 2 ^ 1200 <= 2 ^ 2000); [|lia].
  rewrite <- Z.pow_succ_r by lia. apply pow2_le. lia.
Qed.

(** A double between two finite doubles is finite. *)
Lemma between_finite (a x b : float) (za zb : Z) :
  B64.scaled a = Some za -> B64.scaled b = Some zb ->
  PrimFloat.leb a x = true -> PrimFloat.leb x b = true ->
  exists z, B64.scaled x = Some z /\ za <= z <= zb.
Proof.
  intros Ha Hb Lo Hi. destruct (B64.scaled x) as [z|] eqn:Ex.
  - exists z. split; [reflexivity|].
    rewrite (Zof_leb _ _ _ _ Ha Ex) in Lo. rewrite (Zof_leb _ _ _ _ Ex Hb) in Hi.
    apply Z.leb_le in Lo, Hi. lia.
  - exfalso. unfold B64.scaled in *. rewrite leb_spec in Lo, Hi.
    destruct (Prim2SF x) as [s|[]| |s m e]; try discriminate;
      destruct (Prim2SF a) as [sa|sa| |sa ma ea]; try discriminate;
      destruct (Prim2SF b) as [sb|sb| |sb mb eb]; discriminate.
Qed.

(** What [finishTileBox] stores, in scaled values: a south no further
    north than the tile's north and an east no further west than its
    west. *)
Lemma finish_scaled (tile fullMap : mapTile float) (zn zs ze zw tn tw : Z) :
  0 <= width tile < 2 ^ 63 -> 0 <= height tile < 2 ^ 63 ->
  0 < width fullMap < 2 ^ 63 -> 0 < height fullMap < 2 ^ 63 ->
  B64.scaled (at4 (box fullMap) north) = Some zn ->
  B64.scaled (at4 (box fullMap) south) = Some zs ->
  - K90 <= zs -> zs <= zn -> zn <= K90 ->
  B64.scaled (at4 (box fullMap) east) = Some ze ->
  B64.scaled (at4 (box fullMap) west) = Some zw ->
  B64.scaled (at4 (box tile) north) = Some tn -> - K90 <= tn <= K90 ->
  B64.scaled (at4 (box tile) west) = Some tw -> - K180 <= tw <= K180 ->
  exists s' e',
    B64.scaled (at4 (box (finishTileBox tile fullMap)) south) = Some s' /\ s' <= tn /\
    B64.scaled (at4 (box (finishTileBox tile fullMap)) east) = Some e' /\ tw <= e'.
Proof.
  intros Wt Ht Wf Hf Hn Hs Bs Bsn Bn He Hw Htn Btn Htw Btw.
  pose proof K180_pos as P. pose proof K90_double as D9. pose proof K180_lt as L180.
  pose proof K360_lt as L360. pose proof pow_1200 as Big.
  unfold finishTileBox, delta. cbn [fmul fdiv fsub fadd ofInt b64].
  destruct (box tile) as [bn bs be bw]. cbn [at4 set4 box bN bS bE bW] in *.
  (* north - south of the full map *)
  assert (Hd : B64.scaled (at4 (box fullMap) north - at4 (box fullMap) south)%float
               = Some (rnd (zn - zs))).
  { rewrite <- rndZ_nonneg by lia. apply Zof_sub; [exact Hn | exact Hs |].
    apply rnd_small_fits. lia. }
  assert (Bd : 0 <= rnd (zn - zs) < 2 ^ 1084).
  { split; [apply rnd_nonneg; lia|].
    pose proof (rnd_le_rep (zn - zs) K180 ltac:(lia) K180_rep). lia. }
  destruct (scaled_span (height tile) (height fullMap) _ _ Ht Hf Hd Bd) as (z1 & Hz1 & Bz1).
  (* the east-west span of the full map *)
  destruct (eastDelta_finite_range _ _ ze zw He Hw) as (r & Hr & Br).
  destruct (scaled_span (width tile) (width fullMap) _ r Wt Wf Hr ltac:(lia)) as (z2 & Hz2 & Bz2).
  exists (rndZ (tn - z1)), (rndZ (tw + z2)). repeat split.
  - apply Zof_sub; [exact Htn | exact Hz1 |]. apply rnd_fits. lia.
  - apply rndZ_le_rep; [lia|]. apply (B64Round.Zof_divide bn); exact Htn.
  - apply Zof_add; [exact Htw | exact Hz2 |]. apply rnd_fits. lia.
  - apply rndZ_ge_rep; [lia|]. apply (B64Round.Zof_divide bw); exact Htw.
Qed.

End B64Walk.

Module B64Loop.

Import Rounding B64Facts B64Round B64Edges B64Mul B64Walk.

Lemma value_some (x : float) : B64.value x <> None <-> exists z, B64.scaled x = Some z.
Proof.
  unfold B64.value. destruct (B64.scaled x) as [z|]; cbn [option_map]; split.
  - intros _. now exists z.
  - discriminate.
  - intros N. now elim N.
  - intros [z E]. discriminate.
Qed.

Lemma Atoi_range (s : string) (v : Z) : Scan.Atoi s = (v, false) -> - 2 ^ 63 <= v < 2 ^ 63.
Proof.
  unfold Scan.Atoi. destruct (Scan.sign s) as [neg s0].
  destruct (Scan.digits s0 0 0) as [[v0 n] rest].
  destruct n as [|n]; [discriminate|]. destruct rest; [|discriminate].
  destruct (Z.ltb_spec (if neg then - v0 else v0) (- 2 ^ 63)); [discriminate|].
  destruct (Z.ltb_spec (2 ^ 63 - 1) (if neg then - v0 else v0)); [discriminate|].
  intros [= <-]. lia.
Qed.

Lemma imageWxH_range (wd : world) (f : string) (w h : Z) :
  imageWxH wd f = (w, h, None) -> (- 2 ^ 63 <= w < 2 ^ 63) /\ (- 2 ^ 63 <= h < 2 ^ 63).
Proof.
  unfold imageWxH. destruct (negb (stat wd f)); [discriminate|].
  destruct (identify wd f) as [b|]; [|discriminate]. unfold parseWxH.
  destruct (negb (List.length (Split b " ") =? 2)%nat); [discriminate|].
  destruct (Scan.Atoi (nth 0 (Split b " ") EmptyString)) as [w' [|]] eqn:Ew; [discriminate|].
  destruct (Scan.Atoi (nth 1 (Split b " ") EmptyString)) as [h' [|]] eqn:Eh; [discriminate|].
  intros [= <- <-]. split; [exact (Atoi_range _ _ Ew) | exact (Atoi_range _ _ Eh)].
Qed.

Lemma tileStep_good (wd : world) (fixedMap : mapTile float) (zn zw : Z)
      (st st' : walk float) (tf : string) (tile : mapTile float) (cn cw : Z) :
  goodMap fixedMap zn zw ->
  B64.scaled (currNorth st) = Some cn -> cn <= zn ->
  B64.scaled (currWest st) = Some cw ->
  tileStep wd fixedMap st tf = Ret (Ok (tile, st')) ->
  0 <= width tile -> 0 <= height tile ->
  wellPlaced fixedMap tile /\
  exists cn' cw', B64.scaled (currNorth st') = Some cn' /\ cn' <= zn /\
                  B64.scaled (currWest st') = Some cw'.
Proof.
  intros [Gw Gh Gn (zs & Gs & Bs1 & Bs2 & Bs3) (ze & Ge) Gwe] Hcn Bcn Hcw Hstep Wt Ht.
  pose proof K180_pos as P. pose proof K90_double as D9.
  unfold tileStep, NewMapTileFromFile in Hstep.
  destruct (imageWxH wd tf) as [[w h] [err|]] eqn:Edim; [discriminate|].
  destruct (imageWxH_range wd tf w h Edim) as [Rw Rh].
  unfold NewMapTile in Hstep. cbn [flt ofInt b64] in Hstep.
  change (B64.ofInt 90) with 90%float in Hstep.
  change (B64.ofInt (-90)) with (-90)%float in Hstep.
  change (B64.ofInt 0) with 0%float in Hstep.
  rewrite (Zof_ltb _ _ _ _ Zof_90 Hcn), (Zof_ltb _ _ _ _ Hcn Zof_0) in Hstep.
  destruct (Z.ltb_spec K90 cn) as [|N90]; [discriminate|].
  change (PrimFloat.ltb 0 (-90)) with false in Hstep.
  destruct (Z.ltb_spec cn 0) as [|N0]; [discriminate|].
  cbn [orb bind] in Hstep.
  set (t0 := {| fpath := tf; width := w; height := h;
                box := Box (currNorth st) 0%float (normEasting 0%float)
                           (normEasting (currWest st)) |}) in *.
  destruct (normEasting_finite_range (currWest st) cw Hcw) as (tw & Htw & Btw).
  assert (Hfin : exists s' e',
             B64.scaled (at4 (box (finishTileBox t0 fixedMap)) south) = Some s' /\ s' <= cn /\
             B64.scaled (at4 (box (finishTileBox t0 fixedMap)) east) = Some e' /\ tw <= e' /\
             0 <= width (finishTileBox t0 fixedMap) /\ 0 <= height (finishTileBox t0 fixedMap)).
  { assert (Hsz : width (finishTileBox t0 fixedMap) = w /\ height (finishTileBox t0 fixedMap) = h).
    { unfold finishTileBox. destruct (delta _ _ _ _ _). split; reflexivity. }
    destruct Hsz as [Hsw Hsh].
    assert (Wt' : 0 <= w /\ 0 <= h).
    { destruct (width fixedMap <=? wrap64 (widthSum st + width (finishTileBox t0 fixedMap)));
        injection Hstep as <- _; rewrite Hsw, Hsh in *; split; assumption. }
    destruct (finish_scaled t0 fixedMap zn zs ze zw cn tw) as (s' & e' & A & B & C & D);
      try assumption; cbn [t0 width height box at4 bN bW]; try lia.
    exists s', e'. rewrite Hsw, Hsh. repeat split; try assumption; lia. }
  destruct Hfin as (s' & e' & Hs' & Bs' & He' & Be' & _).
  assert (Hbox : at4 (box (finishTileBox t0 fixedMap)) north = currNorth st /\
                 at4 (box (finishTileBox t0 fixedMap)) west = normEasting (currWest st)).
  { unfold finishTileBox. destruct (delta _ _ _ _ _). split; reflexivity. }
  destruct Hbox as [Hbn Hbw].
  assert (Good : wellPlaced fixedMap (finishTileBox t0 fixedMap)).
  { unfold wellPlaced. rewrite Hbn, Hbw.
    rewrite (Zof_leb _ _ _ _ Zof_0 Hcn), (Zof_leb _ _ _ _ Hcn Gn), (Zof_leb _ _ _ _ Hs' Hcn),
      (Zof_leb _ _ _ _ Zof_m180 Htw), (Zof_leb _ _ _ _ Htw Zof_180), (Zof_leb _ _ _ _ Htw He').
    repeat split; try (apply Z.leb_le; lia); apply value_some; eauto. }
  destruct (width fixedMap <=? wrap64 (widthSum st + width (finishTileBox t0 fixedMap)));
    injection Hstep as <- <-; (split; [exact Good|]); cbn [currNorth currWest].
  - exists s', zw. repeat split; try assumption; lia.
  - exists cn, e'. repeat split; assumption.
Qed.

Lemma tileLoop_good (wd : world) (fixedMap : mapTile float) (zn zw : Z)
      (tileFiles : list string) :
  goodMap fixedMap zn zw ->
  forall (st : walk float) (tiles : list (mapTile float)) (cn cw : Z),
    B64.scaled (currNorth st) = Some cn -> cn <= zn ->
    B64.scaled (currWest st) = Some cw ->
    tileLoop wd fixedMap st tileFiles = Ret (Ok tiles) ->
    Forall (fun t => 0 <= width t /\ 0 <= height t) tiles ->
    Forall (wellPlaced fixedMap) tiles.
Proof.
  intros G. induction tileFiles as [|tf rest IH]; intros st tiles cn cw Hcn Bcn Hcw Hloop Hsz.
  - cbn [tileLoop] in Hloop. injection Hloop as <-. constructor.
  - apply tileLoop_cons in Hloop as (tile & st' & tiles' & Hstep & Hrest & ->).
    inversion Hsz as [|t ts [Wt Ht] Hsz' E]; subst.
    destruct (tileStep_good wd fixedMap zn zw st st' tf tile cn cw G Hcn Bcn Hcw Hstep Wt Ht)
      as (Good & cn' & cw' & Hcn' & Bcn' & Hcw').
    constructor; [exact Good|]. exact (IH st' tiles' cn' cw' Hcn' Bcn' Hcw' Hrest Hsz').
Qed.

Lemma leb_neg_infinity (x : float) (z : Z) :
  B64.scaled x = Some z -> PrimFloat.leb x neg_infinity = false.
Proof.
  unfold B64.scaled. rewrite leb_spec. change (Prim2SF neg_infinity) with (S754_infinity true).
  destruct (Prim2SF x) as [s|s| |s m e]; try discriminate; reflexivity.
Qed.

(** Latitudes in order between the poles are finite. *)
Lemma latitudes_finite (n s : float) :
  PrimFloat.leb (-90) s = true -> PrimFloat.leb s n = true -> PrimFloat.leb n 90 = true ->
  exists zn zs, B64.scaled n = Some zn /\ B64.scaled s = Some zs /\
                - K90 <= zs /\ zs <= zn /\ zn <= K90.
Proof.
  intros L1 L2 L3.
  assert (Hs : exists zs, B64.scaled s = Some zs /\ (s = infinity \/ - K90 <= zs) ).
  { destruct (B64.scaled s) as [zs|] eqn:Es.
    - exists zs. split; [reflexivity|]. right.
      rewrite (Zof_leb _ _ _ _ Zof_m90 Es) in L1. now apply Z.leb_le in L1.
    - exfalso. destruct (not_finite_cases s Es) as [->|[->| ->]].
      + rewrite leb_nan_r in L1. discriminate.
      + destruct (B64.scaled n) as [zn|] eqn:En.
        * unfold B64.scaled in En. rewrite leb_spec in L2.
          change (Prim2SF infinity) with (S754_infinity false) in L2.
          destruct (Prim2SF n) as [s0|s0| |s0 m e]; discriminate.
        * destruct (not_finite_cases n En) as [->|[->| ->]]; vm_compute in L2, L3; discriminate.
      + vm_compute in L1. discriminate. }
  destruct Hs as (zs & Es & _).
  assert (Hn : exists zn, B64.scaled n = Some zn).
  { destruct (B64.scaled n) as [zn|] eqn:En; [now exists zn|]. exfalso.
    destruct (not_finite_cases n En) as [->|[->| ->]].
    - rewrite leb_nan_l in L3. discriminate.
    - vm_compute in L3. discriminate.
    - rewrite (leb_neg_infinity s zs Es) in L2. discriminate. }
  destruct Hn as (zn & En). exists zn, zs.
  rewrite (Zof_leb _ _ _ _ Zof_m90 Es) in L1. rewrite (Zof_leb _ _ _ _ Es En) in L2.
  rewrite (Zof_leb _ _ _ _ En Zof_90) in L3. apply Z.leb_le in L1, L2, L3.
  repeat split; assumption.
Qed.

End B64Loop.

(** X17.  On doubles [finishTileBox] keeps a tile in order: for a
    full map of positive pixel size with -90 <= south <= north <= 90
    and finite east and west, and a tile of nonnegative pixel size
    whose north is within [-90, 90] and whose west is within
    [-180, 180], the completed tile has south <= north and west <= east,
    both finite. *)
Theorem finishTileBox_keeps_order (tile fullMap : mapTile float) :
  0 <= width tile < 2 ^ 63 -> 0 <= height tile < 2 ^ 63 ->
  0 < width fullMap < 2 ^ 63 -> 0 < height fullMap < 2 ^ 63 ->
  PrimFloat.leb (-90) (at4 (box fullMap) south) = true ->
  PrimFloat.leb (at4 (box fullMap) south) (at4 (box fullMap) north) = true ->
  PrimFloat.leb (at4 (box fullMap) north) 90 = true ->
  B64.value (at4 (box fullMap) east) <> None ->
  B64.value (at4 (box fullMap) west) <> None ->
  PrimFloat.leb (-90) (at4 (box tile) north) = true ->
  PrimFloat.leb (at4 (box tile) north) 90 = true ->
  PrimFloat.leb (-180) (at4 (box tile) west) = true ->
  PrimFloat.leb (at4 (box tile) west) 180 = true ->
  let t := finishTileBox tile fullMap in
  PrimFloat.leb (at4 (box t) south) (at4 (box t) north) = true /\
  PrimFloat.leb (at4 (box t) west) (at4 (box t) east) = true /\
  B64.value (at4 (box t) south) <> None /\ B64.value (at4 (box t) east) <> None.
Proof.
  intros Wt Ht Wf Hf L1 L2 L3 Ve Vw T1 T2 T3 T4. cbv zeta.
  destruct (B64Loop.latitudes_finite _ _ L1 L2 L3) as (zn & zs & En & Es & B1 & B2 & B3).
  apply B64Loop.value_some in Ve as (ze & Ee). apply B64Loop.value_some in Vw as (zw & Ew).
  destruct (B64Walk.between_finite _ _ _ _ _ B64Walk.Zof_m90 B64Walk.Zof_90 T1 T2)
    as (tn & Etn & Btn).
  destruct (B64Walk.between_finite _ _ _ _ _ B64Round.Zof_m180 B64Round.Zof_180 T3 T4)
    as (tw & Etw & Btw).
  destruct (B64Walk.finish_scaled tile fullMap zn zs ze zw tn tw) as (s' & e' & A & B & C & D);
    try assumption.
  assert (Hbox : at4 (box (finishTileBox tile fullMap)) north = at4 (box tile) north /\
                 at4 (box (finishTileBox tile fullMap)) west = at4 (box tile) west).
  { unfold finishTileBox. destruct (delta _ _ _ _ _). destruct (box tile). split; reflexivity. }
  destruct Hbox as [Hbn Hbw]. rewrite Hbn, Hbw.
  rewrite (B64Round.Zof_leb _ _ _ _ A Etn), (B64Round.Zof_leb _ _ _ _ Etw C).
  repeat split; try (apply Z.leb_le; assumption);
    apply B64Loop.value_some; eauto.
Qed.

Lemma finishTileBox_keeps_order_witness :
  let fullMap := {| fpath := "fixed.jpg"; width := 3000; height := 2000;
                    box := Box 49.5 49.25 (-122.9) (-123.1) |}%float in
  let tile := {| fpath := "tiles/t_005.jpg"; width := 952; height := 976;
                 box := Box 49.375 0 0 (-122.95) |}%float in
  let t := finishTileBox tile fullMap in
  PrimFloat.leb (at4 (box t) south) (at4 (box t) north) = true /\
  PrimFloat.leb (at4 (box t) west) (at4 (box t) east) = true /\
  B64.value (at4 (box t) south) <> None /\ B64.value (at4 (box t) east) <> None.
Proof.
  apply finishTileBox_keeps_order; cbn [width height box at4 bN bS bE bW];
    try lia; try (vm_compute; reflexivity); vm_compute; discriminate.
Defined.

(** X18.  On doubles, every tile the loop lays out is in order: when
    the loop returns for a full map of positive pixel size with
    -90 <= south <= north <= 90 and finite east and west, and
    [identify] reported no negative size, each tile has
    0 <= north <= the full map's north, south <= north, west within
    [-180, 180] and west <= east, with a finite south and east. *)
Theorem layoutTiles_boxes_in_order
        (wd : world) (fixedMap : mapTile float) (tileFiles : list string)
        (tiles : list (mapTile float)) :
  0 < width fixedMap < 2 ^ 63 -> 0 < height fixedMap < 2 ^ 63 ->
  PrimFloat.leb (-90) (at4 (box fixedMap) south) = true ->
  PrimFloat.leb (at4 (box fixedMap) south) (at4 (box fixedMap) north) = true ->
  PrimFloat.leb (at4 (box fixedMap) north) 90 = true ->
  B64.value (at4 (box fixedMap) east) <> None ->
  B64.value (at4 (box fixedMap) west) <> None ->
  layoutTiles wd fixedMap tileFiles = Ret (Ok tiles) ->
  Forall (fun t => 0 <= width t /\ 0 <= height t) tiles ->
  Forall (wellPlaced fixedMap) tiles.
Proof.
  intros Wf Hf L1 L2 L3 Ve Vw Hl Hsz.
  destruct (B64Loop.latitudes_finite _ _ L1 L2 L3) as (zn & zs & En & Es & B1 & B2 & B3).
  apply B64Loop.value_some in Ve as (ze & Ee). apply B64Loop.value_some in Vw as (zw & Ew).
  assert (G : goodMap fixedMap zn zw).
  { constructor; try assumption; eauto 8. }
  unfold layoutTiles in Hl.
  apply (B64Loop.tileLoop_good wd fixedMap zn zw tileFiles G _ tiles zn zw) in Hl;
    cbn [currNorth currWest]; try assumption; lia.
Qed.

Lemma layoutTiles_boxes_in_order_witness :
  exists (fixedMap : mapTile float) (tiles : list (mapTile float)),
    (NewMapTile "fixed.jpg" 2000 2000 50 40 10 0)%float = Ret fixedMap /\
    layoutTiles (uniformTiles "2000" "1000") fixedMap (tileNames 4) = Ret (Ok tiles) /\
    Forall (wellPlaced fixedMap) tiles.
Proof.
  eexists _, _.
  split; [vm_compute; reflexivity|].
  assert (Hl : layoutTiles (uniformTiles "2000" "1000")
                 {| fpath := "fixed.jpg"; width := 2000; height := 2000;
                    box := Box 50 40 10 0 |}%float (tileNames 4) = Ret (Ok _))
    by (vm_compute; reflexivity).
  split; [exact Hl|].
  refine (layoutTiles_boxes_in_order _ _ _ _ _ _ _ _ _ _ _ Hl _);
    cbn [width height box at4 bN bS bE bW].
  - lia.
  - lia.
  - vm_compute. reflexivity.
  - vm_compute. reflexivity.
  - vm_compute. reflexivity.
  - vm_compute. discriminate.
  - vm_compute. discriminate.
  - repeat constructor; cbn; lia.
Defined.
